(** * Product import pipeline: a shallow embedding of [ProductImportService]

    The service streams a tab separated catalogue file in chunks of rows,
    groups the rows of a chunk by [ProductID], resolves the vendor and the
    manufacturer of every group against the store, merges the variants of the
    group into the stored product and issues one batched upsert per chunk.

    Conventions of the embedding.
    - A JavaScript value that is a string or [undefined] is an
      [option string]; strings are sequences of code units below 256.
    - A JavaScript number is a [float] (IEEE 754 binary64), so that [!==] on
      prices is [negb (PrimFloat.eqb _ _)], with its treatment of NaN and of
      the two zeros.
    - A JavaScript [Map], an object used as a dictionary and a stored
      document keep their keys in insertion order: they are association
      lists ([JsMap]).
    - Asynchronous code is sequential here: every [await] runs to completion
      before the next statement.
    - The store, the random identifier generator and the logger are part of
      an explicit [World] that every operation threads. *)

From Stdlib Require Import ZArith Lia Floats Ascii.
From stdpp Require Import base option list strings gmap pretty.

Local Open Scope string_scope.
Local Open Scope list_scope.

(** ** Insertion ordered maps with string keys

    [set] on a key that is present replaces the value in place and keeps the
    position of the key; on a new key it appends the entry at the end. This
    is the iteration order of a JavaScript [Map] and of the string keys of an
    object. *)

Module JsMap.

Section Values.
Context {V : Type}.

Definition t : Type := list (string * V).

Definition empty : t := [].

Fixpoint get (k : string) (m : t) : option V :=
  match m with
  | [] => None
  | (k', v) :: m' => if decide (k = k') then Some v else get k m'
  end.

Definition has (k : string) (m : t) : bool :=
  match get k m with Some _ => true | None => false end.

Fixpoint set (k : string) (v : V) (m : t) : t :=
  match m with
  | [] => [(k, v)]
  | (k', v') :: m' =>
      if decide (k = k') then (k, v) :: m' else (k', v') :: set k v m'
  end.

Definition keys (m : t) : list string := map fst m.

Definition values (m : t) : list V := map snd m.

End Values.

Arguments t : clear implicits.

End JsMap.

(** ** JavaScript primitives used by the service *)

Module Js.

(** [x || d] for [x] a string or [undefined]: the empty string is falsy. *)
Definition or_else (x : option string) (d : string) : string :=
  match x with
  | Some s => if decide (s = "") then d else s
  | None => d
  end.

(** [x || null]: the result is a non-empty string or [null] ([None]). *)
Definition or_null (x : option string) : option string :=
  match x with
  | Some s => if decide (s = "") then None else Some s
  | None => None
  end.

(** [!x] for [x] a string or [undefined]. *)
Definition falsy (x : option string) : bool :=
  match x with
  | Some s => bool_decide (s = "")
  | None => true
  end.

(** The conversion of a string or [undefined] to a string, as an
    interpolation [${x}] and a property key [o[x]] perform it. *)
Definition to_string (x : option string) : string := default "undefined" x.

(** White space and line terminators among the code units below 256:
    TAB, LF, VT, FF, CR, SP and NBSP. *)
Definition is_space (c : ascii) : bool :=
  let n := nat_of_ascii c in
  (Nat.leb 9 n && Nat.leb n 13) || Nat.eqb n 32 || Nat.eqb n 160.

Fixpoint trimStart (s : string) : string :=
  match s with
  | String c s' => if is_space c then trimStart s' else s
  | EmptyString => EmptyString
  end.

(** [s.trim() === ''] holds exactly when every code unit is white space. *)
Definition trim_is_empty (s : string) : bool :=
  bool_decide (trimStart s = "").

Definition digit (c : ascii) : option Z :=
  let n := nat_of_ascii c in
  if Nat.leb 48 n && Nat.leb n 57 then Some (Z.of_nat n - 48)%Z else None.

(** The longest prefix of decimal digits, read as an integer; [None] when
    the string does not start with a digit. *)
Fixpoint digits (acc : option Z) (s : string) : option Z :=
  match s with
  | String c s' =>
      match digit c with
      | Some d => digits (Some (10 * default 0%Z acc + d)%Z) s'
      | None => acc
      end
  | EmptyString => acc
  end.

(** [parseInt(value, 10)]: the argument is converted to a string, leading
    white space is skipped, one sign is read, then the longest run of
    decimal digits. [None] is NaN. The result is kept as the exact integer:
    the service only asks whether it is NaN and whether it is positive,
    which rounding to a double does not change. *)
Definition parseInt (value : option string) : option Z :=
  match trimStart (to_string value) with
  | String "-" s => Z.opp <$> digits None s
  | String "+" s => digits None s
  | s => digits None s
  end.

(** Whether a string is the canonical decimal form of an array index, an
    integer between 0 and 2^32 - 2: such keys of an object are enumerated
    first, in ascending numeric order. *)
Definition array_index (s : string) : option Z :=
  match s with
  | "0" => Some 0%Z
  | String c _ =>
      if bool_decide (c = "0"%char) then None
      else
        (fix all_digits (acc : Z) (r : string) : option Z :=
           match r with
           | EmptyString => if (acc <=? 4294967294)%Z then Some acc else None
           | String d r' =>
               match digit d with
               | Some n => all_digits (10 * acc + n)%Z r'
               | None => None
               end
           end) 0%Z s
  | EmptyString => None
  end.

Fixpoint insert_index (k : Z * string) (l : list (Z * string)) : list (Z * string) :=
  match l with
  | [] => [k]
  | k' :: l' => if (k.1 <=? k'.1)%Z then k :: l else k' :: insert_index k l'
  end.

(** [Object.keys(o)] for an ordinary object: array indices in ascending
    order, then the other string keys in insertion order. *)
Definition ownKeys (ks : list string) : list string :=
  let indices := omap (fun k => (fun n => (n, k)) <$> array_index k) ks in
  let names := filter (fun k => array_index k = None) ks in
  (foldr insert_index [] indices).*2 ++ names.

(** The properties every ordinary object inherits from [Object.prototype]:
    reading one of them on an empty object literal yields a function (or,
    for [__proto__], the prototype itself), never [undefined]. *)
Definition prototype_keys : list string :=
  [ "constructor"; "__defineGetter__"; "__defineSetter__"; "hasOwnProperty";
    "__lookupGetter__"; "__lookupSetter__"; "isPrototypeOf";
    "propertyIsEnumerable"; "toString"; "valueOf"; "__proto__";
    "toLocaleString" ].

Definition inherited (k : string) : bool := bool_decide (k ∈ prototype_keys).

End Js.


(** ** Data model *)

(** A parsed line of the input file: the cells present on the line, by the
    name of their column. A cell missing from a short line reads as
    [undefined]. *)
Abbreviation Row := (gmap string string).

Module Image.
Record t : Type := mk {
  fileName : string;
  cdnLink : option string;   (* [None] is [null] *)
  i : Z;
  alt : option string        (* [None] is [null] *)
}.
End Image.

Module Variant.
Record t : Type := mk {
  id : string;
  available : bool;
  attributes : option string * option string;   (* packaging, description *)
  cost : float;
  currency : string;
  description : option string;
  manufacturerItemCode : option string;
  manufacturerItemId : option string;
  packaging : option string;
  price : float;
  optionName : string;
  optionsPath : string;
  optionItemsPath : string;
  sku : string;
  active : bool;
  images : list Image.t;
  itemCode : option string
}.
End Variant.

Module OptionValue.
Record t : Type := mk {
  id : string;
  name : option string;
  value : option string
}.
End OptionValue.

Module ProductOption.
Record t : Type := mk {
  id : string;
  name : string;
  dataField : option string;   (* always [null] *)
  values : list OptionValue.t
}.
End ProductOption.

Module Info.
Record t : Type := mk {
  transactionId : string;
  skipEvent : bool;
  userRequestId : string
}.
End Info.

(** The value of a field of a product document. *)
Inductive Value : Type :=
  | VUndefined
  | VNull
  | VBool (b : bool)
  | VString (s : string)
  | VVariants (l : list Variant.t)
  | VOptions (l : list ProductOption.t)
  | VImages (l : list Image.t)
  | VInfo (i : Info.t)
  | VEmptyObject.

(** A product document, in memory or stored: its fields in insertion order. *)
Abbreviation Doc := (JsMap.t Value).

(** [doc.k]: a field that is absent reads as [undefined]. *)
Definition field (k : string) (doc : Doc) : Value :=
  default VUndefined (JsMap.get k doc).

(** [!v] *)
Definition falsy (v : Value) : bool :=
  match v with
  | VUndefined | VNull | VBool false => true
  | VString s => bool_decide (s = "")
  | _ => false
  end.

Definition of_string (x : option string) : Value :=
  match x with Some s => VString s | None => VUndefined end.

Module Vendor.
Record t : Type := mk {
  vendorId : string;
  siteSource : option string;
  name : option string
}.
End Vendor.

Module Manufacturer.
Record t : Type := mk {
  manufacturerId : option string;
  name : option string
}.
End Manufacturer.

(** One [updateOne] instruction of a bulk write. [$set] and [$setOnInsert]
    are the object literals of the source: field names with their values. *)
Module BulkOp.
Record t : Type := mk {
  filter_productID : string;
  update_set : list (string * Value);
  update_setOnInsert : option (list (string * Value));
  upsert : bool
}.
End BulkOp.

(** The three collections. A collection is a list of documents in insertion
    order: nothing in its type prevents two documents with the same key. *)
Module Store.
Record t : Type := mk {
  vendors : list Vendor.t;
  manufacturers : list Manufacturer.t;
  products : list Doc
}.
Definition empty : t := mk [] [] [].
End Store.

(** A request sent to the store. *)
Inductive StoreCall : Type :=
  | ProductFind (productIDs : list string)
  | ProductBulkWrite (ops : list BulkOp.t)
  | VendorFindOne (name : option string)
  | VendorSave (vendor : Vendor.t)
  | ManufacturerFindOne (manufacturerId : option string)
  | ManufacturerSave (manufacturer : Manufacturer.t).

Inductive Level : Type := Log | Warn | Error | Console.

(** A thrown [Error] value; the handlers only read its [message]. *)
Module Exn.
Inductive t : Type :=
  | TypeError (message : string)
  | StoreError (message : string)
  | StreamError (message : string).
Definition message (e : t) : string :=
  match e with TypeError m | StoreError m | StreamError m => m end.
End Exn.

(** The service instance and its environment.
    - [vendorCache] and [manufacturerCache] are the two private maps of the
      instance.
    - [entropy] lists the results of the successive calls of [nanoid()];
      [drawn] counts the calls made so far.
    - [faults n] tells whether the store fails the request number [n];
      [journal] records the requests issued, oldest first. *)
Record World : Type := mkWorld {
  store : Store.t;
  vendorCache : JsMap.t string;
  manufacturerCache : JsMap.t string;
  entropy : nat -> string;
  drawn : nat;
  faults : nat -> option string;
  journal : list StoreCall;
  logs : list (Level * string)
}.

(** ** Effects: a state and exception monad over the world *)

Inductive Outcome (A : Type) : Type :=
  | Returned (a : A)
  | Thrown (error : Exn.t).
Arguments Returned {A} a.
Arguments Thrown {A} error.

Definition M (A : Type) : Type := World -> Outcome A * World.

#[global] Instance M_ret : MRet M := fun A a w => (Returned a, w).

#[global] Instance M_bind : MBind M := fun A B f m w =>
  match m w with
  | (Returned a, w') => f a w'
  | (Thrown error, w') => (Thrown error, w')
  end.

Definition throw {A : Type} (error : Exn.t) : M A := fun w => (Thrown error, w).

(** [try { body } catch (error) { handler }] *)
Definition try_catch {A : Type} (body : M A) (handler : Exn.t -> M A) : M A :=
  fun w =>
    match body w with
    | (Returned a, w') => (Returned a, w')
    | (Thrown error, w') => handler error w'
    end.

(** [for (const x of l) { ... }], the results collected in order. *)
Fixpoint forEach {A B : Type} (body : A -> M B) (l : list A) : M (list B) :=
  match l with
  | [] => mret []
  | x :: l' => b ← body x; bs ← forEach body l'; mret (b :: bs)
  end.

(** [l.reduce(body, init)] with a body that has effects. *)
Fixpoint reduce {A B : Type} (body : B -> A -> M B) (l : list A) (init : B) : M B :=
  match l with
  | [] => mret init
  | x :: l' => acc ← body init x; reduce body l' acc
  end.

Definition logged (level : Level) (message : string) (w : World) : World :=
  mkWorld (store w) (vendorCache w) (manufacturerCache w) (entropy w) (drawn w)
    (faults w) (journal w) (logs w ++ [(level, message)]).

Definition log (level : Level) (message : string) : M unit :=
  fun w => (Returned tt, logged level message w).

(** The world after one more call of [nanoid()]. *)
Definition drew (w : World) : World :=
  mkWorld (store w) (vendorCache w) (manufacturerCache w) (entropy w)
    (S (drawn w)) (faults w) (journal w) (logs w).

(** [nanoid()] *)
Definition nanoid : M string :=
  fun w => (Returned (entropy w (drawn w)), drew w).

(** The world after the request [call], which left the collections [s]. *)
Definition issued (call : StoreCall) (s : Store.t) (w : World) : World :=
  mkWorld s (vendorCache w) (manufacturerCache w) (entropy w) (drawn w)
    (faults w) (journal w ++ [call]) (logs w).

(** A round trip to the store: the request is recorded, then it fails if
    the environment says so, and otherwise [perform] reads and writes the
    collections. A failed request leaves the collections as they were. *)
Definition request {A : Type} (call : StoreCall) (perform : Store.t -> A * Store.t)
  : M A :=
  fun w =>
    match faults w (length (journal w)) with
    | Some message => (Thrown (Exn.StoreError message), issued call (store w) w)
    | None => let '(a, s) := perform (store w) in (Returned a, issued call s w)
    end.

(** ** The store operations the service calls *)

Definition has_productID (productID : string) (doc : Doc) : bool :=
  match field "productID" doc with
  | VString p => bool_decide (p = productID)
  | _ => false
  end.

(** [productModel.find({ productID: { $in: productIDs } })] *)
Definition productFind (productIDs : list string) : M (list Doc) :=
  request (ProductFind productIDs) (fun s =>
    (List.filter (fun doc => existsb (fun p => has_productID p doc) productIDs)
       (Store.products s), s)).

(** Assignment of the fields of an object literal to a document. *)
Definition assign (fields : list (string * Value)) (doc : Doc) : Doc :=
  fold_left (fun d kv => JsMap.set kv.1 kv.2 d) fields doc.

(** The document an upsert inserts when nothing matches its filter: the
    equality of the filter, then [$set], then [$setOnInsert]. *)
Definition inserted (op : BulkOp.t) : Doc :=
  assign (default [] (BulkOp.update_setOnInsert op))
    (assign (BulkOp.update_set op)
       [("productID", VString (BulkOp.filter_productID op))]).

(** [updateOne]: the first document matching the filter receives [$set];
    without a match and with [upsert] a document is inserted. *)
Fixpoint updateOne (op : BulkOp.t) (docs : list Doc) : list Doc :=
  match docs with
  | [] => if BulkOp.upsert op then [inserted op] else []
  | doc :: docs' =>
      if has_productID (BulkOp.filter_productID op) doc
      then assign (BulkOp.update_set op) doc :: docs'
      else doc :: updateOne op docs'
  end.

(** The instructions of a bulk write, applied in order. *)
Definition bulkWrite (bulkOps : list BulkOp.t) (docs : list Doc) : list Doc :=
  fold_left (fun docs op => updateOne op docs) bulkOps docs.

(** [productModel.bulkWrite(bulkOps)] *)
Definition productBulkWrite (bulkOps : list BulkOp.t) : M unit :=
  request (ProductBulkWrite bulkOps) (fun s =>
    (tt, Store.mk (Store.vendors s) (Store.manufacturers s)
           (bulkWrite bulkOps (Store.products s)))).

(** [vendorModel.findOne({ name: siteSource }).exec()] *)
Definition vendorFindOne (name : option string) : M (option Vendor.t) :=
  request (VendorFindOne name) (fun s =>
    (List.find (fun v => bool_decide (Vendor.name v = name)) (Store.vendors s), s)).

(** [vendor.save()] of a new document. *)
Definition vendorSave (vendor : Vendor.t) : M unit :=
  request (VendorSave vendor) (fun s =>
    (tt, Store.mk (Store.vendors s ++ [vendor]) (Store.manufacturers s)
           (Store.products s))).

(** [manufacturerModel.findOne({ manufacturerId }).exec()] *)
Definition manufacturerFindOne (manufacturerId : option string)
  : M (option Manufacturer.t) :=
  request (ManufacturerFindOne manufacturerId) (fun s =>
    (List.find (fun m => bool_decide (Manufacturer.manufacturerId m = manufacturerId))
       (Store.manufacturers s), s)).

(** [manufacturer.save()] of a new document. *)
Definition manufacturerSave (manufacturer : Manufacturer.t) : M unit :=
  request (ManufacturerSave manufacturer) (fun s =>
    (tt, Store.mk (Store.vendors s) (Store.manufacturers s ++ [manufacturer])
           (Store.products s))).

(** ** Change detection and the variant merge of [processChunk] *)

(** [a !== b] on numbers. *)
Definition num_neq (a b : float) : bool := negb (PrimFloat.eqb a b).

(** [a !== b] on booleans. *)
Definition bool_neq (a b : bool) : bool := negb (Bool.eqb a b).

(** [a !== b] on values that are a string or [undefined]. *)
Definition str_neq (a b : option string) : bool := negb (bool_decide (a = b)).

Definition isVariantUpdated (existingVariant updatedVariant : Variant.t) : bool :=
  let priceChanged :=
    num_neq (Variant.price existingVariant) (Variant.price updatedVariant) in
  let availabilityChanged :=
    bool_neq (Variant.available existingVariant) (Variant.available updatedVariant) in
  let descriptionChanged :=
    str_neq (Variant.description existingVariant) (Variant.description updatedVariant) in
  priceChanged || availabilityChanged || descriptionChanged.

(** Body of [existingVariants.forEach]: the stored variant under its sku. *)
Definition indexVariant (variantMap : JsMap.t Variant.t) (variant : Variant.t)
  : JsMap.t Variant.t :=
  JsMap.set (Variant.sku variant) variant variantMap.

(** Body of [variants.forEach]; [has] and [get] read the same entry. *)
Definition mergeVariant (variantMap : JsMap.t Variant.t) (variant : Variant.t)
  : JsMap.t Variant.t :=
  match JsMap.get (Variant.sku variant) variantMap with
  | Some existingVariant =>
      if isVariantUpdated existingVariant variant
      then JsMap.set (Variant.sku variant) variant variantMap
      else variantMap
  | None => JsMap.set (Variant.sku variant) variant variantMap
  end.

(** Lines 194-210: the variant list written back to an existing product. *)
Definition mergeVariants (existingVariants variants : list Variant.t)
  : list Variant.t :=
  let variantMap := fold_left indexVariant existingVariants JsMap.empty in
  let variantMap := fold_left mergeVariant variants variantMap in
  JsMap.values variantMap.

(** ** The service *)

(** A group of [groupedData]: the first row seen for the product and the
    variants built from its rows. *)
Module Group.
Record t : Type := mk {
  row : Row;
  variants : list Variant.t
}.
End Group.

Definition chunkSize : nat := 1000.

(** The fields of a product the update writes with [$set], in the order of
    the object literal. *)
Definition setFields : list string :=
  [ "productID"; "name"; "description"; "vendorId"; "manufacturerId";
    "storefrontPriceVisibility"; "variants"; "options"; "availability";
    "isFragile"; "published"; "isTaxable"; "images"; "categoryId";
    "dataPublic"; "immutable"; "deploymentId"; "docType"; "namespace";
    "companyId"; "status"; "info" ].

Definition parseImages (row : Row) : list Image.t :=
  [ Image.mk (Js.or_else (row !! "ImageFileName") "")
      (Js.or_null (row !! "ItemImageURL")) 0
      (Js.or_null (row !! "ItemDescription")) ].

(** [!isNaN(parsed) && parsed > 0] on the result of [parseInt]. *)
Definition parseBoolean (value : option string) : bool :=
  let parsed := Js.parseInt value in
  match parsed with
  | Some n => (0 <? n)%Z
  | None => false
  end.

Definition generateOptions (row : Row) : M (list ProductOption.t) :=
  packagingId ← nanoid;
  packagingValueId ← nanoid;
  descriptionId ← nanoid;
  descriptionValueId ← nanoid;
  mret
    [ ProductOption.mk packagingId "packaging" None
        [ OptionValue.mk packagingValueId (row !! "PKG") (row !! "PKG") ];
      ProductOption.mk descriptionId "description" None
        [ OptionValue.mk descriptionValueId (row !! "ItemDescription")
            (row !! "ItemDescription") ] ].

(** The [try]/[catch] of [enhanceDescription] around an attempt to produce
    a description: a failure of the attempt is logged and answered with the
    description received. *)
Definition guardedEnhancement (attempt : M string) (description : string) : M string :=
  try_catch attempt
    (fun error =>
       log Error ("Error enhancing description: " +:+ Exn.message error);;
       mret description).

(** The call of the text service is commented out in the source: the body
    of the [try] only returns its argument. *)
Definition enhanceDescription (name : Value) (description : string) : M string :=
  guardedEnhancement (mret description) description.

Definition checkVendor (siteSource : option string) : M string :=
  vendor ← vendorFindOne siteSource;
  match vendor with
  | Some vendor => mret (Vendor.vendorId vendor)
  | None =>
      vendorId ← nanoid;
      let vendor := Vendor.mk vendorId siteSource siteSource in
      vendorSave vendor;;
      mret (Vendor.vendorId vendor)
  end.

Definition ensureManufacturer (manufacturerId manufacturerName : option string)
  : M (option string) :=
  manufacturer ← manufacturerFindOne manufacturerId;
  match manufacturer with
  | Some manufacturer => mret (Manufacturer.manufacturerId manufacturer)
  | None =>
      let manufacturer := Manufacturer.mk manufacturerId manufacturerName in
      manufacturerSave manufacturer;;
      mret (Manufacturer.manufacturerId manufacturer)
  end.

(** [existingProduct.variants || []] followed by [forEach]: a stored list,
    nothing for a falsy value, and a type error for any other value. *)
Definition storedVariants (doc : Doc) : M (list Variant.t) :=
  match field "variants" doc with
  | VVariants l => mret l
  | v =>
      if falsy v then mret []
      else throw (Exn.TypeError "existingVariants.forEach is not a function")
  end.

Section Service.

(** [parseFloat] of the JavaScript runtime, on a string or [undefined]. *)
Variable parseFloat : option string -> float.

Definition parseNumber (value : option string) : float :=
  let parsed := parseFloat value in
  if PrimFloat.is_nan parsed then 0%float else parsed.

Definition constructVariant (row : Row) : M Variant.t :=
  variantId ← nanoid;
  let isAvailable := parseBoolean (row !! "QuantityOnHand") in
  let price := parseNumber (row !! "UnitPrice") in
  let description := row !! "ItemDescription" in
  let packaging := row !! "PKG" in
  let manufacturerItemCode := row !! "ManufacturerItemCode" in
  let manufacturerItemId := row !! "ItemID" in
  let sku :=
    Js.to_string manufacturerItemId +:+ Js.to_string manufacturerItemCode
      +:+ Js.to_string packaging in
  let optionName := Js.to_string packaging +:+ ", " +:+ Js.to_string description in
  optionsPath ← nanoid;
  optionItemsPath ← nanoid;
  mret
    {| Variant.id := variantId;
       Variant.available := isAvailable;
       Variant.attributes := (packaging, description);
       Variant.cost := price;
       Variant.currency := "EUR";
       Variant.description := description;
       Variant.manufacturerItemCode := manufacturerItemCode;
       Variant.manufacturerItemId := manufacturerItemId;
       Variant.packaging := packaging;
       Variant.price := price;
       Variant.optionName := optionName;
       Variant.optionsPath := optionsPath;
       Variant.optionItemsPath := optionItemsPath;
       Variant.sku := sku;
       Variant.active := true;
       Variant.images := parseImages row;
       Variant.itemCode := row !! "NDCItemCode" |}.

(** The callback of [chunk.reduce] (lines 136-156). [accumulator] is an
    object literal: a [productID] that names a property inherited from
    [Object.prototype] reads as truthy, no group is created for it, and
    [accumulator[productID].variants] is [undefined]. *)
Definition groupRow (accumulator : JsMap.t Group.t) (currentItem : Row)
  : M (JsMap.t Group.t) :=
  let productID := currentItem !! "ProductID" in
  let itemId := currentItem !! "ItemID" in
  if Js.falsy productID || Js.falsy itemId then
    log Warn "Missing ProductID or ItemID in row, skipping.";;
    mret accumulator
  else
    let key := Js.to_string productID in
    let accumulator :=
      if JsMap.has key accumulator || Js.inherited key then accumulator
      else JsMap.set key (Group.mk currentItem []) accumulator in
    variant ← constructVariant currentItem;
    match JsMap.get key accumulator with
    | Some group =>
        mret (JsMap.set key
                (Group.mk (Group.row group) (Group.variants group ++ [variant]))
                accumulator)
    | None =>
        throw (Exn.TypeError "Cannot read properties of undefined (reading 'push')")
    end.

(** The document of a product that is not stored yet (lines 214-250). *)
Definition newProduct (productID : string) (row : Row) (variants : list Variant.t)
    (vendorId : string) (manufacturerId : option string) : M Doc :=
  docId ← nanoid;
  options ← generateOptions row;
  transactionId ← nanoid;
  userRequestId ← nanoid;
  let description := Js.or_else (row !! "ProductDescription") "" in
  let productDoc : Doc :=
    [ ("docId", VString docId);
      ("productID", VString productID);
      ("name", of_string (row !! "ProductName"));
      ("description", VString description);
      ("vendorId", VString vendorId);
      ("manufacturerId", of_string manufacturerId);
      ("storefrontPriceVisibility", VString "members-only");
      ("variants", VVariants variants);
      ("options", VOptions options);
      ("availability", VString (Js.or_else (row !! "Availability") "available"));
      ("isFragile", VBool false);
      ("published", VString "published");
      ("isTaxable", VBool true);
      ("images", VImages (parseImages row));
      ("categoryId", VString "U8YOybu1vbgQdbhSkrpmAYIV");
      ("dataPublic", VEmptyObject);
      ("immutable", VBool false);
      ("deploymentId", VString "d8039");
      ("docType", VString "item");
      ("namespace", VString "items");
      ("companyId", VString "2yTnVUyG6H9yRX3K1qIFIiRz");
      ("status", VString "active");
      ("info", VInfo (Info.mk transactionId false userRequestId)) ] in
  if bool_decide (description = "") || Js.trim_is_empty description then
    enhancedDescription ← enhanceDescription (field "name" productDoc) description;
    mret (JsMap.set "description" (VString enhancedDescription) productDoc)
  else mret productDoc.

(** The update of a stored product in memory (lines 184-212). *)
Definition updatedProduct (existingProduct : Doc) (row : Row)
    (variants : list Variant.t) (vendorId : string) (manufacturerId : option string)
  : M Doc :=
  let existingProduct := JsMap.set "name" (of_string (row !! "ProductName")) existingProduct in
  let existingProduct :=
    JsMap.set "description" (VString (Js.or_else (row !! "ProductDescription") ""))
      existingProduct in
  let existingProduct := JsMap.set "vendorId" (VString vendorId) existingProduct in
  let existingProduct := JsMap.set "manufacturerId" (of_string manufacturerId) existingProduct in
  let existingProduct :=
    JsMap.set "availability" (VString (Js.or_else (row !! "Availability") "available"))
      existingProduct in
  let existingProduct := JsMap.set "images" (VImages (parseImages row)) existingProduct in
  existingVariants ← storedVariants existingProduct;
  mret (JsMap.set "variants" (VVariants (mergeVariants existingVariants variants))
          existingProduct).

(** One turn of the loop over [productIDs] (lines 171-298): the upsert
    instruction pushed on [bulkOps]. *)
Definition processGroup (groupedData : JsMap.t Group.t)
    (existingProductsMap : JsMap.t Doc) (productID : string) : M BulkOp.t :=
  match JsMap.get productID groupedData with
  | None => throw (Exn.TypeError "Cannot read properties of undefined (reading 'row')")
  | Some group =>
      let row := Group.row group in
      let variants := Group.variants group in
      log Console ("row['SiteSource'] " +:+ Js.to_string (row !! "SiteSource"));;
      vendorId ← checkVendor (row !! "SiteSource");
      manufacturerId ← ensureManufacturer (row !! "ManufacturerID") (row !! "ManufacturerName");
      productDoc ←
        match JsMap.get productID existingProductsMap with
        | Some existingProduct =>
            updatedProduct existingProduct row variants vendorId manufacturerId
        | None => newProduct productID row variants vendorId manufacturerId
        end;
      productDoc ←
        (if falsy (field "docId" productDoc) then
           log Error ("Product with ProductID " +:+ productID +:+ " has null docId");;
           docId ← nanoid;
           mret (JsMap.set "docId" (VString docId) productDoc)
         else mret productDoc);
      let updateSet := (fun k => (k, field k productDoc)) <$> setFields in
      updateSetOnInsert ←
        (if negb (JsMap.has productID existingProductsMap) then
           docId ←
             (if falsy (field "docId" productDoc) then
                docId ← nanoid; mret (VString docId)
              else mret (field "docId" productDoc));
           mret (Some [("docId", docId)])
         else mret None);
      mret (BulkOp.mk productID updateSet updateSetOnInsert true)
  end.

(** Body of [existingProducts.forEach] (line 166). *)
Definition indexProduct (existingProductsMap : JsMap.t Doc) (product : Doc)
  : JsMap.t Doc :=
  match field "productID" product with
  | VString productID => JsMap.set productID product existingProductsMap
  | _ => existingProductsMap
  end.

Definition processChunk (chunk : list Row) : M unit :=
  groupedData ← reduce groupRow chunk JsMap.empty;
  let productIDs := Js.ownKeys (JsMap.keys groupedData) in
  existingProducts ← productFind productIDs;
  let existingProductsMap := fold_left indexProduct existingProducts JsMap.empty in
  bulkOps ← forEach (processGroup groupedData existingProductsMap) productIDs;
  if (0 <? length bulkOps)%nat then
    try_catch (productBulkWrite bulkOps)
      (fun error => log Error "Error on bulk insertion";; throw error)
  else mret tt.

(** ** The driver: [importProducts] as the handlers of the stream events *)

Inductive StreamEvent : Type :=
  | Data (row : Row)
  | End_
  | Failure (error : Exn.t).

Inductive Promise : Type :=
  | Pending
  | Resolved
  | Rejected (error : Exn.t).

(** [resolve] and [reject] settle a promise once; later calls do nothing. *)
Definition settle (outcome promise : Promise) : Promise :=
  match promise with
  | Pending => outcome
  | _ => promise
  end.

(** The variables the three handlers close over. *)
Record Run : Type := mkRun {
  chunk : list Row;
  promise : Promise
}.

(** The [data] handler (lines 99-113), run to its end. While it awaits
    [processChunk] the stream is paused, which holds back the rows that
    follow; [chunk] is emptied after the await. *)
Definition onData (run : Run) (row : Row) : M Run :=
  let chunk := chunk run ++ [row] in
  if (chunkSize <=? length chunk)%nat then
    try_catch (processChunk chunk)
      (fun error => log Error ("Error processing chunk: " +:+ Exn.message error));;
    mret (mkRun [] (promise run))
  else mret (mkRun chunk (promise run)).

Definition onEnd (run : Run) : M Run :=
  (if (0 <? length (chunk run))%nat then
     try_catch (processChunk (chunk run))
       (fun error => log Error ("Error processing final chunk: " +:+ Exn.message error))
   else mret tt);;
  log Log "Product import completed";;
  mret (mkRun (chunk run) (settle Resolved (promise run))).

Definition onError (run : Run) (error : Exn.t) : M Run :=
  log Error ("Error reading CSV file: " +:+ Exn.message error);;
  mret (mkRun (chunk run) (settle (Rejected error) (promise run))).

Definition handle (run : Run) (event : StreamEvent) : M Run :=
  match event with
  | Data row => onData run row
  | End_ => onEnd run
  | Failure error => onError run error
  end.

(** [importProducts()] against the events the parser stream emits: the
    state of the returned promise once they are all handled. The handlers
    run one after the other, each to its end. The stream does not await
    its handlers: this is the run of the code as long as no event arrives
    while a handler awaits [processChunk], which [pause] ensures for the
    [data] events and nothing ensures for the [end] event (see
    [ends_between_chunks] below). *)
Definition importProducts (events : list StreamEvent) : M Promise :=
  log Log "Starting product import";;
  run ← reduce handle events (mkRun [] Pending);
  mret (promise run).

End Service.

(** ** The file behind the parser *)

(** What the read stream of the file does, as far as the parser it is
    piped into is concerned: it delivers the line of a row, it ends, or it
    fails. *)
Inductive FileEvent : Type :=
  | Line (row : Row)
  | EndOfFile
  | ReadFailure (error : Exn.t).

(** The events of the stream the three handlers are registered on (lines
    91-98): [createReadStream(...).pipe(csvParser(...))] is the parser, not
    the read stream of the file. [pipe] hands the parser the lines and the
    end of the file. It forwards no error: a failure of the read stream is
    an [error] event of the read stream, on which the service registers no
    handler, and nothing reaches the parser after it. *)
Fixpoint piped (file : list FileEvent) : list StreamEvent :=
  match file with
  | [] => []
  | Line row :: file' => Data row :: piped file'
  | EndOfFile :: _ => [End_]
  | ReadFailure _ :: _ => []
  end.

(** * Sample data for the examples *)

Module Sample.

(** [parseFloat] on the prices the examples use; NaN on any other input. *)
Definition parseFloat (value : option string) : float :=
  match value with
  | Some "5.50" => 5.5%float
  | Some "10" => 10%float
  | Some "12" => 12%float
  | _ => nan
  end.

(** An identifier generator that never repeats itself. *)
Definition entropy (n : nat) : string := "id" +:+ pretty n.

(** A service instance with empty caches over a store, with a store that
    fails no request. *)
Definition world (s : Store.t) : World :=
  mkWorld s [] [] entropy 0 (fun _ => None) [] [].

Definition row (cells : list (string * string)) : Row := list_to_map cells.

(** A variant of sku [A] with description [x], in stock. *)
Definition variantA (id : string) (price : float) : Variant.t :=
  {| Variant.id := id;
     Variant.available := true;
     Variant.attributes := (Some "Box", Some "x");
     Variant.cost := price;
     Variant.currency := "EUR";
     Variant.description := Some "x";
     Variant.manufacturerItemCode := Some "C";
     Variant.manufacturerItemId := Some "I";
     Variant.packaging := Some "Box";
     Variant.price := price;
     Variant.optionName := "Box, x";
     Variant.optionsPath := id +:+ "-path";
     Variant.optionItemsPath := id +:+ "-items";
     Variant.sku := "A";
     Variant.active := true;
     Variant.images := [];
     Variant.itemCode := None |}.

Definition gauze (price : string) : Row :=
  row
    [ ("SiteSource", "AcmeMed"); ("ItemID", "I1"); ("ManufacturerID", "M1");
      ("ManufacturerName", "Acme"); ("ProductID", "P1"); ("ProductName", "Gauze");
      ("ManufacturerItemCode", "C1"); ("ItemDescription", "Sterile 4x4");
      ("PKG", "Box10"); ("UnitPrice", price); ("QuantityOnHand", "3");
      ("Availability", "available") ].

Definition tape : Row :=
  row
    [ ("SiteSource", "AcmeMed"); ("ItemID", "I2"); ("ManufacturerID", "M1");
      ("ManufacturerName", "Acme"); ("ProductID", "P2"); ("ProductName", "Tape");
      ("ManufacturerItemCode", "C2"); ("ItemDescription", "Paper tape");
      ("PKG", "Roll"); ("UnitPrice", "10"); ("QuantityOnHand", "0") ].

(** The world a run over a file that delivers [rows] leaves. *)
Definition after (rows : list Row) (w : World) : World :=
  (importProducts parseFloat ((Data <$> rows) ++ [End_]) w).2.

(** The identifier, sku and price of the variants of every product. *)
Definition variants (w : World) : list (list (string * string * float)) :=
  (fun doc =>
     match field "variants" doc with
     | VVariants l => (fun v => (Variant.id v, Variant.sku v, Variant.price v)) <$> l
     | _ => []
     end) <$> Store.products (store w).

(** A store with one product that has lost its document id. *)
Definition without_docId : Store.t :=
  Store.mk [] [] [[("productID", VString "P1"); ("name", VString "Gauze")]].

(** A store with two products of one product id. *)
Definition two_of_P1 : Store.t :=
  Store.mk [] []
    [ [("docId", VString "d1"); ("productID", VString "P1")];
      [("docId", VString "d2"); ("productID", VString "P1")] ].

(** A store with one product whose [variants] is not a list. *)
Definition unreadable_P2 : Store.t :=
  Store.mk [] []
    [ [("docId", VString "d2"); ("productID", VString "P2"); ("variants", VString "lost")] ].

(** A service instance over a store that fails the first request it
    receives, and no other. *)
Definition failing_once (s : Store.t) : World :=
  mkWorld s [] [] entropy 0
    (fun n => if decide (n = 0) then Some "store down" else None) [] [].

(** A variant like [variantA] under another sku. *)
Definition variantOf (sku id : string) (price : float) : Variant.t :=
  {| Variant.id := id;
     Variant.available := true;
     Variant.attributes := (Some "Box", Some "x");
     Variant.cost := price;
     Variant.currency := "EUR";
     Variant.description := Some "x";
     Variant.manufacturerItemCode := Some "C";
     Variant.manufacturerItemId := Some "I";
     Variant.packaging := Some "Box";
     Variant.price := price;
     Variant.optionName := "Box, x";
     Variant.optionsPath := id +:+ "-path";
     Variant.optionItemsPath := id +:+ "-items";
     Variant.sku := sku;
     Variant.active := true;
     Variant.images := [];
     Variant.itemCode := None |}.

(** A row with a given text in the [QuantityOnHand] column. *)
Definition counted (quantity : string) : Row :=
  row [ ("ProductID", "P1"); ("ItemID", "I1"); ("QuantityOnHand", quantity) ].

(** The availability of the variant built from a row. *)
Definition availability (row : Row) : option bool :=
  match (constructVariant parseFloat row (world (Store.mk [] [] []))).1 with
  | Returned v => Some (Variant.available v)
  | Thrown _ => None
  end.

End Sample.

(** * Specification level notions *)

(** The first variant of a list with a given sku. *)
Definition lookup_sku (s : string) (l : list Variant.t) : option Variant.t :=
  List.find (fun v => bool_decide (Variant.sku v = s)) l.

(** The price, the availability or the description of [v] is not the one of
    [p]. Prices are compared as numbers of JavaScript: NaN differs from
    every number, itself included, and the two zeros are the same price. *)
Definition differs (p v : Variant.t) : Prop :=
  PrimFloat.eqb (Variant.price p) (Variant.price v) = false \/
  Variant.available p <> Variant.available v \/
  Variant.description p <> Variant.description v.

#[global] Instance differs_dec (p v : Variant.t) : Decision (differs p v).
Proof. unfold differs. apply _. Defined.

(** The union by sku of [prior] and [incoming], as the specification words
    it: [merged] has one variant per sku, each a prior or an incoming one;
    a prior variant whose sku does not come in is kept; an incoming variant
    whose sku is new is present; and where an incoming variant [v] has the
    sku of a prior variant [p], the variant of that sku is [v] when price,
    availability or description differ, and is [p] itself, with every field
    it had, when none of the three differs. *)
Definition union_by_sku (prior incoming merged : list Variant.t) : Prop :=
  NoDup (Variant.sku <$> merged) /\
  (forall m, m ∈ merged -> m ∈ prior \/ m ∈ incoming) /\
  (forall p, p ∈ prior -> Variant.sku p ∉ Variant.sku <$> incoming -> p ∈ merged) /\
  (forall v, v ∈ incoming -> Variant.sku v ∉ Variant.sku <$> prior -> v ∈ merged) /\
  (forall p v, p ∈ prior -> v ∈ incoming -> Variant.sku p = Variant.sku v ->
     (differs p v -> v ∈ merged) /\ (~ differs p v -> p ∈ merged)).

(** What stands at the position of the prior variant [p] once [incoming] is
    merged: the incoming variant of its sku when there is one that differs
    from [p], and [p] otherwise. *)
Definition replaced (incoming : list Variant.t) (p : Variant.t) : Variant.t :=
  match lookup_sku (Variant.sku p) incoming with
  | Some v => if decide (differs p v) then v else p
  | None => p
  end.

(** The order of the merged list, as the specification words it: the prior
    variants first, each at its position and replaced there when it is
    replaced, then the incoming variants of a new sku, in the order of
    their rows. *)
Definition prior_then_new (prior incoming merged : list Variant.t) : Prop :=
  merged =
    (replaced incoming <$> prior) ++
    filter (fun v => Variant.sku v ∉ Variant.sku <$> prior) incoming.

(** The distinct elements of a list, each at its first occurrence. *)
Fixpoint distinct (l : list string) : list string :=
  match l with
  | [] => []
  | x :: l' => x :: filter (fun y => y ≠ x) (distinct l')
  end.

(** ** Decimal numerals *)

(** The character of the decimal digit [d]: ['0'] has code 48. *)
Definition digit_char (d : nat) : ascii := ascii_of_nat (48 + d).

(** The text of a numeral, given by its digits from the most significant
    one; leading zeros are allowed. *)
Fixpoint numeral (ds : list nat) : string :=
  match ds with
  | [] => ""
  | d :: ds' => String (digit_char d) (numeral ds')
  end.

(** The number a numeral denotes, by the weight of each position. *)
Fixpoint numeral_value (ds : list nat) : Z :=
  match ds with
  | [] => 0
  | d :: ds' => Z.of_nat d * 10 ^ Z.of_nat (length ds') + numeral_value ds'
  end.

Definition is_digit_char (c : ascii) : bool :=
  bool_decide (48 <= nat_of_ascii c <= 57).

Definition starts_with_digit (s : string) : bool :=
  match s with
  | String c _ => is_digit_char c
  | EmptyString => false
  end.

(** A text made of white space only. *)
Fixpoint blank (s : string) : bool :=
  match s with
  | String c s' => Js.is_space c && blank s'
  | EmptyString => true
  end.

(** The text [s] starts with a positive integer: after white space and an
    optional plus sign come the digits [ds] of a number greater than zero,
    and then anything that is not one more digit. *)
Definition starts_with_positive_integer (s : string) : Prop :=
  exists ws plus ds rest,
    s = ws +:+ plus +:+ numeral ds +:+ rest /\
    blank ws = true /\ (plus = "" \/ plus = "+") /\
    Forall (fun d => d < 10) ds /\ starts_with_digit rest = false /\
    (0 < numeral_value ds)%Z.

(** A text made of decimal digits only. *)
Fixpoint all_digits (s : string) : bool :=
  match s with
  | String c s' => is_digit_char c && all_digits s'
  | EmptyString => true
  end.

(** The text [s] is an integer: a sign or none, then one digit or more,
    and nothing else. *)
Definition integer_text (s : string) : bool :=
  let unsigned (r : string) := bool_decide (r ≠ "") && all_digits r in
  match s with
  | String "-" r | String "+" r => unsigned r
  | _ => unsigned s
  end.

(** The promise after a sequence of stream events: the first [end] or
    [error] event settles it. *)
Definition settled (events : list StreamEvent) : Promise :=
  fold_left
    (fun promise event =>
       match event with
       | Data _ => promise
       | End_ => settle Resolved promise
       | Failure error => settle (Rejected error) promise
       end)
    events Pending.

(** One attempt at a chunk, as the two handlers make it: the chunk is
    processed, and a failure is turned into one line of the error log. *)
Definition attempt (parseFloat : option string -> float) (context : string)
    (rows : list Row) (w : World) : World :=
  match processChunk parseFloat rows w with
  | (Returned _, w') => w'
  | (Thrown error, w') => logged Error (context +:+ Exn.message error) w'
  end.

(** ** Invariants of the pipeline *)

(** A variant as [constructVariant] builds them. *)
Definition conforming (v : Variant.t) : Prop :=
  Variant.currency v = "EUR" /\ Variant.active v = true.

(** The variant list a product document holds. *)
Definition variants_of (doc : Doc) : list Variant.t :=
  match field "variants" doc with
  | VVariants l => l
  | _ => []
  end.

Definition store_conforming (s : Store.t) : Prop :=
  forall doc, doc ∈ Store.products s -> Forall conforming (variants_of doc).

(** Every document of [before] is still at its position in [after], with
    the document id and the product id it had. *)
Definition docIds_kept (before after : list Doc) : Prop :=
  forall i doc, before !! i = Some doc ->
    exists doc', after !! i = Some doc' /\
      field "docId" doc' = field "docId" doc /\
      field "productID" doc' = field "productID" doc.

(** The document id is not among the fields an instruction sets, and the
    insert-only part, when there is one, holds the document id alone. *)
Definition docId_insert_only (op : BulkOp.t) : Prop :=
  ("docId" ∉ (BulkOp.update_set op).*1) /\
  (forall fields, BulkOp.update_setOnInsert op = Some fields -> fields.*1 = ["docId"]).

(** An update writes as product id the one its filter selects. *)
Definition keeps_productID (op : BulkOp.t) : Prop :=
  forall v, ("productID", v) ∈ BulkOp.update_set op ->
    v = VString (BulkOp.filter_productID op).

(** The variant lists an update writes are made of conforming variants. *)
Definition op_conforming (op : BulkOp.t) : Prop :=
  forall l, ("variants", VVariants l) ∈ BulkOp.update_set op -> Forall conforming l.

(** The world [w] was reached from [w0] by steps of the service. *)
Record within (w0 w : World) : Prop := mkWithin {
  within_faults : faults w = faults w0;
  within_entropy : entropy w = entropy w0;
  within_vendorCache : vendorCache w = vendorCache w0;
  within_manufacturerCache : manufacturerCache w = manufacturerCache w0;
  within_docIds :
    docIds_kept (Store.products (store w0)) (Store.products (store w));
  within_conforming : store_conforming (store w0) -> store_conforming (store w);
  within_journal :
    exists calls, journal w = journal w0 ++ calls /\
      forall ops, ProductBulkWrite ops ∈ calls -> Forall docId_insert_only ops
}.

(** The variants of every group are conforming. *)
Definition groups_conforming (G : JsMap.t Group.t) : Prop :=
  forall k g, JsMap.get k G = Some g -> Forall conforming (Group.variants g).

(** The variants of every stored product satisfy [Q]. *)
Definition variants_all (Q : Variant.t -> Prop) (s : Store.t) : Prop :=
  forall doc, doc ∈ Store.products s -> Forall Q (variants_of doc).

(** A variant that a product of the store holds. *)
Definition stored_variant (s : Store.t) (v : Variant.t) : Prop :=
  exists doc, doc ∈ Store.products s /\ v ∈ variants_of doc.

(** The variant lists an update writes are made of variants satisfying [Q],
    and the insert-only part writes no variant list. *)
Definition op_all (Q : Variant.t -> Prop) (op : BulkOp.t) : Prop :=
  (forall l, ("variants", VVariants l) ∈ BulkOp.update_set op -> Forall Q l) /\
  "variants" ∉ (default [] (BulkOp.update_setOnInsert op)).*1.

(** * A program logic for the world monad *)

(** [hoare P c Q E]: from a world satisfying [P], the computation [c]
    either returns a value [a] in a world satisfying [Q a], or throws in a
    world satisfying [E]. The computation always terminates: it is a
    function. *)
Definition hoare {A : Type} (P : World -> Prop) (c : M A)
    (Q : A -> World -> Prop) (E : World -> Prop) : Prop :=
  forall w, P w ->
    match c w with
    | (Returned a, w') => Q a w'
    | (Thrown _, w') => E w'
    end.

(** * Notions for the repetition of a run *)

(** ** Rows, groups and stores *)

(** A row the grouping keeps: it has a product id and an item id. *)
Definition valid (row : Row) : bool :=
  negb (Js.falsy (row !! "ProductID") || Js.falsy (row !! "ItemID")).

Definition productID_of (row : Row) : string := Js.to_string (row !! "ProductID").

Definition sku_of (row : Row) : string :=
  Js.to_string (row !! "ItemID") +:+ Js.to_string (row !! "ManufacturerItemCode")
    +:+ Js.to_string (row !! "PKG").

(** The rows of a chunk that the grouping files under a product id. *)
Definition rows_of (productID : string) (chunk : list Row) : list Row :=
  filter (fun row => valid row = true /\ productID_of row = productID) chunk.

(** A chunk whose grouping throws: one of its rows is filed under the name
    of a property of [Object.prototype]. *)
Definition crashing (chunk : list Row) : Prop :=
  Exists (fun row => valid row = true /\ Js.inherited (productID_of row) = true) chunk.

(** The store fails no request. *)
Definition reliable (w : World) : Prop := forall n, faults w n = None.

(** The product id a document is stored under. *)
Definition productID_in (doc : Doc) : option string :=
  match field "productID" doc with
  | VString p => Some p
  | _ => None
  end.

(** The stored product with a given product id. *)
Definition stored (productID : string) (docs : list Doc) : option Doc :=
  List.find (has_productID productID) docs.

(** The [variants] field can be read back: it is a list or falsy. *)
Definition variants_readable (doc : Doc) : Prop :=
  match field "variants" doc with
  | VVariants _ => True
  | v => falsy v = true
  end.

#[global] Instance variants_readable_dec (doc : Doc) : Decision (variants_readable doc).
Proof. unfold variants_readable. destruct (field "variants" doc); apply _. Defined.

(** No two vendors of one name, no two manufacturers of one id, no two
    products of one product id, no two variants of one sku in a product. *)
Definition no_duplicates (s : Store.t) : Prop :=
  NoDup (Vendor.name <$> Store.vendors s) /\
  NoDup (Manufacturer.manufacturerId <$> Store.manufacturers s) /\
  NoDup (omap productID_in (Store.products s)) /\
  (forall doc, doc ∈ Store.products s -> NoDup (Variant.sku <$> variants_of doc)).

(** A store as the schemas of the collections allow it: no duplicates,
    documents whose fields have one value each and whose variants can be
    read back. *)
Definition well_formed (s : Store.t) : Prop :=
  no_duplicates s /\
  (forall doc, doc ∈ Store.products s ->
     NoDup (JsMap.keys doc) /\ variants_readable doc).

(** No two products of one product id. *)
Definition distinct_products (s : Store.t) : Prop :=
  NoDup (omap productID_in (Store.products s)).

(** The product ids of the groups of a chunk, in the order in which the
    loop of [processChunk] takes them (lines 158 and 171): the keys of
    [groupedData], each at the place of its first row, as [Object.keys]
    lists them. *)
Definition group_ids (chunk : list Row) : list string :=
  Js.ownKeys (distinct (productID_of <$> filter (fun row => valid row = true) chunk)).

(** The product stored under a product id has a [variants] field that
    cannot be read back: its update throws (line 194). *)
Definition unreadable (products : list Doc) (productID : string) : bool :=
  match stored productID products with
  | Some doc => bool_decide (~ variants_readable doc)
  | None => false
  end.

(** A chunk that fails in the loop over its groups, at a stored product
    that cannot be updated. *)
Definition stuck (products : list Doc) (chunk : list Row) : bool :=
  existsb (unreadable products) (group_ids chunk).

(** The product ids the loop reaches: all of them, or those up to the
    first, included, whose stored product cannot be updated. *)
Fixpoint reached (products : list Doc) (productIDs : list string) : list string :=
  match productIDs with
  | [] => []
  | productID :: productIDs' =>
      if unreadable products productID then [productID]
      else productID :: reached products productIDs'
  end.

(** The id of the vendor of a name. *)
Definition vendorId_for (name : option string) (vendors : list Vendor.t) : string :=
  match List.find (fun v => bool_decide (Vendor.name v = name)) vendors with
  | Some v => Vendor.vendorId v
  | None => ""
  end.

(** The fields of a stored product that an update takes from the
    representative row of its group. *)
Definition rowFields (row : Row) (vendorId : string) : list (string * Value) :=
  [ ("name", of_string (row !! "ProductName"));
    ("description", VString (Js.or_else (row !! "ProductDescription") ""));
    ("vendorId", VString vendorId);
    ("manufacturerId", of_string (row !! "ManufacturerID"));
    ("availability", VString (Js.or_else (row !! "Availability") "available"));
    ("images", VImages (parseImages row)) ].

(** The names of the fields taken from the representative row. *)
Definition rowKeys : list string :=
  [ "name"; "description"; "vendorId"; "manufacturerId"; "availability"; "images" ].

(** The [$set] of an update, read off the in-memory document. *)
Definition fields_of (doc : Doc) : list (string * Value) :=
  (fun k => (k, field k doc)) <$> setFields.

(** The document [m] with, under the first occurrence of every key, the
    value [f] gives for the key, when it gives one. *)
Fixpoint overwrite (f : string -> option Value) (m : Doc) : Doc :=
  match m with
  | [] => []
  | (k, v) :: m' =>
      (k, default v (f k)) :: overwrite (fun k' => if decide (k' = k) then None else f k') m'
  end.

(** What a chunk does to a stored product when it brings nothing new: the
    fields taken from the representative row are written again. *)
Definition refreshed (chunk : list Row) (vendors : list Vendor.t) (doc : Doc) : Doc :=
  match productID_in doc with
  | Some productID =>
      match rows_of productID chunk with
      | row :: _ =>
          if decide (crashing chunk) then doc
          else assign (rowFields row (vendorId_for (row !! "SiteSource") vendors)) doc
      | [] => doc
      end
  | None => doc
  end.

(** The store after a chunk that brings nothing new. *)
Definition refreshed_store (chunk : list Row) (s : Store.t) : Store.t :=
  Store.mk (Store.vendors s) (Store.manufacturers s)
    (refreshed chunk (Store.vendors s) <$> Store.products s).

(** All a list of chunks does to a stored product when none of them brings
    anything new. *)
Definition replay (chunks : list (list Row)) (vendors : list Vendor.t) (doc : Doc) : Doc :=
  fold_left (fun d chunk => refreshed chunk vendors d) chunks doc.

(** One instruction on one document. *)
Definition patch1 (op : BulkOp.t) (doc : Doc) : Doc :=
  if has_productID (BulkOp.filter_productID op) doc
  then assign (BulkOp.update_set op) doc else doc.

(** The instructions of a bulk write on one document. *)
Definition patch (ops : list BulkOp.t) (doc : Doc) : Doc :=
  fold_left (fun d op => patch1 op d) ops doc.

(** The vendors after the resolution of a name: the vendors before it,
    with a vendor of that name appended when there was none. *)
Definition vendors_resolved (name : option string) (V V' : list Vendor.t) : Prop :=
  (name ∈ Vendor.name <$> V /\ V' = V) \/
  ((name ∉ Vendor.name <$> V) /\ exists id, V' = V ++ [Vendor.mk id name name]).

Definition manufacturers_resolved (key : option string) (M M' : list Manufacturer.t) : Prop :=
  (key ∈ Manufacturer.manufacturerId <$> M /\ M' = M) \/
  ((key ∉ Manufacturer.manufacturerId <$> M) /\
   exists name, M' = M ++ [Manufacturer.mk key name]).

(** The in-memory document of a stored product after its update. *)
Definition updatedDoc (existingProduct : Doc) (row : Row) (vendorId : string)
    (variants : list Variant.t) : Doc :=
  JsMap.set "variants"
    (VVariants (mergeVariants (variants_of existingProduct) variants))
    (assign (rowFields row vendorId) existingProduct).

(** What matters of the in-memory document of a new product. *)
Definition fresh_doc (productID : string) (row : Row) (variants : list Variant.t)
    (vendorId : string) (doc : Doc) : Prop :=
  field "productID" doc = VString productID /\
  field "variants" doc = VVariants variants /\
  (forall k v, (k, v) ∈ rowFields row vendorId -> field k doc = v).

(** The instruction [processGroup] returns for the group [g] of
    [productID], given the stored product [existing] read at the start of
    the chunk, if there is one, and the vendors [V]. *)
Definition op_made (g : Group.t) (existing : option Doc) (V : list Vendor.t)
    (productID : string) (op : BulkOp.t) : Prop :=
  BulkOp.filter_productID op = productID /\
  BulkOp.upsert op = true /\
  match existing with
  | Some existingProduct =>
      BulkOp.update_setOnInsert op = None /\
      BulkOp.update_set op =
        fields_of (updatedDoc existingProduct (Group.row g)
                     (vendorId_for (Group.row g !! "SiteSource") V) (Group.variants g))
  | None =>
      (exists docId, BulkOp.update_setOnInsert op = Some [("docId", docId)]) /\
      (exists doc, BulkOp.update_set op = fields_of doc /\
         fresh_doc productID (Group.row g) (Group.variants g)
           (vendorId_for (Group.row g !! "SiteSource") V) doc)
  end.

(** The instructions of the loop over the product ids of a chunk. *)
Definition ops_made (G : JsMap.t Group.t) (existing : string -> option Doc)
    (s : Store.t) (productIDs : list string) (ops : list BulkOp.t) : Prop :=
  Forall2
    (fun productID op =>
       exists g, JsMap.get productID G = Some g /\
         Group.row g !! "SiteSource" ∈ Vendor.name <$> Store.vendors s /\
         Group.row g !! "ManufacturerID" ∈
           Manufacturer.manufacturerId <$> Store.manufacturers s /\
         op_made g (existing productID) (Store.vendors s) productID op)
    productIDs ops.

(** The store [s'] a chunk with groups [G] leaves from the store [s],
    through the instructions [ops] of its bulk write. *)
Definition chunk_effect (G : JsMap.t Group.t) (ops : list BulkOp.t) (s s' : Store.t)
  : Prop :=
  Store.products s' = bulkWrite ops (Store.products s) /\
  Store.vendors s `prefix_of` Store.vendors s' /\
  Store.manufacturers s `prefix_of` Store.manufacturers s' /\
  (NoDup (Vendor.name <$> Store.vendors s) ->
   NoDup (Vendor.name <$> Store.vendors s')) /\
  (NoDup (Manufacturer.manufacturerId <$> Store.manufacturers s) ->
   NoDup (Manufacturer.manufacturerId <$> Store.manufacturers s')) /\
  ((forall productID g, JsMap.get productID G = Some g ->
      Group.row g !! "SiteSource" ∈ Vendor.name <$> Store.vendors s /\
      Group.row g !! "ManufacturerID" ∈
        Manufacturer.manufacturerId <$> Store.manufacturers s) ->
   Store.vendors s' = Store.vendors s /\
   Store.manufacturers s' = Store.manufacturers s) /\
  ops_made G (fun productID => stored productID (Store.products s)) s'
    (Js.ownKeys (JsMap.keys G)) ops.

(** A stored document that carries what a group brought: the product id,
    every field of [$set], the variant list [l] and the fields of the
    representative row. *)
Definition carries (row : Row) (vendorId : string) (l : list Variant.t)
    (productID : string) (doc : Doc) : Prop :=
  productID_in doc = Some productID /\
  (forall k, k ∈ setFields -> k ∈ JsMap.keys doc) /\
  field "variants" doc = VVariants l /\
  (forall k v, (k, v) ∈ rowFields row vendorId -> field k doc = v).

(** The product id and the sku a row is filed under. *)
Definition row_key (row : Row) : string * string := (productID_of row, sku_of row).

(** No two rows the grouping keeps have the same product id and sku. *)
Definition distinct_skus (rows : list Row) : Prop :=
  NoDup (row_key <$> filter (fun row => valid row = true) rows).

(** The full chunks the [data] handler cuts from a buffer and the rows
    that follow, and the rows left in the buffer. *)
Fixpoint chunked (buffer rows : list Row) : list (list Row) * list Row :=
  match rows with
  | [] => ([], buffer)
  | row :: rows' =>
      let chunk := buffer ++ [row] in
      if (chunkSize <=? length chunk)%nat
      then let '(fulls, rest) := chunked [] rows' in (chunk :: fulls, rest)
      else chunked chunk rows'
  end.

(** The chunks of a file that delivers [rows] and ends, each with the
    context its failure would be logged under. *)
Definition chunks (rows : list Row) : list (string * list Row) :=
  let '(fulls, rest) := chunked [] rows in
  ((fun c => ("Error processing chunk: ", c)) <$> fulls) ++
  (if (0 <? length rest)%nat then [("Error processing final chunk: ", rest)] else []).

(** The stream ends while no chunk is being processed: the file is empty,
    or its last row does not fill a chunk. The stream does not wait for the
    [data] handler (lines 99-113): [pause] holds back the rows that follow,
    not the [end] event, and [chunk] is emptied only once [processChunk] has
    returned. When the last row fills a chunk, [end] can arrive while that
    chunk is being processed and finds it still in [chunk]; the two
    handlers then overlap. For every other file the handlers run one after
    the other, which is the run [importProducts] describes. *)
Definition ends_between_chunks (rows : list Row) : Prop :=
  rows = [] \/ length rows mod chunkSize <> 0.

Section Settled.
Variable parseFloat : option string -> float.

(** A variant built from a row, up to its generated identifiers. *)
Definition built_from (row : Row) (v : Variant.t) : Prop :=
  Variant.sku v = sku_of row /\
  Variant.price v = parseNumber parseFloat (row !! "UnitPrice") /\
  Variant.available v = parseBoolean (row !! "QuantityOnHand") /\
  Variant.description v = row !! "ItemDescription".

(** The groups of the rows handled so far. *)
Definition groups_of (rows : list Row) (G : JsMap.t Group.t) : Prop :=
  NoDup (JsMap.keys G) /\
  (forall productID, JsMap.get productID G = None -> rows_of productID rows = []) /\
  (forall productID g, JsMap.get productID G = Some g ->
     exists rest, rows_of productID rows = Group.row g :: rest /\
       Forall2 built_from (rows_of productID rows) (Group.variants g)).

(** A store that already holds what a chunk brings, when the chunk is not
    stuck: the vendor and the manufacturer of every group, and for every
    group a product with all the fields an update writes, whose variant
    list holds every sku once and has, for every row of the group, a
    variant of its sku that shows no change to the variant built from the
    row. *)
Definition saturated (chunk : list Row) (s : Store.t) : Prop :=
  ~ crashing chunk -> stuck (Store.products s) chunk = false ->
  forall productID row rest, rows_of productID chunk = row :: rest ->
    row !! "SiteSource" ∈ Vendor.name <$> Store.vendors s /\
    row !! "ManufacturerID" ∈ Manufacturer.manufacturerId <$> Store.manufacturers s /\
    exists doc l,
      doc ∈ Store.products s /\ productID_in doc = Some productID /\
      (forall k, k ∈ setFields -> k ∈ JsMap.keys doc) /\
      field "variants" doc = VVariants l /\
      NoDup (Variant.sku <$> l) /\
      forall r, r ∈ row :: rest ->
        exists a, a ∈ l /\ Variant.sku a = sku_of r /\
          forall v, built_from r v -> isVariantUpdated a v = false.

(** The attempts at a list of chunks, each under its context. *)
Definition attempts (chunks : list (string * list Row)) (w : World) : World :=
  fold_left (fun w c => attempt parseFloat c.1 c.2 w) chunks w.

(** A store that already holds what a stuck chunk looks up: the vendor and
    the manufacturer of every group the loop reaches. *)
Definition idle (chunk : list Row) (s : Store.t) : Prop :=
  ~ crashing chunk -> stuck (Store.products s) chunk = true ->
  forall productID row rest,
    productID ∈ reached (Store.products s) (group_ids chunk) ->
    rows_of productID chunk = row :: rest ->
    row !! "SiteSource" ∈ Vendor.name <$> Store.vendors s /\
    row !! "ManufacturerID" ∈ Manufacturer.manufacturerId <$> Store.manufacturers s.

(** The chunks that are not stuck on the products [products]. *)
Definition writing (products : list Doc) (chunks : list (list Row)) : list (list Row) :=
  List.filter (fun chunk => negb (stuck products chunk)) chunks.

(** The store holds what the chunks brought, and every stored product is
    as the chunks that write leave it when they bring nothing new. *)
Definition settled_on (chunks : list (list Row)) (s : Store.t) : Prop :=
  distinct_products s /\
  (forall c, c ∈ chunks -> saturated c s /\ idle c s) /\
  (forall doc, doc ∈ Store.products s ->
     replay (writing (Store.products s) chunks) (Store.vendors s) doc = doc).

(** The group [g] of a product id in the groups [G] of a chunk, with the
    rows filed under it; [s'] is the store the chunk leaves. *)
Definition group_at (chunk : list Row) (G : JsMap.t Group.t) (s' : Store.t)
    (productID : string) (g : Group.t) (rest : list Row) : Prop :=
  JsMap.get productID G = Some g /\
  rows_of productID chunk = Group.row g :: rest /\
  Forall2 built_from (Group.row g :: rest) (Group.variants g) /\
  NoDup (Variant.sku <$> Group.variants g) /\
  Group.row g !! "SiteSource" ∈ Vendor.name <$> Store.vendors s' /\
  Group.row g !! "ManufacturerID" ∈ Manufacturer.manufacturerId <$> Store.manufacturers s'.

End Settled.

(** The vendor id an instruction writes for a group, read in the store
    [s'] the chunk leaves. *)
Definition vendorId_of (s' : Store.t) (g : Group.t) : string :=
  vendorId_for (Group.row g !! "SiteSource") (Store.vendors s').

(** ** Edge cases *)

(** The log line of a skipped row. *)
Definition skipped : Level * string := (Warn, "Missing ProductID or ItemID in row, skipping.").

(** Rows for the edge cases of the grouping. *)
Module Edge.


(** A row without item id. *)
Definition withoutItem : Row :=
  Sample.row [ ("ProductID", "P7"); ("ProductName", "Swab") ].

(** A service over an empty store that refuses every request. *)
Definition refusing : World :=
  mkWorld Store.empty [] [] Sample.entropy 0 (fun _ => Some "store down") [] [].

End Edge.

(** * Facts about insertion ordered maps *)

Module JsMapFacts.

Section Values.
Context {V : Type}.
Implicit Types (m : JsMap.t V) (k : string) (v : V).

Lemma get_set_eq m k v : JsMap.get k (JsMap.set k v m) = Some v.
Proof.
  induction m as [|[k' v'] m IH]; simpl.
  - by rewrite decide_True.
  - destruct (decide (k = k')) as [->|Hne]; simpl.
    + by rewrite decide_True.
    + by rewrite decide_False.
Qed.

Lemma get_set_ne m k k' v : k ≠ k' -> JsMap.get k' (JsMap.set k v m) = JsMap.get k' m.
Proof.
  intros Hne. induction m as [|[k0 v0] m IH]; simpl.
  - by rewrite decide_False.
  - destruct (decide (k = k0)) as [->|Hne0]; simpl.
    + by rewrite !decide_False.
    + destruct (decide (k' = k0)); done.
Qed.

Lemma get_set m k k' v :
  JsMap.get k' (JsMap.set k v m) = if decide (k' = k) then Some v else JsMap.get k' m.
Proof.
  destruct (decide (k' = k)) as [->|Hne].
  - apply get_set_eq.
  - by apply get_set_ne.
Qed.

Lemma get_None m k : JsMap.get k m = None <-> k ∉ JsMap.keys m.
Proof.
  induction m as [|[k' v'] m IH]; simpl.
  - split; [intros _; apply not_elem_of_nil | done].
  - rewrite not_elem_of_cons. destruct (decide (k = k')) as [->|Hne].
    + split; [done | intros [? _]; done].
    + rewrite IH. tauto.
Qed.

Lemma get_Some_keys m k v : JsMap.get k m = Some v -> k ∈ JsMap.keys m.
Proof.
  intros H. destruct (decide (k ∈ JsMap.keys m)) as [|Hn]; [done|].
  apply get_None in Hn. congruence.
Qed.

Lemma has_keys m k : JsMap.has k m = true <-> k ∈ JsMap.keys m.
Proof.
  unfold JsMap.has. destruct (JsMap.get k m) eqn:E.
  - split; [intros _; by eapply get_Some_keys | done].
  - apply get_None in E. split; [done | intros; contradiction].
Qed.

Lemma has_false m k : JsMap.has k m = false <-> JsMap.get k m = None.
Proof. unfold JsMap.has. destruct (JsMap.get k m); split; congruence. Qed.

Lemma keys_cons m k v : JsMap.keys ((k, v) :: m) = k :: JsMap.keys m.
Proof. done. Qed.

Lemma keys_set m k v :
  JsMap.keys (JsMap.set k v m) =
    if decide (k ∈ JsMap.keys m) then JsMap.keys m else JsMap.keys m ++ [k].
Proof.
  induction m as [|[k' v'] m IH].
  - by rewrite decide_False by apply not_elem_of_nil.
  - cbn [JsMap.set]. rewrite keys_cons.
    destruct (decide (k = k')) as [->|Hne].
    + by rewrite decide_True by (apply elem_of_cons; by left).
    + rewrite keys_cons, IH. destruct (decide (k ∈ JsMap.keys m)) as [Hin|Hnin].
      * by rewrite decide_True by (apply elem_of_cons; by right).
      * rewrite decide_False; [done|]. rewrite not_elem_of_cons. done.
Qed.

Lemma keys_set_present m k v :
  k ∈ JsMap.keys m -> JsMap.keys (JsMap.set k v m) = JsMap.keys m.
Proof. intros. by rewrite keys_set, decide_True. Qed.

Lemma NoDup_keys_set m k v :
  NoDup (JsMap.keys m) -> NoDup (JsMap.keys (JsMap.set k v m)).
Proof.
  intros Hnd. rewrite keys_set. destruct (decide (k ∈ JsMap.keys m)); [done|].
  apply NoDup_app. split_and!; [done | | apply NoDup_singleton].
  intros x Hx ->%list_elem_of_singleton. done.
Qed.

(** Writing back the value a key already has changes nothing. *)
Lemma set_get_id m k v : JsMap.get k m = Some v -> JsMap.set k v m = m.
Proof.
  induction m as [|[k' v'] m IH]; simpl; [done|].
  destruct (decide (k = k')) as [->|Hne].
  - by intros [= ->].
  - intros H. by rewrite IH.
Qed.

Lemma set_set m k v v' : JsMap.set k v (JsMap.set k v' m) = JsMap.set k v m.
Proof.
  induction m as [|[k0 v0] m IH]; simpl.
  - by rewrite decide_True.
  - destruct (decide (k = k0)) as [->|Hne]; simpl.
    + by rewrite decide_True.
    + rewrite decide_False by done. by rewrite IH.
Qed.

Lemma length_set_present m k v :
  k ∈ JsMap.keys m -> length (JsMap.set k v m) = length m.
Proof.
  intros H. change (length (JsMap.set k v m)) with (length (JsMap.set k v m)).
  rewrite <- (length_fmap fst (JsMap.set k v m)), <- (length_fmap fst m).
  change (fst <$> JsMap.set k v m) with (JsMap.keys (JsMap.set k v m)).
  change (fst <$> m) with (JsMap.keys m). by rewrite keys_set_present.
Qed.

End Values.

End JsMapFacts.

(** * Facts about the variant merge *)

Module MergeFacts.

Implicit Types (m : JsMap.t Variant.t) (v p : Variant.t) (s : string).

(** Every entry of the map is stored under its own sku. *)
Definition keyed m : Prop := Forall (fun kv => Variant.sku kv.2 = kv.1) m.

Lemma keyed_set m v : keyed m -> keyed (JsMap.set (Variant.sku v) v m).
Proof.
  unfold keyed. induction m as [|[k' v'] m IH]; simpl; intros H.
  - by repeat constructor.
  - inversion H as [|? ? Hhd Htl]; subst.
    destruct (decide (Variant.sku v = k')); constructor; auto.
Qed.

Lemma keyed_mergeVariant m v : keyed m -> keyed (mergeVariant m v).
Proof.
  intros H. unfold mergeVariant.
  destruct (JsMap.get _ m); [destruct (isVariantUpdated _ _)|]; auto using keyed_set.
Qed.

Lemma keyed_fold_index l m : keyed m -> keyed (fold_left indexVariant l m).
Proof.
  revert m. induction l as [|v l IH]; simpl; intros m H; [done|].
  apply IH. by apply keyed_set.
Qed.

Lemma keyed_fold_merge l m : keyed m -> keyed (fold_left mergeVariant l m).
Proof.
  revert m. induction l as [|v l IH]; simpl; intros m H; [done|].
  apply IH. by apply keyed_mergeVariant.
Qed.

Lemma skus_values m : keyed m -> Variant.sku <$> JsMap.values m = JsMap.keys m.
Proof.
  unfold keyed. induction m as [|[k v] m IH]; intros H; [done|].
  inversion H as [|? ? Hk Hm]; subst. cbn in *. rewrite Hk. f_equal. by apply IH.
Qed.

Lemma lookup_values m s : keyed m -> lookup_sku s (JsMap.values m) = JsMap.get s m.
Proof.
  unfold keyed, lookup_sku. induction m as [|[k v] m IH]; intros H; [done|].
  inversion H as [|? ? Hk Hm]; subst. cbn in *. subst k.
  destruct (decide (s = Variant.sku v)) as [->|Hne].
  - by rewrite bool_decide_eq_true_2.
  - rewrite bool_decide_eq_false_2 by congruence. by apply IH.
Qed.

Lemma lookup_sku_app s l1 l2 :
  lookup_sku s (l1 ++ l2) =
    match lookup_sku s l1 with Some v => Some v | None => lookup_sku s l2 end.
Proof.
  unfold lookup_sku. induction l1 as [|v l1 IH]; simpl; [done|].
  destruct (bool_decide _); done.
Qed.

Lemma lookup_sku_None s l : lookup_sku s l = None <-> s ∉ Variant.sku <$> l.
Proof.
  unfold lookup_sku. induction l as [|v l IH]; simpl.
  - split; [intros _; apply not_elem_of_nil | done].
  - rewrite not_elem_of_cons. case_bool_decide as Hs.
    + split; [done | intros [? _]; by subst].
    + rewrite IH. split; [intros; split; [by intros ->|done] | tauto].
Qed.

Lemma lookup_sku_Some s l v : lookup_sku s l = Some v -> v ∈ l /\ Variant.sku v = s.
Proof.
  unfold lookup_sku. induction l as [|v' l IH]; simpl; [done|].
  case_bool_decide as Hs.
  - intros [= ->]. split; [apply elem_of_cons; by left | done].
  - intros H. destruct (IH H). split; [apply elem_of_cons; by right | done].
Qed.

(** With distinct skus, a member of the list is the one found under its sku. *)
Lemma lookup_sku_member l v :
  NoDup (Variant.sku <$> l) -> v ∈ l -> lookup_sku (Variant.sku v) l = Some v.
Proof.
  unfold lookup_sku. induction l as [|v' l IH]; simpl; intros Hnd Hin.
  - by apply elem_of_nil in Hin.
  - apply NoDup_cons in Hnd as [Hnotin Hnd]. apply elem_of_cons in Hin as [->|Hin].
    + by rewrite bool_decide_eq_true_2.
    + rewrite bool_decide_eq_false_2; [by apply IH|].
      intros Heq. apply Hnotin. rewrite Heq. by apply list_elem_of_fmap_2.
Qed.

Lemma get_mergeVariant m v s :
  JsMap.get s (mergeVariant m v) =
    if decide (s = Variant.sku v) then
      Some (match JsMap.get s m with
            | Some p => if isVariantUpdated p v then v else p
            | None => v
            end)
    else JsMap.get s m.
Proof.
  unfold mergeVariant. destruct (decide (s = Variant.sku v)) as [->|Hne].
  - destruct (JsMap.get (Variant.sku v) m) as [p|] eqn:E.
    + destruct (isVariantUpdated p v); [apply JsMapFacts.get_set_eq | done].
    + apply JsMapFacts.get_set_eq.
  - destruct (JsMap.get (Variant.sku v) m) as [p|];
      [destruct (isVariantUpdated p v)|]; try done;
      by rewrite JsMapFacts.get_set_ne.
Qed.

(** Folding incoming variants with distinct skus into the index. *)
Lemma get_fold_merge incoming m s :
  NoDup (Variant.sku <$> incoming) ->
  JsMap.get s (fold_left mergeVariant incoming m) =
    match lookup_sku s incoming with
    | Some v =>
        Some (match JsMap.get s m with
              | Some p => if isVariantUpdated p v then v else p
              | None => v
              end)
    | None => JsMap.get s m
    end.
Proof.
  revert m. induction incoming as [|v incoming IH]; intros m Hnd; [done|].
  rewrite fmap_cons in Hnd. apply NoDup_cons in Hnd as [Hnotin Hnd].
  cbn [fold_left]. rewrite IH by done. rewrite get_mergeVariant.
  unfold lookup_sku at 2. cbn [List.find].
  destruct (decide (s = Variant.sku v)) as [->|Hne].
  - rewrite bool_decide_eq_true_2 by done.
    apply lookup_sku_None in Hnotin. by rewrite Hnotin.
  - rewrite bool_decide_eq_false_2 by done. done.
Qed.

Lemma distinct_filter (P : string -> Prop) `{forall x, Decision (P x)} l :
  distinct (filter P l) = filter P (distinct l).
Proof.
  induction l as [|x l IH]; [done|]. cbn [distinct].
  rewrite !filter_cons. destruct (decide (P x)) as [HP|HP].
  - cbn [distinct]. f_equal.
    rewrite IH, !list_filter_filter. apply list_filter_iff. tauto.
  - rewrite IH, list_filter_filter. apply list_filter_iff.
    intros y. split; [|tauto]. intros HPy. split; [done|]. by intros ->.
Qed.

Lemma elem_of_distinct l x : x ∈ distinct l <-> x ∈ l.
Proof.
  induction l as [|y l IH]; [done|]. cbn [distinct].
  rewrite !elem_of_cons, list_elem_of_filter, IH.
  destruct (decide (x = y)); tauto.
Qed.

Lemma NoDup_distinct l : NoDup (distinct l).
Proof.
  induction l as [|y l IH]; cbn [distinct]; [constructor|].
  apply NoDup_cons. split.
  - rewrite list_elem_of_filter. tauto.
  - by apply NoDup_filter.
Qed.

Lemma filter_all (P : string -> Prop) `{forall x, Decision (P x)} (l : list string) :
  (forall x, x ∈ l -> P x) -> filter P l = l.
Proof.
  induction l as [|x l IH]; intros HP; [done|].
  rewrite filter_cons, decide_True by (apply HP, elem_of_cons; by left).
  f_equal. apply IH. intros y Hy. apply HP, elem_of_cons. by right.
Qed.

Lemma distinct_NoDup l : NoDup l -> distinct l = l.
Proof.
  induction 1 as [|x l Hx _ IH]; cbn [distinct]; [done|]. rewrite IH. f_equal.
  apply filter_all. by intros y Hy ->.
Qed.

Lemma distinct_snoc l x :
  distinct (l ++ [x]) = if decide (x ∈ l) then distinct l else distinct l ++ [x].
Proof.
  induction l as [|y l IH]; [done|]. cbn [app distinct]. rewrite IH.
  destruct (decide (x ∈ l)) as [Hin|Hnin].
  - rewrite decide_True by (apply elem_of_cons; by right). done.
  - destruct (decide (x = y)) as [->|Hne].
    + rewrite decide_True by (apply elem_of_cons; by left).
      rewrite filter_app, filter_cons, decide_False by (by intros H; apply H).
      by rewrite filter_nil, app_nil_r.
    + rewrite decide_False by (rewrite elem_of_cons; tauto).
      by rewrite filter_app, filter_cons, decide_True, filter_nil by done.
Qed.


(** A step that keeps the keys of the map, or appends the sku of the
    variant when the map does not have it, lists the keys in the order of
    first occurrence. *)
Lemma keys_fold (step : JsMap.t Variant.t -> Variant.t -> JsMap.t Variant.t) :
  (forall m v,
     JsMap.keys (step m v) =
       if decide (Variant.sku v ∈ JsMap.keys m) then JsMap.keys m
       else JsMap.keys m ++ [Variant.sku v]) ->
  forall l m,
    JsMap.keys (fold_left step l m) =
      JsMap.keys m ++ distinct (filter (fun s => s ∉ JsMap.keys m) (Variant.sku <$> l)).
Proof.
  intros Hstep l. induction l as [|v l IH]; intros m.
  - simpl. by rewrite app_nil_r.
  - cbn [fold_left]. rewrite IH, Hstep, fmap_cons, filter_cons.
    destruct (decide (Variant.sku v ∈ JsMap.keys m)) as [Hin|Hnin].
    + by rewrite decide_False by tauto.
    + rewrite decide_True by done. cbn [distinct]. rewrite <- app_assoc. simpl.
      do 2 f_equal. rewrite <- distinct_filter, list_filter_filter.
      f_equal. apply list_filter_iff. intros y.
      rewrite not_elem_of_app, list_elem_of_singleton. tauto.
Qed.

Lemma keys_indexVariant m v :
  JsMap.keys (indexVariant m v) =
    if decide (Variant.sku v ∈ JsMap.keys m) then JsMap.keys m
    else JsMap.keys m ++ [Variant.sku v].
Proof. apply JsMapFacts.keys_set. Qed.

Lemma keys_mergeVariant m v :
  JsMap.keys (mergeVariant m v) =
    if decide (Variant.sku v ∈ JsMap.keys m) then JsMap.keys m
    else JsMap.keys m ++ [Variant.sku v].
Proof.
  unfold mergeVariant. destruct (JsMap.get (Variant.sku v) m) as [p|] eqn:E.
  - apply JsMapFacts.get_Some_keys in E. rewrite decide_True by done.
    destruct (isVariantUpdated p v); [by apply JsMapFacts.keys_set_present | done].
  - apply JsMapFacts.keys_set.
Qed.

Lemma elem_of_set {V : Type} (m : JsMap.t V) k (v : V) x :
  x ∈ JsMap.set k v m -> x = (k, v) \/ x ∈ m.
Proof.
  induction m as [|[k' v'] m IH]; cbn [JsMap.set].
  - rewrite list_elem_of_singleton. auto.
  - destruct (decide (k = k')); rewrite !elem_of_cons; [tauto|].
    intros [?|?%IH]; tauto.
Qed.

Lemma elem_of_mergeVariant m v x :
  x ∈ mergeVariant m v -> x = (Variant.sku v, v) \/ x ∈ m.
Proof.
  unfold mergeVariant.
  destruct (JsMap.get _ m); [destruct (isVariantUpdated _ _)|];
    auto using elem_of_set.
Qed.

Lemma elem_of_fold_index l m x :
  x ∈ fold_left indexVariant l m -> x.2 ∈ l \/ x ∈ m.
Proof.
  revert m. induction l as [|v l IH]; intros m; cbn [fold_left]; [auto|].
  intros [?|[->|?]%elem_of_set]%IH; rewrite elem_of_cons; auto.
Qed.

Lemma elem_of_fold_merge l m x :
  x ∈ fold_left mergeVariant l m -> x.2 ∈ l \/ x ∈ m.
Proof.
  revert m. induction l as [|v l IH]; intros m; cbn [fold_left]; [auto|].
  intros [?|[->|?]%elem_of_mergeVariant]%IH; rewrite elem_of_cons; auto.
Qed.

(** Every merged variant is a stored one or an incoming one. *)
Lemma mergeVariants_origin prior incoming v :
  v ∈ mergeVariants prior incoming -> v ∈ prior \/ v ∈ incoming.
Proof.
  unfold mergeVariants, JsMap.values. intros ([k v'] & -> & Hin)%list_elem_of_fmap.
  apply elem_of_fold_merge in Hin as [?|Hin]; [by right|].
  apply elem_of_fold_index in Hin as [?|Hin]; [by left|].
  by apply elem_of_nil in Hin.
Qed.

Lemma NoDup_keys_fold_index l m :
  NoDup (JsMap.keys m) -> NoDup (JsMap.keys (fold_left indexVariant l m)).
Proof.
  revert m. induction l as [|v l IH]; intros m H; cbn [fold_left]; [done|].
  apply IH. by apply JsMapFacts.NoDup_keys_set.
Qed.

Lemma NoDup_keys_fold_merge l m :
  NoDup (JsMap.keys m) -> NoDup (JsMap.keys (fold_left mergeVariant l m)).
Proof.
  revert m. induction l as [|v l IH]; intros m H; cbn [fold_left]; [done|].
  apply IH. rewrite keys_mergeVariant. destruct (decide _); [done|].
  apply NoDup_app. split_and!; [done | | apply NoDup_singleton].
  by intros x Hx ->%list_elem_of_singleton.
Qed.

Lemma keyed_index prior : keyed (fold_left indexVariant prior JsMap.empty).
Proof. apply keyed_fold_index. constructor. Qed.

(** The skus of a merged list are distinct, whatever the two lists are. *)
Lemma NoDup_mergeVariants prior incoming :
  NoDup (Variant.sku <$> mergeVariants prior incoming).
Proof.
  unfold mergeVariants.
  rewrite skus_values by apply keyed_fold_merge, keyed_index.
  apply NoDup_keys_fold_merge, NoDup_keys_fold_index. constructor.
Qed.

Lemma skus_mergeVariants prior incoming :
  Variant.sku <$> mergeVariants prior incoming =
    distinct (Variant.sku <$> prior) ++
    distinct (filter (fun s => s ∉ Variant.sku <$> prior) (Variant.sku <$> incoming)).
Proof.
  unfold mergeVariants.
  rewrite skus_values by apply keyed_fold_merge, keyed_index.
  rewrite (keys_fold mergeVariant keys_mergeVariant).
  rewrite (keys_fold indexVariant keys_indexVariant). cbn [JsMap.keys JsMap.empty map app].
  rewrite (filter_all (fun s => s ∉ [])) by (intros; apply not_elem_of_nil).
  do 2 f_equal. apply list_filter_iff. intros s. by rewrite elem_of_distinct.
Qed.

End MergeFacts.

(** * Rules of the program logic *)

Module Hoare.

Section Rules.
Context {A B : Type}.
Implicit Types (P E : World -> Prop).

Lemma ret P (a : A) (Q : A -> World -> Prop) E :
  (forall w, P w -> Q a w) -> hoare P (mret a) Q E.
Proof. intros H w Hw. by apply H. Qed.

Lemma throw_ P (e : Exn.t) (Q : A -> World -> Prop) E :
  (forall w, P w -> E w) -> hoare P (throw e) Q E.
Proof. intros H w Hw. by apply H. Qed.

Lemma bind P (c : M A) (f : A -> M B) (R : A -> World -> Prop)
    (Q : B -> World -> Prop) E :
  hoare P c R E -> (forall a, hoare (R a) (f a) Q E) -> hoare P (c ≫= f) Q E.
Proof.
  intros Hc Hf w Hw. specialize (Hc w Hw). unfold mbind, M_bind.
  destruct (c w) as [[a|e] w']; [by apply Hf | done].
Qed.

Lemma try_catch_ P (body : M A) (handler : Exn.t -> M A)
    (Q : A -> World -> Prop) E' E :
  hoare P body Q E' -> (forall e, hoare E' (handler e) Q E) ->
  hoare P (try_catch body handler) Q E.
Proof.
  intros Hb Hh w Hw. specialize (Hb w Hw). unfold try_catch.
  destruct (body w) as [[a|e] w']; [done | by apply Hh].
Qed.

Lemma consequence P P' (c : M A) (Q Q' : A -> World -> Prop) E E' :
  hoare P' c Q' E' ->
  (forall w, P w -> P' w) -> (forall a w, Q' a w -> Q a w) -> (forall w, E' w -> E w) ->
  hoare P c Q E.
Proof.
  intros Hc HP HQ HE w Hw. specialize (Hc w (HP w Hw)).
  destruct (c w) as [[a|e] w']; auto.
Qed.

End Rules.

(** A loop whose invariant depends on the elements handled so far. *)
Lemma forEach_ {A B : Type} (I : list A -> World -> Prop) (R : A -> B -> Prop)
    (body : A -> M B) (E : World -> Prop) (l seen : list A) :
  (forall seen x, x ∈ l ->
     hoare (I seen) (body x) (fun b w => I (seen ++ [x]) w /\ R x b) E) ->
  hoare (I seen) (forEach body l) (fun bs w => I (seen ++ l) w /\ Forall2 R l bs) E.
Proof.
  revert seen. induction l as [|x l IH]; intros seen Hbody w Hw.
  - cbn. rewrite app_nil_r. by split.
  - cbn [forEach]. unfold mbind, M_bind.
    assert (Hx : x ∈ x :: l) by (apply elem_of_cons; by left).
    pose proof (Hbody seen x Hx w Hw) as H1.
    destruct (body x w) as [[b|e] w1]; [|done]. destruct H1 as [HI HR].
    assert (Hl : forall seen' y, y ∈ l ->
      hoare (I seen') (body y) (fun b w => I (seen' ++ [y]) w /\ R y b) E).
    { intros seen' y Hy. apply Hbody. apply elem_of_cons. by right. }
    pose proof (IH (seen ++ [x]) Hl w1 HI) as H2.
    destruct (forEach body l w1) as [[bs|e] w2]; [|done].
    destruct H2 as [HI2 HR2]. rewrite <- app_assoc in HI2. cbn.
    split; [done | by constructor].
Qed.

(** A fold whose invariant relates the accumulator and the world. *)
Lemma reduce_ {A B : Type} (I : list A -> B -> World -> Prop)
    (body : B -> A -> M B) (E : World -> Prop) (l seen : list A) (init : B) :
  (forall seen acc x, x ∈ l ->
     hoare (I seen acc) (body acc x) (fun acc' w => I (seen ++ [x]) acc' w) E) ->
  hoare (I seen init) (reduce body l init) (fun acc w => I (seen ++ l) acc w) E.
Proof.
  revert seen init. induction l as [|x l IH]; intros seen init Hbody w Hw.
  - cbn. by rewrite app_nil_r.
  - cbn [reduce]. unfold mbind, M_bind.
    assert (Hx : x ∈ x :: l) by (apply elem_of_cons; by left).
    pose proof (Hbody seen init x Hx w Hw) as H1.
    destruct (body init x w) as [[acc|e] w1]; [|done].
    assert (Hl : forall seen' acc' y, y ∈ l ->
      hoare (I seen' acc') (body acc' y) (fun acc'' w => I (seen' ++ [y]) acc'' w) E).
    { intros seen' acc' y Hy. apply Hbody. apply elem_of_cons. by right. }
    pose proof (IH (seen ++ [x]) acc Hl w1 H1) as H2.
    destruct (reduce body l acc w1) as [[acc2|e] w2]; [|done].
    by rewrite <- app_assoc in H2.
Qed.

End Hoare.

(** * The variant builder *)

Section VariantBuilder.
Variable parseFloat : option string -> float.

(** [constructVariant] always returns, after three calls of [nanoid()],
    and the fields of the variant are read off the row. *)
Lemma constructVariant_returns (row : Row) (w : World) :
  exists v,
    constructVariant parseFloat row w = (Returned v, drew (drew (drew w))) /\
    Variant.available v = parseBoolean (row !! "QuantityOnHand") /\
    Variant.price v = parseNumber parseFloat (row !! "UnitPrice") /\
    Variant.description v = row !! "ItemDescription" /\
    Variant.sku v =
      Js.to_string (row !! "ItemID") +:+ Js.to_string (row !! "ManufacturerItemCode")
        +:+ Js.to_string (row !! "PKG") /\
    Variant.currency v = "EUR" /\
    Variant.active v = true.
Proof.
  eexists. split.
  - cbv [constructVariant mbind M_bind nanoid mret M_ret]. reflexivity.
  - cbn. by repeat split.
Qed.

Lemma parseBoolean_true (value : option string) :
  parseBoolean value = true <-> exists n, Js.parseInt value = Some n /\ (0 < n)%Z.
Proof.
  unfold parseBoolean. destruct (Js.parseInt value) as [n|].
  - rewrite Z.ltb_lt. split; [eauto|]. by intros (? & [= <-] & ?).
  - split; [done|]. by intros (? & ? & _).
Qed.

End VariantBuilder.

(** ** Reading the quantity on hand *)

Module NumeralFacts.

Lemma append_cons c s t : String c s +:+ t = String c (s +:+ t).
Proof. reflexivity. Qed.

Lemma append_nil t : "" +:+ t = t.
Proof. reflexivity. Qed.

Lemma digit_digit_char d : d < 10 -> Js.digit (digit_char d) = Some (Z.of_nat d).
Proof. intros H. do 10 (destruct d as [|d]; [reflexivity|]). lia. Qed.

Lemma is_digit_digit_char d : d < 10 -> is_digit_char (digit_char d) = true.
Proof. intros H. do 10 (destruct d as [|d]; [reflexivity|]). lia. Qed.

Lemma digit_char_no_space d : d < 10 -> Js.is_space (digit_char d) = false.
Proof. intros H. do 10 (destruct d as [|d]; [reflexivity|]). lia. Qed.

Lemma digit_char_no_sign d :
  d < 10 -> digit_char d ≠ "-"%char /\ digit_char d ≠ "+"%char.
Proof. intros H. do 10 (destruct d as [|d]; [by split|]). lia. Qed.

Lemma digit_is_digit c : Js.digit c = None <-> is_digit_char c = false.
Proof.
  unfold Js.digit, is_digit_char. rewrite bool_decide_eq_false.
  destruct (Nat.leb 48 _) eqn:E1; destruct (Nat.leb _ 57) eqn:E2; cbn;
    rewrite ?Nat.leb_le, ?Nat.leb_gt in *; split; try done; try lia.
Qed.

Lemma digit_Some c n :
  Js.digit c = Some n -> exists d, d < 10 /\ c = digit_char d /\ n = Z.of_nat d.
Proof.
  unfold Js.digit. destruct (Nat.leb 48 _ && _) eqn:E; [|done]. intros [= <-].
  apply andb_true_iff in E as [E1 E2]. apply Nat.leb_le in E1, E2.
  exists (nat_of_ascii c - 48). split_and!; [lia | | lia].
  unfold digit_char. replace (48 + (nat_of_ascii c - 48)) with (nat_of_ascii c) by lia.
  by rewrite ascii_nat_embedding.
Qed.

Lemma numeral_value_nonneg ds : (0 <= numeral_value ds)%Z.
Proof. induction ds as [|d ds IH]; cbn [numeral_value]; [done|]. nia. Qed.

Lemma digits_rest acc rest : starts_with_digit rest = false -> Js.digits acc rest = acc.
Proof.
  destruct rest as [|c rest]; [done|]. cbn. intros H%digit_is_digit. by rewrite H.
Qed.

(** The loop of [parseInt] over a numeral computes the number the numeral
    denotes. *)
Lemma digits_numeral acc d ds rest :
  Forall (fun d => d < 10) (d :: ds) -> starts_with_digit rest = false ->
  Js.digits acc (numeral (d :: ds) +:+ rest) =
    Some (default 0 acc * 10 ^ Z.of_nat (length (d :: ds)) + numeral_value (d :: ds))%Z.
Proof.
  revert acc d. induction ds as [|d' ds IH]; intros acc d Hds Hrest.
  - apply Forall_cons in Hds as [Hd _]. cbn [numeral].
    rewrite append_cons, append_nil. cbn [Js.digits].
    rewrite (digit_digit_char _ Hd), digits_rest by done. cbn. f_equal. lia.
  - apply Forall_cons in Hds as [Hd Hds].
    change (numeral (d :: d' :: ds)) with (String (digit_char d) (numeral (d' :: ds))).
    rewrite append_cons. cbn [Js.digits]. rewrite (digit_digit_char _ Hd).
    rewrite IH by done. f_equal. cbn [default]. cbn [numeral_value length].
    rewrite !Nat2Z.inj_succ, !Z.pow_succ_r by lia. unfold id. ring.
Qed.

(** Every text is a numeral, possibly empty, followed by a text that starts
    with no digit. *)
Lemma leading_numeral s :
  exists ds rest,
    s = numeral ds +:+ rest /\ Forall (fun d => d < 10) ds /\
    starts_with_digit rest = false.
Proof.
  induction s as [|c s (ds & rest & -> & Hds & Hrest)].
  - by exists [], "".
  - destruct (Js.digit c) as [n|] eqn:E.
    + apply digit_Some in E as (d & Hd & -> & _).
      exists (d :: ds), rest. split_and!; [done | by constructor | done].
    + exists [], (String c (numeral ds +:+ rest)). split_and!; [done | done |].
      by apply digit_is_digit.
Qed.

Lemma digits_Some s n :
  Js.digits None s = Some n ->
  exists ds rest,
    s = numeral ds +:+ rest /\ Forall (fun d => d < 10) ds /\
    starts_with_digit rest = false /\ n = numeral_value ds /\ ds ≠ [].
Proof.
  destruct (leading_numeral s) as (ds & rest & -> & Hds & Hrest).
  destruct ds as [|d ds].
  - cbn. by rewrite digits_rest.
  - rewrite digits_numeral by done. cbn [default]. intros [= <-].
    exists (d :: ds), rest. split_and!; try done; lia.
Qed.

Lemma trimStart_leading s : exists ws, blank ws = true /\ s = ws +:+ Js.trimStart s.
Proof.
  induction s as [|c s (ws & Hws & Hs)]; [by exists ""|].
  cbn [Js.trimStart]. destruct (Js.is_space c) eqn:E.
  - exists (String c ws). split; [cbn [blank]; by rewrite E, Hws|].
    rewrite append_cons. by f_equal.
  - by exists "".
Qed.

Lemma trimStart_blank ws s : blank ws = true -> Js.trimStart (ws +:+ s) = Js.trimStart s.
Proof.
  induction ws as [|c ws IH]; [done|]. cbn [blank]. intros [E H]%andb_true_iff.
  rewrite append_cons. cbn [Js.trimStart]. rewrite E. by apply IH.
Qed.

(** [parseInt] by the first character after the white space. *)
Lemma parseInt_sign value :
  Js.parseInt value =
    match Js.trimStart (Js.to_string value) with
    | String c s =>
        if bool_decide (c = "-"%char) then Z.opp <$> Js.digits None s
        else if bool_decide (c = "+"%char) then Js.digits None s
        else Js.digits None (String c s)
    | EmptyString => None
    end.
Proof.
  unfold Js.parseInt. destruct (Js.trimStart _) as [|c s]; [done|].
  by destruct c as [[] [] [] [] [] [] [] []].
Qed.

Lemma parseBoolean_leading_digits value :
  parseBoolean value = true <->
  exists s, value = Some s /\ starts_with_positive_integer s.
Proof.
  rewrite parseBoolean_true. split.
  - intros (n & Hn & Hpos). rewrite parseInt_sign in Hn.
    destruct value as [s|]; [|by vm_compute in Hn]. exists s. split; [done|].
    change (Js.to_string (Some s)) with s in Hn.
    destruct (trimStart_leading s) as (ws & Hws & Hs).
    destruct (Js.trimStart s) as [|c t]; [done|].
    case_bool_decide as Hminus.
    { destruct (Js.digits None t) as [m|] eqn:E; [|done]. injection Hn as <-.
      apply digits_Some in E as (ds & rest & _ & _ & _ & -> & _).
      pose proof (numeral_value_nonneg ds). lia. }
    case_bool_decide as Hplus.
    + subst c. apply digits_Some in Hn as (ds & rest & -> & Hds & Hrest & -> & _).
      exists ws, "+", ds, rest. split_and!; auto.
    + apply digits_Some in Hn as (ds & rest & Ht & Hds & Hrest & -> & _).
      exists ws, "", ds, rest. rewrite <- Ht. split_and!; auto.
  - intros (s & -> & ws & plus & ds & rest & -> & Hws & Hplus & Hds & Hrest & Hpos).
    exists (numeral_value ds). split; [|done].
    destruct ds as [|d ds]; [done|]. pose proof (Forall_inv Hds) as Hd.
    rewrite parseInt_sign. change (Js.to_string (Some ?x)) with x.
    rewrite trimStart_blank by done.
    destruct Hplus as [->| ->].
    + rewrite append_nil. cbn [numeral]. rewrite append_cons. cbn [Js.trimStart].
      rewrite digit_char_no_space by done.
      destruct (digit_char_no_sign d Hd) as [H1 H2].
      rewrite !bool_decide_eq_false_2 by done.
      change (String (digit_char d) (numeral ds +:+ rest))
        with (numeral (d :: ds) +:+ rest).
      rewrite digits_numeral by done. cbn [default]. f_equal; lia.
    + rewrite append_cons, append_nil. cbn [Js.trimStart].
      change (Js.is_space "+") with false. cbv iota.
      rewrite bool_decide_eq_false_2, bool_decide_eq_true_2 by done.
      rewrite digits_numeral by done. cbn [default]. f_equal; lia.
Qed.

End NumeralFacts.

Section Availability.
Variable parseFloat : option string -> float.

(** C7. The variant built from a row is available exactly when the
    [QuantityOnHand] text starts with a positive integer: after leading
    white space and an optional plus sign it has decimal digits that denote
    a number greater than zero; whatever follows the digits is not read. A
    missing value, a text without leading digits and a text with a minus
    sign give an unavailable variant. *)
Theorem constructVariant_available_by_leading_digits (row : Row) (w : World) :
  exists v w',
    constructVariant parseFloat row w = (Returned v, w') /\
    (Variant.available v = true <->
       exists s, row !! "QuantityOnHand" = Some s /\ starts_with_positive_integer s).
Proof.
  destruct (constructVariant_returns parseFloat row w) as (v & Hv & Ha & _).
  exists v, (drew (drew (drew w))). split; [done|]. rewrite Ha.
  apply NumeralFacts.parseBoolean_leading_digits.
Qed.

End Availability.

(** What [parseInt] accepts: leading white space, a sign, and any text
    after the leading digits. *)
Example parseBoolean_examples :
  parseBoolean (Some "3") = true /\ parseBoolean (Some "0") = false /\
  parseBoolean (Some "-5") = false /\ parseBoolean (Some "abc") = false /\
  parseBoolean (Some "") = false /\ parseBoolean None = false /\
  parseBoolean (Some " 12") = true /\ parseBoolean (Some "3.7") = true /\
  parseBoolean (Some "0.9") = false /\ parseBoolean (Some "7 boxes") = true.
Proof. by vm_compute. Qed.

(** * Description enhancement *)

(** C9. [enhanceDescription] returns the description it received, raises
    nothing and changes nothing; and whatever the attempt inside its [try]
    does, the guarded call returns, with the description it received when
    the attempt fails. *)
Theorem enhanceDescription_passes_through :
  (forall name description w,
     enhanceDescription name description w = (Returned description, w)) /\
  (forall attempt description w,
     exists result w',
       guardedEnhancement attempt description w = (Returned result, w') /\
       (forall error w1, attempt w = (Thrown error, w1) -> result = description)).
Proof.
  split; [done|]. intros attempt description w.
  unfold guardedEnhancement, try_catch.
  destruct (attempt w) as [[a|e] w1] eqn:E.
  - exists a, w1. split; [done|]. intros ? ? [=].
  - eexists _, _. split; [reflexivity|]. done.
Qed.

(** * The driver *)

Section Driver.
Variable parseFloat : option string -> float.

Lemma guarded_processChunk context rows w :
  try_catch (processChunk parseFloat rows)
    (fun error => log Error (context +:+ Exn.message error)) w
  = (Returned tt, attempt parseFloat context rows w).
Proof.
  unfold try_catch, attempt.
  destruct (processChunk parseFloat rows w) as [[[]|e] w']; reflexivity.
Qed.

Lemma chunkSize_pos : 0 < chunkSize.
Proof. unfold chunkSize. lia. Qed.

(** The [data] handler over a run of rows: the buffer and the rows split
    into full chunks, each attempted in order, and a shorter rest that stays
    in the buffer. *)
Lemma onData_rows (rows buffer : list Row) (p : Promise) (w : World) :
  length buffer < chunkSize ->
  exists fulls rest,
    buffer ++ rows = concat fulls ++ rest /\
    Forall (fun c => length c = chunkSize) fulls /\
    length rest < chunkSize /\
    reduce (handle parseFloat) (Data <$> rows) (mkRun buffer p) w =
      (Returned (mkRun rest p),
       fold_left (fun w c => attempt parseFloat "Error processing chunk: " c w) fulls w).
Proof.
  revert buffer w. induction rows as [|row rows IH]; intros buffer w Hlen.
  - exists [], buffer. by rewrite app_nil_r.
  - cbn [fmap list_fmap reduce handle]. unfold mbind, M_bind, onData.
    cbn [chunk promise].
    destruct (Nat.leb_spec chunkSize (length (buffer ++ [row]))) as [Hfull|Hshort].
    + unfold mbind, M_bind. rewrite guarded_processChunk. cbn [mret M_ret].
      destruct (IH [] (attempt parseFloat "Error processing chunk: " (buffer ++ [row]) w))
        as (fulls & rest & Heq & Hfulls & Hrest & Hrun); [apply chunkSize_pos|].
      exists ((buffer ++ [row]) :: fulls), rest. split_and!.
      * cbn [concat]. rewrite <- !app_assoc. cbn in Heq. by rewrite <- Heq.
      * constructor; [|done]. rewrite length_app in *. cbn in *. lia.
      * done.
      * exact Hrun.
    + cbn [mret M_ret].
      destruct (IH (buffer ++ [row]) w) as (fulls & rest & Heq & Hfulls & Hrest & Hrun);
        [done|].
      exists fulls, rest. split_and!; try done. by rewrite <- Heq, <- app_assoc.
Qed.

Lemma reduce_app {A B : Type} (body : B -> A -> M B) (l1 l2 : list A) (init : B) (w : World) :
  reduce body (l1 ++ l2) init w =
    match reduce body l1 init w with
    | (Returned acc, w') => reduce body l2 acc w'
    | (Thrown e, w') => (Thrown e, w')
    end.
Proof.
  revert init w. induction l1 as [|x l1 IH]; intros init w; [done|].
  cbn [app reduce]. unfold mbind, M_bind.
  destruct (body init x w) as [[acc|e] w']; [apply IH | done].
Qed.

(** No handler throws, and the promise follows the events. *)
Lemma handle_returns run event w :
  exists run' w',
    handle parseFloat run event w = (Returned run', w') /\
    promise run' =
      match event with
      | Data _ => promise run
      | End_ => settle Resolved (promise run)
      | Failure error => settle (Rejected error) (promise run)
      end.
Proof.
  destruct event as [row| |error]; cbn [handle].
  - unfold onData. destruct (_ <=? _)%nat.
    + unfold mbind, M_bind. rewrite guarded_processChunk. by eexists _, _.
    + by eexists _, _.
  - unfold onEnd, mbind, M_bind. destruct (_ <? _)%nat.
    + rewrite guarded_processChunk. by eexists _, _.
    + by eexists _, _.
  - by eexists _, _.
Qed.

Lemma reduce_handle_returns events run w :
  exists run' w',
    reduce (handle parseFloat) events run w = (Returned run', w') /\
    promise run' =
      fold_left
        (fun promise event =>
           match event with
           | Data _ => promise
           | End_ => settle Resolved promise
           | Failure error => settle (Rejected error) promise
           end)
        events (promise run).
Proof.
  revert run w. induction events as [|event events IH]; intros run w.
  - by eexists _, _.
  - cbn [reduce fold_left]. unfold mbind, M_bind.
    destruct (handle_returns run event w) as (run1 & w1 & -> & <-). apply IH.
Qed.

Lemma settled_Rejected events p error :
  fold_left
    (fun promise event =>
       match event with
       | Data _ => promise
       | End_ => settle Resolved promise
       | Failure error => settle (Rejected error) promise
       end)
    events p = Rejected error ->
  p = Rejected error \/ Failure error ∈ events.
Proof.
  revert p. induction events as [|event events IH]; intros p; cbn [fold_left]; [auto|].
  intros [H|H]%IH; [|right; apply elem_of_cons; by right].
  destruct event as [row| |error']; [by left | |].
  - destruct p; cbn in H; try done. by left.
  - destruct p; cbn in H; try done; [|by left].
    injection H as ->. right. apply elem_of_cons. by left.
Qed.

Lemma piped_rows rows error rest :
  piped ((Line <$> rows) ++ ReadFailure error :: rest) = Data <$> rows.
Proof. induction rows as [|row rows IH]; [done|]. cbn. by rewrite IH. Qed.

Lemma piped_no_failure file error : Failure error ∉ piped file.
Proof.
  induction file as [|[row| |e] file IH]; cbn.
  - apply not_elem_of_nil.
  - rewrite not_elem_of_cons. by split.
  - by intros [=]%list_elem_of_singleton.
  - apply not_elem_of_nil.
Qed.

Lemma settled_rows (rows : list Row) : settled (Data <$> rows) = Pending.
Proof.
  unfold settled. generalize Pending. induction rows as [|row rows IH]; intros p; [done|].
  cbn. apply IH.
Qed.

(** C8 fails on the code in its last clause. What holds: a failure raised
    while a chunk is processed is caught by the handler that processes it.
    The [data] handler logs it and goes on with an empty chunk; the [end]
    handler logs it, reports the import as completed and resolves the
    promise. What fails: a failure of the read stream of the file reaches no
    handler. Whatever the read stream does, the promise the caller holds is
    never rejected; after a read failure it is left pending, once the rows
    read before the failure are handled. *)
Theorem read_failure_is_not_reported :
  (forall run row w error w1,
     chunkSize <= length (chunk run ++ [row]) ->
     processChunk parseFloat (chunk run ++ [row]) w = (Thrown error, w1) ->
     handle parseFloat run (Data row) w =
       (Returned (mkRun [] (promise run)),
        logged Error ("Error processing chunk: " +:+ Exn.message error) w1)) /\
  (forall run w error w1,
     0 < length (chunk run) ->
     processChunk parseFloat (chunk run) w = (Thrown error, w1) ->
     handle parseFloat run End_ w =
       (Returned (mkRun (chunk run) (settle Resolved (promise run))),
        logged Log "Product import completed"
          (logged Error ("Error processing final chunk: " +:+ Exn.message error) w1))) /\
  (forall file w,
     exists promise w',
       importProducts parseFloat (piped file) w = (Returned promise, w') /\
       forall error, promise <> Rejected error) /\
  (forall rows error rest w,
     (importProducts parseFloat (piped ((Line <$> rows) ++ ReadFailure error :: rest)) w).1
       = Returned Pending).
Proof.
  assert (Hrun : forall events w,
    exists w', importProducts parseFloat events w = (Returned (settled events), w')).
  { intros events w. unfold importProducts, mbind, M_bind. cbn [log].
    destruct (reduce_handle_returns events (mkRun [] Pending)
                (logged Log "Starting product import" w)) as (run & w' & -> & Hp).
    exists w'. by rewrite Hp. }
  split_and!.
  - intros run row w error w1 Hfull Hthrown. cbn [handle]. unfold onData.
    apply Nat.leb_le in Hfull. rewrite Hfull. unfold mbind, M_bind.
    rewrite guarded_processChunk. unfold attempt. by rewrite Hthrown.
  - intros run w error w1 Hsome Hthrown. cbn [handle]. unfold onEnd, mbind, M_bind.
    apply Nat.ltb_lt in Hsome. rewrite Hsome.
    rewrite guarded_processChunk. unfold attempt. by rewrite Hthrown.
  - intros file w. destruct (Hrun (piped file) w) as [w' Hw'].
    exists (settled (piped file)), w'. split; [done|]. intros error Herr.
    apply settled_Rejected in Herr as [?|Hin]; [done|].
    by apply piped_no_failure in Hin.
  - intros rows error rest w. rewrite piped_rows.
    destruct (Hrun (Data <$> rows) w) as [w' ->]. cbn. by rewrite settled_rows.
Qed.

End Driver.

(** * Invariants of the pipeline: proofs *)

Module DocFacts.

Implicit Types (doc : Doc) (k : string) (v : Value).

Lemma field_set_eq doc k v : field k (JsMap.set k v doc) = v.
Proof. unfold field. by rewrite JsMapFacts.get_set_eq. Qed.

Lemma field_set_ne doc k k' v : k ≠ k' -> field k' (JsMap.set k v doc) = field k' doc.
Proof. intros. unfold field. by rewrite JsMapFacts.get_set_ne. Qed.

Lemma assign_cons doc k v fields :
  assign ((k, v) :: fields) doc = assign fields (JsMap.set k v doc).
Proof. done. Qed.

Lemma field_assign_notin fields doc k :
  k ∉ fields.*1 -> field k (assign fields doc) = field k doc.
Proof.
  revert doc. induction fields as [|[k' v'] fields IH]; intros doc Hk; [done|].
  rewrite fmap_cons, not_elem_of_cons in Hk. destruct Hk as [Hne Hk].
  rewrite assign_cons, IH by done. apply field_set_ne. cbn in Hne. congruence.
Qed.

Lemma field_assign_in fields doc k :
  k ∈ fields.*1 -> exists v, (k, v) ∈ fields /\ field k (assign fields doc) = v.
Proof.
  revert doc. induction fields as [|[k' v'] fields IH]; intros doc Hk.
  - by apply elem_of_nil in Hk.
  - rewrite assign_cons. destruct (decide (k ∈ fields.*1)) as [Hin|Hnin].
    + destruct (IH (JsMap.set k' v' doc) Hin) as (v & Hv & Hf).
      exists v. split; [apply elem_of_cons; by right | done].
    + rewrite fmap_cons in Hk. apply elem_of_cons in Hk as [->|Hk]; [|done].
      exists v'. split; [apply elem_of_cons; by left|].
      rewrite field_assign_notin by done. apply field_set_eq.
Qed.

Lemma keys_fields (doc : Doc) :
  ((fun k => (k, field k doc)) <$> setFields).*1 = setFields.
Proof. rewrite <- list_fmap_compose. apply list_fmap_id. Qed.

Lemma elem_of_fields (doc : Doc) k v :
  (k, v) ∈ (fun k => (k, field k doc)) <$> setFields -> v = field k doc.
Proof. intros (k' & [= -> ->] & _)%list_elem_of_fmap. done. Qed.

End DocFacts.

Module StoreFacts.

Lemma has_productID_field pid (doc : Doc) :
  has_productID pid doc = true <-> field "productID" doc = VString pid.
Proof.
  unfold has_productID. destruct (field "productID" doc); try (split; done).
  rewrite bool_decide_eq_true. split; [by intros -> | by intros [= ->]].
Qed.

Lemma docIds_kept_refl docs : docIds_kept docs docs.
Proof. intros i doc H. by exists doc. Qed.

Lemma docIds_kept_trans a b c : docIds_kept a b -> docIds_kept b c -> docIds_kept a c.
Proof.
  intros Hab Hbc i doc H. destruct (Hab i doc H) as (doc1 & H1 & Hd1 & Hp1).
  destruct (Hbc i doc1 H1) as (doc2 & H2 & Hd2 & Hp2).
  exists doc2. split_and!; [done | congruence | congruence].
Qed.

Lemma docIds_kept_app docs more : docIds_kept docs (docs ++ more).
Proof.
  intros i doc H. exists doc. split_and!; try done. by apply lookup_app_l_Some.
Qed.

Lemma updateOne_kept op docs :
  docId_insert_only op -> keeps_productID op -> docIds_kept docs (updateOne op docs).
Proof.
  intros [Hid _] Hpid. induction docs as [|doc docs IH]; intros i d Hi; [done|].
  cbn [updateOne]. destruct (has_productID _ doc) eqn:Hm.
  - destruct i as [|i]; cbn in *; [|by exists d].
    injection Hi as ->. eexists. split; [done|]. split.
    + by apply DocFacts.field_assign_notin.
    + apply has_productID_field in Hm. rewrite Hm.
      destruct (decide ("productID" ∈ (BulkOp.update_set op).*1)) as [Hin|Hnin].
      * destruct (DocFacts.field_assign_in _ d _ Hin) as (v & Hv & ->). by apply Hpid.
      * by rewrite DocFacts.field_assign_notin.
  - destruct i as [|i]; cbn in *; [by exists d | by apply IH].
Qed.

Lemma bulk_kept ops docs :
  Forall docId_insert_only ops -> Forall keeps_productID ops ->
  docIds_kept docs (bulkWrite ops docs).
Proof.
  revert docs. induction ops as [|op ops IH]; intros docs H1 H2.
  - apply docIds_kept_refl.
  - inversion H1; inversion H2; subst. cbn.
    eapply docIds_kept_trans; [by apply updateOne_kept | by apply IH].
Qed.

Lemma variants_of_assign fields (doc : Doc) :
  (forall l, ("variants", VVariants l) ∈ fields -> Forall conforming l) ->
  Forall conforming (variants_of doc) ->
  Forall conforming (variants_of (assign fields doc)).
Proof.
  intros Hf Hd. unfold variants_of.
  destruct (decide ("variants" ∈ fields.*1)) as [Hin|Hnin].
  - destruct (DocFacts.field_assign_in _ doc _ Hin) as (v & Hv & ->).
    destruct v; try by constructor. by apply Hf.
  - by rewrite DocFacts.field_assign_notin.
Qed.

Lemma variants_of_inserted op :
  docId_insert_only op -> op_conforming op -> Forall conforming (variants_of (inserted op)).
Proof.
  intros [_ Hsoi] Hc. unfold inserted. apply variants_of_assign.
  - intros l Hl. destruct (BulkOp.update_setOnInsert op) as [fields|] eqn:E.
    + specialize (Hsoi fields eq_refl). cbn in Hl.
      apply (list_elem_of_fmap_2 fst) in Hl. rewrite Hsoi in Hl. cbn in Hl.
      by apply list_elem_of_singleton in Hl.
    + by apply elem_of_nil in Hl.
  - apply variants_of_assign; [done|]. by constructor.
Qed.

Lemma updateOne_conforming op docs :
  docId_insert_only op -> op_conforming op ->
  (forall doc, doc ∈ docs -> Forall conforming (variants_of doc)) ->
  forall doc, doc ∈ updateOne op docs -> Forall conforming (variants_of doc).
Proof.
  intros Hid Hc. induction docs as [|d docs IH]; intros Hdocs doc; cbn [updateOne].
  - destruct (BulkOp.upsert op); [|by intros ?%elem_of_nil].
    intros ->%list_elem_of_singleton. by apply variants_of_inserted.
  - destruct (has_productID _ d).
    + intros [->|Hin]%elem_of_cons.
      * apply variants_of_assign; [done|]. apply Hdocs, elem_of_cons. by left.
      * apply Hdocs, elem_of_cons. by right.
    + intros [->|Hin]%elem_of_cons.
      * apply Hdocs, elem_of_cons. by left.
      * apply IH; [|done]. intros d' Hd'. apply Hdocs, elem_of_cons. by right.
Qed.

Lemma bulk_conforming ops docs :
  Forall docId_insert_only ops -> Forall op_conforming ops ->
  (forall doc, doc ∈ docs -> Forall conforming (variants_of doc)) ->
  forall doc, doc ∈ bulkWrite ops docs -> Forall conforming (variants_of doc).
Proof.
  revert docs. induction ops as [|op ops IH]; intros docs H1 H2 Hdocs; [done|].
  inversion H1; inversion H2; subst. cbn. apply IH; try done.
  by apply updateOne_conforming.
Qed.

End StoreFacts.

Module WithinFacts.

Lemma within_refl w : within w w.
Proof.
  split; try done.
  - apply StoreFacts.docIds_kept_refl.
  - exists []. split; [by rewrite app_nil_r|]. by intros ops ?%elem_of_nil.
Qed.

Lemma within_logged w0 w level message :
  within w0 w -> within w0 (logged level message w).
Proof. intros []. by split. Qed.

Lemma within_drew w0 w : within w0 w -> within w0 (drew w).
Proof. intros []. by split. Qed.

(** A request that is no bulk write and leaves the products as they are. *)
Lemma within_issued w0 w call s :
  within w0 w ->
  Store.products s = Store.products (store w) ->
  (forall ops, call ≠ ProductBulkWrite ops) ->
  within w0 (issued call s w).
Proof.
  intros [? ? ? ? Hk Hc (calls & Hj & Hops)] Hs Hcall. split; cbn; try done.
  - by rewrite Hs.
  - intros H0 doc. rewrite Hs. by apply Hc.
  - exists (calls ++ [call]). split; [by rewrite Hj, app_assoc|].
    intros ops [?|Hin%list_elem_of_singleton]%elem_of_app; [by apply Hops|].
    by destruct (Hcall ops).
Qed.

Lemma within_bulk w0 w ops docs :
  within w0 w ->
  Forall docId_insert_only ops -> Forall keeps_productID ops ->
  (store_conforming (store w0) -> Forall op_conforming ops) ->
  docs = Store.products (store w) \/ docs = bulkWrite ops (Store.products (store w)) ->
  within w0
    (issued (ProductBulkWrite ops)
       (Store.mk (Store.vendors (store w)) (Store.manufacturers (store w)) docs) w).
Proof.
  intros [? ? ? ? Hk Hc (calls & Hj & Hops)] Hid Hpid Hconf Hdocs. split; cbn; try done.
  - destruct Hdocs as [->| ->]; [done|].
    eapply StoreFacts.docIds_kept_trans; [done|]. by apply StoreFacts.bulk_kept.
  - intros H0 doc. cbn. destruct Hdocs as [->| ->]; [by apply Hc|].
    apply StoreFacts.bulk_conforming; auto. intros d Hd. by apply Hc.
  - exists (calls ++ [ProductBulkWrite ops]). split; [by rewrite Hj, app_assoc|].
    intros ops' [?|Hin%list_elem_of_singleton]%elem_of_app; [by apply Hops|].
    by injection Hin as ->.
Qed.

(** A bulk write the store refused. *)
Lemma within_bulk_refused w0 w ops :
  within w0 w -> Forall docId_insert_only ops ->
  within w0 (issued (ProductBulkWrite ops) (store w) w).
Proof.
  intros [? ? ? ? Hk Hc (calls & Hj & Hops)] Hid. split; cbn; try done.
  exists (calls ++ [ProductBulkWrite ops]). split; [by rewrite Hj, app_assoc|].
  intros ops' [?|Hin%list_elem_of_singleton]%elem_of_app; [by apply Hops|].
  by injection Hin as ->.
Qed.

End WithinFacts.

Module HoarePrimitives.

Lemma log_ (P : World -> Prop) level message (Q : unit -> World -> Prop) E :
  (forall w, P w -> Q tt (logged level message w)) -> hoare P (log level message) Q E.
Proof. intros H w Hw. by apply H. Qed.

Lemma nanoid_ (P : World -> Prop) (Q : string -> World -> Prop) E :
  (forall w, P w -> Q (entropy w (drawn w)) (drew w)) -> hoare P nanoid Q E.
Proof. intros H w Hw. by apply H. Qed.

Lemma request_ {A : Type} (P : World -> Prop) call (perform : Store.t -> A * Store.t)
    (Q : A -> World -> Prop) E :
  (forall w, P w -> E (issued call (store w) w)) ->
  (forall w, P w -> Q (perform (store w)).1 (issued call (perform (store w)).2 w)) ->
  hoare P (request call perform) Q E.
Proof.
  intros HE HQ w Hw. unfold request.
  destruct (faults w (length (journal w))); [by apply HE|].
  specialize (HQ w Hw). by destruct (perform (store w)).
Qed.

End HoarePrimitives.

Section Frame.
Variable parseFloat : option string -> float.
Variable w0 : World.

(** The documents read from the store at the start of a chunk. *)
Definition existing_ok (e : JsMap.t Doc) : Prop :=
  forall k doc, JsMap.get k e = Some doc ->
    field "productID" doc = VString k /\
    (store_conforming (store w0) -> Forall conforming (variants_of doc)).

Definition op_good (op : BulkOp.t) : Prop :=
  docId_insert_only op /\ keeps_productID op /\
  (store_conforming (store w0) -> op_conforming op).

Lemma constructVariant_within row w :
  within w0 w ->
  exists v w', constructVariant parseFloat row w = (Returned v, w') /\
    within w0 w' /\ conforming v.
Proof.
  intros Hw. destruct (constructVariant_returns parseFloat row w)
    as (v & Hv & _ & _ & _ & _ & Hc & Ha).
  exists v, (drew (drew (drew w))). split_and!; [done | | done].
  by do 3 apply WithinFacts.within_drew.
Qed.

Lemma groupRow_within acc row :
  hoare (fun w => within w0 w /\ groups_conforming acc)
    (groupRow parseFloat acc row)
    (fun acc' w => within w0 w /\ groups_conforming acc') (within w0).
Proof.
  intros w [Hw Hacc]. unfold groupRow.
  destruct (Js.falsy _ || Js.falsy _).
  { cbn. split; [by apply WithinFacts.within_logged | done]. }
  unfold mbind, M_bind.
  destruct (constructVariant_within row w Hw) as (v & w' & -> & Hw' & Hv).
  set (key := Js.to_string (row !! "ProductID")).
  set (acc1 := if JsMap.has key acc || Js.inherited key then acc
               else JsMap.set key (Group.mk row []) acc).
  assert (Hacc1 : groups_conforming acc1).
  { subst acc1. destruct (_ || _); [done|]. intros k g.
    rewrite JsMapFacts.get_set. destruct (decide (k = key)); [|by apply Hacc].
    intros [= <-]. constructor. }
  destruct (JsMap.get key acc1) as [group|] eqn:Hget; [|done].
  split; [done|]. intros k g. rewrite JsMapFacts.get_set.
  destruct (decide (k = key)); [|by apply Hacc1].
  intros [= <-]. cbn. apply Forall_app. split; [by eapply Hacc1 | by constructor].
Qed.

Lemma checkVendor_within siteSource w :
  within w0 w -> within w0 (checkVendor siteSource w).2.
Proof.
  intros Hw. unfold checkVendor, mbind, M_bind, vendorFindOne, request.
  destruct (faults w (length (journal w))); cbn.
  { by apply WithinFacts.within_issued. }
  destruct (List.find _ _); cbn.
  { by apply WithinFacts.within_issued. }
  unfold vendorSave, request. cbn.
  destruct (faults w _); cbn;
    apply WithinFacts.within_issued; try done;
    apply WithinFacts.within_drew; by apply WithinFacts.within_issued.
Qed.

Lemma ensureManufacturer_within manufacturerId manufacturerName w :
  within w0 w -> within w0 (ensureManufacturer manufacturerId manufacturerName w).2.
Proof.
  intros Hw. unfold ensureManufacturer, mbind, M_bind, manufacturerFindOne, request.
  destruct (faults w (length (journal w))); cbn.
  { by apply WithinFacts.within_issued. }
  destruct (List.find _ _); cbn.
  { by apply WithinFacts.within_issued. }
  unfold manufacturerSave, request. cbn.
  destruct (faults w _); cbn;
    apply WithinFacts.within_issued; try done; by apply WithinFacts.within_issued.
Qed.

Lemma variants_of_field (doc doc' : Doc) :
  field "variants" doc' = field "variants" doc -> variants_of doc' = variants_of doc.
Proof. unfold variants_of. by intros ->. Qed.

(** [updatedProduct] has no effect on the world; it fails on a stored
    [variants] field that is truthy and no list. *)
Lemma updatedProduct_spec existingProduct row variants vendorId manufacturerId w :
  match updatedProduct existingProduct row variants vendorId manufacturerId w with
  | (Returned doc, w') =>
      w' = w /\
      field "productID" doc = field "productID" existingProduct /\
      field "docId" doc = field "docId" existingProduct /\
      field "variants" doc =
        VVariants (mergeVariants (variants_of existingProduct) variants)
  | (Thrown _, w') => w' = w
  end.
Proof.
  unfold updatedProduct, mbind, M_bind, storedVariants.
  rewrite !DocFacts.field_set_ne by done. unfold variants_of.
  destruct (field "variants" existingProduct) as [| |[]|s| | | | |] eqn:E; cbn;
    try destruct (bool_decide (s = "")); cbn;
    rewrite ?DocFacts.field_set_eq, ?DocFacts.field_set_ne by done;
    rewrite ?DocFacts.field_set_ne by done; done.
Qed.

Lemma newProduct_spec productID row variants vendorId manufacturerId w :
  exists doc,
    newProduct productID row variants vendorId manufacturerId w =
      (Returned doc, drew (drew (drew (drew (drew (drew (drew w))))))) /\
    field "productID" doc = VString productID /\
    field "docId" doc = VString (entropy w (drawn w)) /\
    field "variants" doc = VVariants variants.
Proof.
  unfold newProduct, generateOptions, mbind, M_bind, nanoid. cbn.
  destruct (bool_decide _ || Js.trim_is_empty _); cbn; eexists; split; done.
Qed.

Lemma docId_not_set : "docId" ∉ setFields.
Proof. apply (bool_decide_unpack _). by vm_compute. Qed.

Lemma processGroup_within G e productID w :
  within w0 w -> groups_conforming G -> existing_ok e ->
  match processGroup G e productID w with
  | (Returned op, w') =>
      within w0 w' /\ op_good op /\ BulkOp.filter_productID op = productID
  | (Thrown _, w') => within w0 w'
  end.
Proof.
  intros Hw HG He. unfold processGroup.
  destruct (JsMap.get productID G) as [group|] eqn:Hgroup; [|done].
  unfold mbind at 1, M_bind at 1. cbn [log].
  apply (WithinFacts.within_logged _ _ Console
    ("row['SiteSource'] " +:+ Js.to_string (Group.row group !! "SiteSource"))) in Hw.
  unfold mbind at 1, M_bind at 1.
  apply (checkVendor_within (Group.row group !! "SiteSource")) in Hw.
  destruct (checkVendor _ _) as [[vendorId|?] w1]; [|done]. cbn [snd] in Hw.
  unfold mbind at 1, M_bind at 1.
  apply (ensureManufacturer_within (Group.row group !! "ManufacturerID")
           (Group.row group !! "ManufacturerName")) in Hw.
  destruct (ensureManufacturer _ _ _) as [[manufacturerId|?] w2]; [|done]. cbn [snd] in Hw.
  unfold mbind at 1, M_bind at 1. unfold JsMap.has.
  destruct (JsMap.get productID e) as [existingProduct|] eqn:Hex.
  - pose proof (updatedProduct_spec existingProduct (Group.row group)
                  (Group.variants group) vendorId manufacturerId w2) as Hspec.
    destruct (updatedProduct _ _ _ _ _ _) as [[doc|?] w3]; [|by subst].
    destruct Hspec as (-> & Hpid & Hdoc & Hvar).
    destruct (He _ _ Hex) as [Hk Hconf]. rewrite Hk in Hpid.
    assert (Hgood : forall doc' : Doc,
      field "productID" doc' = VString productID ->
      field "variants" doc' = field "variants" doc ->
      op_good (BulkOp.mk productID ((fun k => (k, field k doc')) <$> setFields) None true)).
    { intros doc' Hp Hv. split_and!.
      - split; cbn [BulkOp.update_set BulkOp.update_setOnInsert];
          [rewrite DocFacts.keys_fields; apply docId_not_set | done].
      - intros v Hin. cbn [BulkOp.update_set BulkOp.filter_productID] in *.
        by apply DocFacts.elem_of_fields in Hin as ->.
      - intros Hstore l Hin. cbn [BulkOp.update_set] in Hin.
        apply DocFacts.elem_of_fields in Hin. rewrite Hv, Hvar in Hin.
        injection Hin as ->. apply Forall_forall. intros v Hv'.
        apply MergeFacts.mergeVariants_origin in Hv' as [Hv'|Hv'].
        + specialize (Hconf Hstore). by eapply Forall_forall in Hconf.
        + specialize (HG _ _ Hgroup). by eapply Forall_forall in HG. }
    destruct (falsy (field "docId" doc)); cbn.
    + split_and!; [by apply WithinFacts.within_drew, WithinFacts.within_logged | | done].
      apply Hgood; by rewrite DocFacts.field_set_ne.
    + split_and!; [done | by apply Hgood | done].
  - destruct (newProduct_spec productID (Group.row group) (Group.variants group)
                vendorId manufacturerId w2) as (doc & -> & Hpid & Hdoc & Hvar).
    assert (Hw3 : within w0 (drew (drew (drew (drew (drew (drew (drew w2))))))))
      by (by do 7 apply WithinFacts.within_drew).
    assert (Hgood : forall (doc' : Doc) docId,
      field "productID" doc' = VString productID ->
      field "variants" doc' = field "variants" doc ->
      op_good (BulkOp.mk productID ((fun k => (k, field k doc')) <$> setFields)
                 (Some [("docId", docId)]) true)).
    { intros doc' docId Hp Hv. split_and!.
      - split; cbn [BulkOp.update_set BulkOp.update_setOnInsert];
          [rewrite DocFacts.keys_fields; apply docId_not_set |].
        by intros fields [= <-].
      - intros v Hin. cbn [BulkOp.update_set BulkOp.filter_productID] in *.
        by apply DocFacts.elem_of_fields in Hin as ->.
      - intros Hstore l Hin. cbn [BulkOp.update_set] in Hin.
        apply DocFacts.elem_of_fields in Hin. rewrite Hv, Hvar in Hin.
        injection Hin as ->. by eapply HG. }
    destruct (falsy (field "docId" doc)) eqn:Hfalsy.
    + cbv beta iota delta [mbind M_bind log nanoid mret M_ret].
      rewrite DocFacts.field_set_eq. cbn [falsy].
      destruct (bool_decide _); cbv beta iota;
      (split_and!; [repeat first [apply WithinFacts.within_drew | apply WithinFacts.within_logged]; done | | done];
       apply Hgood; by rewrite DocFacts.field_set_ne).
    + cbv beta iota delta [mbind M_bind log nanoid mret M_ret].
      rewrite Hfalsy. cbv beta iota. split_and!; [done | by apply Hgood | done].
Qed.

Lemma get_fold_indexProduct docs e k doc :
  JsMap.get k (fold_left indexProduct docs e) = Some doc ->
  (doc ∈ docs /\ field "productID" doc = VString k) \/ JsMap.get k e = Some doc.
Proof.
  revert e. induction docs as [|d docs IH]; intros e; cbn [fold_left]; [auto|].
  intros [[Hin Hf]|Hget]%IH.
  - left. split; [apply elem_of_cons; by right | done].
  - unfold indexProduct in Hget. destruct (field "productID" d) as [| | |p| | | | |] eqn:E; auto.
    rewrite JsMapFacts.get_set in Hget. destruct (decide (k = p)) as [->|]; [|auto].
    injection Hget as ->. left. split; [apply elem_of_cons; by left | done].
Qed.

Lemma processChunk_within chunk w :
  within w0 w -> within w0 (processChunk parseFloat chunk w).2.
Proof.
  intros Hw. unfold processChunk. unfold mbind at 1, M_bind at 1.
  pose proof (Hoare.reduce_
    (fun _ acc w => within w0 w /\ groups_conforming acc)
    (groupRow parseFloat) (within w0) chunk [] JsMap.empty
    (fun _ acc x _ => groupRow_within acc x) w) as Hred.
  destruct (reduce _ chunk JsMap.empty w) as [[G|?] w1]; [|by apply Hred].
  destruct Hred as [Hw1 HG]; [by split|]. clear Hw.
  unfold mbind at 1, M_bind at 1. unfold productFind, request.
  destruct (faults w1 (length (journal w1))); [by apply WithinFacts.within_issued|].
  cbv beta iota. set (docs := List.filter _ _).
  set (w2 := issued _ _ w1).
  assert (Hw2 : within w0 w2) by (by apply WithinFacts.within_issued).
  assert (He : existing_ok (fold_left indexProduct docs JsMap.empty)).
  { intros k doc [[Hin Hf]|?]%get_fold_indexProduct; [|done]. split; [done|].
    intros Hstore. apply (within_conforming _ _ Hw1 Hstore).
    subst docs. apply list_elem_of_In, filter_In in Hin as [Hin _].
    by apply list_elem_of_In. }
  unfold mbind at 1, M_bind at 1.
  pose proof (Hoare.forEach_ (fun _ w => within w0 w)
    (fun productID op => op_good op /\ BulkOp.filter_productID op = productID)
    (processGroup G (fold_left indexProduct docs JsMap.empty)) (within w0)
    (Js.ownKeys (JsMap.keys G)) []) as Hloop.
  specialize (Hloop (fun _ productID _ w Hw => processGroup_within G _ productID w Hw HG He)
                w2 Hw2).
  destruct (forEach _ _ w2) as [[ops|?] w3]; [|done].
  destruct Hloop as [Hw3 Hops].
  destruct (0 <? length ops)%nat; [|done].
  assert (Hgood : Forall op_good ops).
  { clear -Hops. induction Hops as [|? ? ? ? [? _]]; by constructor. }
  unfold try_catch, productBulkWrite, request.
  destruct (faults w3 (length (journal w3))); cbv beta iota; cbn [snd log mbind M_bind throw].
  - apply WithinFacts.within_logged. apply WithinFacts.within_bulk_refused; [done|].
    eapply Forall_impl; [exact Hgood|]. by intros ? (? & ? & ?).
  - apply (WithinFacts.within_bulk w0 w3 ops); try done.
    + eapply Forall_impl; [exact Hgood|]. by intros ? (? & ? & ?).
    + eapply Forall_impl; [exact Hgood|]. by intros ? (? & ? & ?).
    + intros Hstore. eapply Forall_impl; [exact Hgood|]. intros ? (? & ? & H). by apply H.
    + right. done.
Qed.

Lemma attempt_within context chunk w :
  within w0 w -> within w0 (attempt parseFloat context chunk w).
Proof.
  intros Hw. apply (processChunk_within chunk) in Hw. unfold attempt.
  destruct (processChunk parseFloat chunk w) as [[[]|e] w']; [done|].
  by apply WithinFacts.within_logged.
Qed.

Lemma handle_within run event w :
  within w0 w -> within w0 (handle parseFloat run event w).2.
Proof.
  intros Hw. destruct event as [row| |error]; cbn [handle].
  - unfold onData. destruct (_ <=? _)%nat; [|done].
    unfold mbind, M_bind. rewrite guarded_processChunk. by apply attempt_within.
  - unfold onEnd, mbind, M_bind. destruct (_ <? _)%nat.
    + rewrite guarded_processChunk. by apply WithinFacts.within_logged, attempt_within.
    + by apply WithinFacts.within_logged.
  - by apply WithinFacts.within_logged.
Qed.

Lemma importProducts_within events w :
  within w0 w -> within w0 (importProducts parseFloat events w).2.
Proof.
  intros Hw. unfold importProducts, mbind, M_bind. cbn [log].
  apply (WithinFacts.within_logged _ _ Log "Starting product import") in Hw.
  generalize (mkRun [] Pending) as run. revert Hw.
  generalize (logged Log "Starting product import" w) as w'.
  induction events as [|event events IH]; intros w' Hw run; [done|].
  cbn [reduce]. unfold mbind, M_bind.
  apply (handle_within run event) in Hw.
  destruct (handle parseFloat run event w') as [[run'|?] w'']; [|done].
  by apply IH.
Qed.

End Frame.

(** * Where the variants of the store come from *)

Section Lineage.
Variable parseFloat : option string -> float.
Variable Q : Variant.t -> Prop.
Hypothesis built_Q : forall v, conforming v -> Q v.

Lemma variants_all_products (w w' : World) :
  Store.products (store w') = Store.products (store w) ->
  variants_all Q (store w) -> variants_all Q (store w').
Proof. unfold variants_all. by intros ->. Qed.

Lemma checkVendor_products siteSource w :
  Store.products (store (checkVendor siteSource w).2) = Store.products (store w).
Proof.
  unfold checkVendor, mbind, M_bind, vendorFindOne, request.
  destruct (faults w (length (journal w))); cbn; [done|].
  destruct (List.find _ _); cbn; [done|].
  unfold vendorSave, request. cbn. by destruct (faults w _).
Qed.

Lemma ensureManufacturer_products manufacturerId manufacturerName w :
  Store.products (store (ensureManufacturer manufacturerId manufacturerName w).2) =
    Store.products (store w).
Proof.
  unfold ensureManufacturer, mbind, M_bind, manufacturerFindOne, request.
  destruct (faults w (length (journal w))); cbn; [done|].
  destruct (List.find _ _); cbn; [done|].
  unfold manufacturerSave, request. cbn. by destruct (faults w _).
Qed.

Lemma groupRow_lineage acc row :
  hoare (fun w => variants_all Q (store w) /\
                  forall k g, JsMap.get k acc = Some g -> Forall Q (Group.variants g))
    (groupRow parseFloat acc row)
    (fun acc' w => variants_all Q (store w) /\
                   forall k g, JsMap.get k acc' = Some g -> Forall Q (Group.variants g))
    (fun w => variants_all Q (store w)).
Proof.
  intros w [Hw Hacc]. unfold groupRow.
  destruct (Js.falsy _ || Js.falsy _); [done|].
  unfold mbind, M_bind.
  destruct (constructVariant_returns parseFloat row w)
    as (v & -> & _ & _ & _ & _ & Hc & Ha).
  set (key := Js.to_string (row !! "ProductID")).
  set (acc1 := if JsMap.has key acc || Js.inherited key then acc
               else JsMap.set key (Group.mk row []) acc).
  assert (Hacc1 : forall k g, JsMap.get k acc1 = Some g -> Forall Q (Group.variants g)).
  { subst acc1. destruct (_ || _); [done|]. intros k g.
    rewrite JsMapFacts.get_set. destruct (decide (k = key)); [|by apply Hacc].
    intros [= <-]. constructor. }
  destruct (JsMap.get key acc1) as [group|] eqn:Hget; [|done].
  split; [done|]. intros k g. rewrite JsMapFacts.get_set.
  destruct (decide (k = key)); [|by apply Hacc1].
  intros [= <-]. cbn. apply Forall_app. split; [by eapply Hacc1|].
  constructor; [|done]. by apply built_Q.
Qed.

Lemma variants_of_assign_all fields (doc : Doc) :
  (forall l, ("variants", VVariants l) ∈ fields -> Forall Q l) ->
  Forall Q (variants_of doc) -> Forall Q (variants_of (assign fields doc)).
Proof.
  intros Hf Hd. unfold variants_of.
  destruct (decide ("variants" ∈ fields.*1)) as [Hin|Hnin].
  - destruct (DocFacts.field_assign_in _ doc _ Hin) as (v & Hv & ->).
    destruct v; try by constructor. by apply Hf.
  - by rewrite DocFacts.field_assign_notin.
Qed.

Lemma variants_of_inserted_all op :
  op_all Q op -> Forall Q (variants_of (inserted op)).
Proof.
  intros [Hset Hsoi]. unfold inserted. apply variants_of_assign_all.
  - intros l Hl. apply (list_elem_of_fmap_2 fst) in Hl. done.
  - apply variants_of_assign_all; [done|]. by constructor.
Qed.

Lemma updateOne_all op docs :
  op_all Q op ->
  (forall doc, doc ∈ docs -> Forall Q (variants_of doc)) ->
  forall doc, doc ∈ updateOne op docs -> Forall Q (variants_of doc).
Proof.
  intros Hop. induction docs as [|d docs IH]; intros Hdocs doc; cbn [updateOne].
  - destruct (BulkOp.upsert op); [|by intros ?%elem_of_nil].
    intros ->%list_elem_of_singleton. by apply variants_of_inserted_all.
  - destruct (has_productID _ d).
    + intros [->|Hin]%elem_of_cons.
      * apply variants_of_assign_all; [by apply Hop|]. apply Hdocs, elem_of_cons. by left.
      * apply Hdocs, elem_of_cons. by right.
    + intros [->|Hin]%elem_of_cons.
      * apply Hdocs, elem_of_cons. by left.
      * apply IH; [|done]. intros d' Hd'. apply Hdocs, elem_of_cons. by right.
Qed.

Lemma bulkWrite_all ops docs :
  Forall (op_all Q) ops ->
  (forall doc, doc ∈ docs -> Forall Q (variants_of doc)) ->
  forall doc, doc ∈ bulkWrite ops docs -> Forall Q (variants_of doc).
Proof.
  revert docs. induction ops as [|op ops IH]; intros docs H1 Hdocs; [done|].
  inversion H1; subst. cbn. apply IH; [done|]. by apply updateOne_all.
Qed.

Lemma processGroup_lineage G e productID w :
  variants_all Q (store w) ->
  (forall k g, JsMap.get k G = Some g -> Forall Q (Group.variants g)) ->
  (forall k doc, JsMap.get k e = Some doc -> Forall Q (variants_of doc)) ->
  match processGroup G e productID w with
  | (Returned op, w') => variants_all Q (store w') /\ op_all Q op
  | (Thrown _, w') => variants_all Q (store w')
  end.
Proof.
  intros Hw HG He. unfold processGroup.
  destruct (JsMap.get productID G) as [group|] eqn:Hgroup; [|done].
  unfold mbind at 1, M_bind at 1. cbn [log].
  apply (variants_all_products w (logged Console
    ("row['SiteSource'] " +:+ Js.to_string (Group.row group !! "SiteSource")) w) eq_refl) in Hw.
  unfold mbind at 1, M_bind at 1.
  apply (variants_all_products _ _
           (checkVendor_products (Group.row group !! "SiteSource") _)) in Hw.
  destruct (checkVendor _ _) as [[vendorId|?] w1]; [|done]. cbn [snd] in Hw.
  unfold mbind at 1, M_bind at 1.
  apply (variants_all_products _ _
           (ensureManufacturer_products (Group.row group !! "ManufacturerID")
              (Group.row group !! "ManufacturerName") _)) in Hw.
  destruct (ensureManufacturer _ _ _) as [[manufacturerId|?] w2]; [|done]. cbn [snd] in Hw.
  unfold mbind at 1, M_bind at 1. unfold JsMap.has.
  destruct (JsMap.get productID e) as [existingProduct|] eqn:Hex.
  - pose proof (updatedProduct_spec existingProduct (Group.row group)
                  (Group.variants group) vendorId manufacturerId w2) as Hspec.
    destruct (updatedProduct _ _ _ _ _ _) as [[doc|?] w3]; [|by subst].
    destruct Hspec as (-> & Hpid & Hdoc & Hvar).
    assert (Hgood : forall doc' : Doc,
      field "variants" doc' = field "variants" doc ->
      op_all Q (BulkOp.mk productID ((fun k => (k, field k doc')) <$> setFields) None true)).
    { intros doc' Hv. split; [|cbn; apply not_elem_of_nil].
      intros l Hin. cbn [BulkOp.update_set] in Hin.
      apply DocFacts.elem_of_fields in Hin. rewrite Hv, Hvar in Hin.
      injection Hin as ->. apply Forall_forall. intros v Hv'.
      apply MergeFacts.mergeVariants_origin in Hv' as [Hv'|Hv'].
      - specialize (He _ _ Hex). by eapply Forall_forall in He.
      - specialize (HG _ _ Hgroup). by eapply Forall_forall in HG. }
    destruct (falsy (field "docId" doc)); cbn.
    + split; [done|]. apply Hgood; by rewrite DocFacts.field_set_ne.
    + split; [done | by apply Hgood].
  - destruct (newProduct_spec productID (Group.row group) (Group.variants group)
                vendorId manufacturerId w2) as (doc & -> & Hpid & Hdoc & Hvar).
    assert (Hgood : forall (doc' : Doc) docId,
      field "variants" doc' = field "variants" doc ->
      op_all Q (BulkOp.mk productID ((fun k => (k, field k doc')) <$> setFields)
                 (Some [("docId", docId)]) true)).
    { intros doc' docId Hv. split.
      - intros l Hin. cbn [BulkOp.update_set] in Hin.
        apply DocFacts.elem_of_fields in Hin. rewrite Hv, Hvar in Hin.
        injection Hin as ->. by eapply HG.
      - cbn. by intros [=]%list_elem_of_singleton. }
    destruct (falsy (field "docId" doc)) eqn:Hfalsy.
    + cbv beta iota delta [mbind M_bind log nanoid mret M_ret].
      rewrite DocFacts.field_set_eq. cbn [falsy].
      destruct (bool_decide _); cbv beta iota;
      (split; [done|]; apply Hgood; by rewrite DocFacts.field_set_ne).
    + cbv beta iota delta [mbind M_bind log nanoid mret M_ret].
      rewrite Hfalsy. cbv beta iota. split; [done | by apply Hgood].
Qed.

Lemma processChunk_lineage chunk w :
  variants_all Q (store w) -> variants_all Q (store (processChunk parseFloat chunk w).2).
Proof.
  intros Hw. unfold processChunk. unfold mbind at 1, M_bind at 1.
  pose proof (Hoare.reduce_
    (fun _ acc w => variants_all Q (store w) /\
       forall k g, JsMap.get k acc = Some g -> Forall Q (Group.variants g))
    (groupRow parseFloat) (fun w => variants_all Q (store w)) chunk [] JsMap.empty
    (fun _ acc x _ => groupRow_lineage acc x) w) as Hred.
  destruct (reduce _ chunk JsMap.empty w) as [[G|?] w1]; [|by apply Hred].
  destruct Hred as [Hw1 HG]; [by split|]. clear Hw.
  unfold mbind at 1, M_bind at 1. unfold productFind, request.
  destruct (faults w1 (length (journal w1))); [done|].
  cbv beta iota. set (docs := List.filter _ _).
  set (w2 := issued _ _ w1).
  assert (Hw2 : variants_all Q (store w2)) by done.
  assert (He : forall k doc,
    JsMap.get k (fold_left indexProduct docs JsMap.empty) = Some doc ->
    Forall Q (variants_of doc)).
  { intros k doc [[Hin Hf]|?]%get_fold_indexProduct; [|done].
    apply Hw1. subst docs. apply list_elem_of_In, filter_In in Hin as [Hin _].
    by apply list_elem_of_In. }
  unfold mbind at 1, M_bind at 1.
  pose proof (Hoare.forEach_ (fun _ w => variants_all Q (store w))
    (fun _ op => op_all Q op)
    (processGroup G (fold_left indexProduct docs JsMap.empty))
    (fun w => variants_all Q (store w))
    (Js.ownKeys (JsMap.keys G)) []) as Hloop.
  specialize (Hloop (fun _ productID _ w Hw => processGroup_lineage G _ productID w Hw HG He)
                w2 Hw2).
  destruct (forEach _ _ w2) as [[ops|?] w3]; [|done].
  destruct Hloop as [Hw3 Hops].
  destruct (0 <? length ops)%nat; [|done].
  assert (Hgood : Forall (op_all Q) ops).
  { clear -Hops. induction Hops; by constructor. }
  unfold try_catch, productBulkWrite, request.
  destruct (faults w3 (length (journal w3))); cbv beta iota; cbn [snd log mbind M_bind throw].
  - done.
  - intros doc Hdoc. cbn in Hdoc. by eapply bulkWrite_all.
Qed.

Lemma handle_lineage run event w :
  variants_all Q (store w) -> variants_all Q (store (handle parseFloat run event w).2).
Proof.
  intros Hw.
  assert (Hattempt : forall context chunk,
    variants_all Q (store (attempt parseFloat context chunk w))).
  { intros context chunk. apply (processChunk_lineage chunk) in Hw. unfold attempt.
    by destruct (processChunk parseFloat chunk w) as [[[]|e] w']. }
  destruct event as [row| |error]; cbn [handle].
  - unfold onData. destruct (_ <=? _)%nat; [|done].
    unfold mbind, M_bind. rewrite guarded_processChunk. apply Hattempt.
  - unfold onEnd, mbind, M_bind. destruct (_ <? _)%nat.
    + rewrite guarded_processChunk. apply Hattempt.
    + done.
  - done.
Qed.

Lemma importProducts_lineage events w :
  variants_all Q (store w) -> variants_all Q (store (importProducts parseFloat events w).2).
Proof.
  intros Hw. unfold importProducts, mbind, M_bind. cbn [log].
  apply (variants_all_products w (logged Log "Starting product import" w) eq_refl) in Hw.
  generalize (mkRun [] Pending) as run. revert Hw.
  generalize (logged Log "Starting product import" w) as w'.
  induction events as [|event events IH]; intros w' Hw run; [done|].
  cbn [reduce]. unfold mbind, M_bind.
  apply (handle_lineage run event) in Hw.
  destruct (handle parseFloat run event w') as [[run'|?] w'']; [|done].
  by apply IH.
Qed.

End Lineage.

(** * What a run leaves untouched *)

Section Pipeline.
Variable parseFloat : option string -> float.

(** Whatever the events and the faults of the store, a run leaves the two
    caches of the instance as they were, keeps every stored document at its
    position with its document id and product id, writes the document id in
    no [$set], and keeps a store of conforming variants conforming. *)
Lemma importProducts_frame events w :
  within w (importProducts parseFloat events w).2.
Proof. apply importProducts_within, WithinFacts.within_refl. Qed.

(** C5. The bulk writes of a run (the requests it adds to the journal) set
    the document id in no [$set] and hold it alone in [$setOnInsert]; and
    every document the store held before the run is still at its position
    after it with the document id it had, a missing one included. *)
Theorem docId_written_on_insert_only events w :
  let w' := (importProducts parseFloat events w).2 in
  (exists calls, journal w' = journal w ++ calls /\
     forall ops, ProductBulkWrite ops ∈ calls -> Forall docId_insert_only ops) /\
  docIds_kept (Store.products (store w)) (Store.products (store w')).
Proof.
  cbv zeta. destruct (importProducts_frame events w). by split.
Qed.

(** C10. Every variant [constructVariant] builds has currency EUR and is
    active, whatever the row; and every variant a product holds after a
    run, whatever the events, the store and its faults, has currency EUR
    and is active, or is a variant some product held before the run. *)
Theorem variants_in_EUR_and_active :
  (forall row w,
     exists v w', constructVariant parseFloat row w = (Returned v, w') /\
       Variant.currency v = "EUR" /\ Variant.active v = true) /\
  (forall events w doc v,
     doc ∈ Store.products (store (importProducts parseFloat events w).2) ->
     v ∈ variants_of doc ->
     (Variant.currency v = "EUR" /\ Variant.active v = true) \/
     stored_variant (store w) v).
Proof.
  split.
  - intros row w. destruct (constructVariant_returns parseFloat row w)
      as (v & Hv & _ & _ & _ & _ & Hc & Ha). by exists v, (drew (drew (drew w))).
  - intros events w doc v Hdoc Hv.
    pose proof (importProducts_lineage parseFloat
      (fun v => conforming v \/ stored_variant (store w) v)
      (fun v H => or_introl H) events w) as H.
    assert (Hall : Forall (fun v => conforming v \/ stored_variant (store w) v)
                     (variants_of doc)).
    { apply H; [|done]. intros d Hd. apply Forall_forall. intros v' Hv'. right. by exists d. }
    by eapply Forall_forall in Hall.
Qed.

(** The two maps declared as caches are never written: after any run they
    are what they were before it. *)
Theorem caches_never_written events w :
  vendorCache (importProducts parseFloat events w).2 = vendorCache w /\
  manufacturerCache (importProducts parseFloat events w).2 = manufacturerCache w.
Proof. by destruct (importProducts_frame events w). Qed.

End Pipeline.

(** * Running the pipeline twice *)

Lemma well_formed_distinct s : well_formed s -> distinct_products s.
Proof. by intros [(_ & _ & Hp & _) _]. Qed.

Lemma well_formed_readable s :
  well_formed s -> forall doc, doc ∈ Store.products s -> variants_readable doc.
Proof. intros [_ Hdocs] doc Hdoc. by destruct (Hdocs doc Hdoc). Qed.

(** ** The grouping of a chunk *)

Section Grouping.
Variable parseFloat : option string -> float.

Lemma rows_of_snoc productID rows row :
  rows_of productID (rows ++ [row]) =
    rows_of productID rows ++
      (if decide (valid row = true /\ productID_of row = productID) then [row] else []).
Proof. unfold rows_of. by rewrite filter_app. Qed.

Lemma parseNumber_not_changed value :
  num_neq (parseNumber parseFloat value) (parseNumber parseFloat value) = false.
Proof.
  unfold num_neq, parseNumber.
  destruct (PrimFloat.is_nan (parseFloat value)) eqn:E; [done|].
  unfold PrimFloat.is_nan in E. by rewrite negb_false_iff in E |- *.
Qed.

(** Two variants built from one row show no change to each other. *)
Lemma built_from_not_updated row v v' :
  built_from parseFloat row v -> built_from parseFloat row v' -> isVariantUpdated v v' = false.
Proof.
  intros (_ & Hp & Ha & Hd) (_ & Hp' & Ha' & Hd'). unfold isVariantUpdated.
  rewrite Hp, Hp', Ha, Ha', Hd, Hd', parseNumber_not_changed.
  unfold bool_neq, str_neq. rewrite Bool.eqb_reflx, bool_decide_eq_true_2; done.
Qed.

(** Change detection reads the three compared fields only. *)
Lemma isVariantUpdated_built row a v v' :
  built_from parseFloat row v -> built_from parseFloat row v' ->
  isVariantUpdated a v = isVariantUpdated a v'.
Proof.
  intros (_ & Hp & Ha & Hd) (_ & Hp' & Ha' & Hd'). unfold isVariantUpdated.
  by rewrite Hp, Hp', Ha, Ha', Hd, Hd'.
Qed.

Lemma constructVariant_built row w :
  exists v, constructVariant parseFloat row w = (Returned v, drew (drew (drew w))) /\
    built_from parseFloat row v.
Proof.
  destruct (constructVariant_returns parseFloat row w) as (v & Hv & Ha & Hp & Hd & Hs & _).
  exists v. by repeat split.
Qed.

Lemma groupRow_groups (chunk seen : list Row) acc row (S : Store.t) (F : nat -> option string) :
  row ∈ chunk ->
  hoare
    (fun w => store w = S /\ faults w = F /\ ~ crashing seen /\ groups_of parseFloat seen acc)
    (groupRow parseFloat acc row)
    (fun acc' w => store w = S /\ faults w = F /\ ~ crashing (seen ++ [row]) /\
                   groups_of parseFloat (seen ++ [row]) acc')
    (fun w => store w = S /\ faults w = F /\ crashing chunk).
Proof.
  intros Hrow w (HS & HF & Hcrash & Hnd & Hnone & Hsome). unfold groupRow.
  destruct (Js.falsy _ || Js.falsy _) eqn:Hvalid.
  { assert (Hv : valid row = false) by (unfold valid; by rewrite Hvalid).
    cbn. unfold groups_of. split_and!; try done.
    - unfold crashing. rewrite Exists_app, Exists_cons, Exists_nil.
      unfold not. intros Hc. destruct Hc as [?|[[? _]|?]]; [done | congruence | done].
    - intros pid Hg. rewrite rows_of_snoc, decide_False, app_nil_r by (intros [? _]; congruence).
      by apply Hnone.
    - intros pid g Hg. rewrite rows_of_snoc, decide_False, app_nil_r by (intros [? _]; congruence).
      by apply Hsome. }
  assert (Hv : valid row = true) by (unfold valid; by rewrite Hvalid).
  unfold mbind, M_bind.
  destruct (constructVariant_built row w) as (v & -> & Hbuilt).
  fold (productID_of row). set (key := productID_of row).
  destruct (Js.inherited key) eqn:Hinh.
  - rewrite orb_true_r.
    assert (Hget : JsMap.get key acc = None).
    { destruct (JsMap.get key acc) as [g|] eqn:Hg; [|done].
      destruct (Hsome _ _ Hg) as (rest & Hrows & _). exfalso. apply Hcrash.
      assert (Hin : Group.row g ∈ rows_of key seen)
        by (rewrite Hrows; apply elem_of_cons; by left).
      apply list_elem_of_filter in Hin as [[Hvg Hpg] Hin].
      apply Exists_exists. exists (Group.row g). rewrite Hpg. by repeat split. }
    rewrite Hget. cbn. unfold groups_of. split_and!; try done.
    apply Exists_exists. exists row. by repeat split.
  - rewrite orb_false_r.
    assert (Hnocrash : ~ crashing (seen ++ [row])).
    { unfold crashing. rewrite Exists_app, Exists_cons, Exists_nil.
      unfold not. intros Hc. destruct Hc as [?|[[_ Hi]|?]]; [done | | done].
      fold key in Hi. congruence. }
    destruct (JsMap.has key acc) eqn:Hhas.
    + unfold JsMap.has in Hhas. destruct (JsMap.get key acc) as [g|] eqn:Hg; [|done].
      cbn. unfold groups_of. split_and!; try done.
      * by apply JsMapFacts.NoDup_keys_set.
      * intros pid. rewrite JsMapFacts.get_set. destruct (decide (pid = key)); [done|].
        intros Hp. rewrite rows_of_snoc, decide_False, app_nil_r by (intros [_ ?]; done).
        by apply Hnone.
      * intros pid g'. rewrite JsMapFacts.get_set, rows_of_snoc.
        destruct (decide (pid = key)) as [->|Hne].
        -- intros [= <-]. cbn. rewrite decide_True by done.
           destruct (Hsome _ _ Hg) as (rest & Hrows & Hall).
           exists (rest ++ [row]). rewrite Hrows at 1. split; [done|].
           apply Forall2_app; [done | by constructor].
        -- intros Hg'. rewrite decide_False, app_nil_r by (intros [_ ?]; done).
           by apply Hsome.
    + apply JsMapFacts.has_false in Hhas. rewrite JsMapFacts.get_set_eq.
      cbn. unfold groups_of. split_and!; try done.
      * by do 2 apply JsMapFacts.NoDup_keys_set.
      * intros pid. rewrite !JsMapFacts.get_set. destruct (decide (pid = key)); [done|].
        intros Hp. rewrite rows_of_snoc, decide_False, app_nil_r by (intros [_ ?]; done).
        by apply Hnone.
      * intros pid g'. rewrite !JsMapFacts.get_set, rows_of_snoc.
        destruct (decide (pid = key)) as [->|Hne].
        -- intros [= <-]. cbn. rewrite decide_True by done.
           rewrite (Hnone _ Hhas). cbn. exists []. split; [done|].
           constructor; [done | constructor].
        -- intros Hg'. rewrite decide_False, app_nil_r by (intros [_ ?]; done).
           by apply Hsome.
Qed.

(** The grouping of a chunk: it leaves the store alone, and it throws
    exactly on a crashing chunk. *)
Lemma grouping_spec chunk w :
  match reduce (groupRow parseFloat) chunk JsMap.empty w with
  | (Returned G, w') =>
      store w' = store w /\ faults w' = faults w /\ ~ crashing chunk /\ groups_of parseFloat chunk G
  | (Thrown _, w') => store w' = store w /\ faults w' = faults w /\ crashing chunk
  end.
Proof.
  pose proof (Hoare.reduce_
    (fun seen acc w' =>
       store w' = store w /\ faults w' = faults w /\ ~ crashing seen /\
       groups_of parseFloat seen acc)
    (groupRow parseFloat)
    (fun w' => store w' = store w /\ faults w' = faults w /\ crashing chunk)
    chunk [] JsMap.empty) as H.
  apply H.
  - intros seen acc row Hrow. by apply groupRow_groups.
  - split_and!; try done.
    + unfold crashing. rewrite Exists_nil. by intros Hf.
    + unfold groups_of. split_and!; [constructor | done | done].
Qed.

Lemma groupRow_keys (seen : list Row) acc row :
  hoare
    (fun w => JsMap.keys acc =
              distinct (productID_of <$> filter (fun row => valid row = true) seen))
    (groupRow parseFloat acc row)
    (fun acc' w => JsMap.keys acc' =
       distinct (productID_of <$> filter (fun row => valid row = true) (seen ++ [row])))
    (fun _ => True).
Proof.
  intros w Hkeys. unfold groupRow.
  destruct (Js.falsy _ || Js.falsy _) eqn:Hvalid.
  { cbn. rewrite filter_app, filter_cons, decide_False, filter_nil, app_nil_r; [done|].
    unfold valid. by rewrite Hvalid. }
  assert (Hv : valid row = true) by (unfold valid; by rewrite Hvalid).
  unfold mbind, M_bind.
  destruct (constructVariant_returns parseFloat row w) as (v & -> & _).
  fold (productID_of row). set (key := productID_of row).
  rewrite filter_app, filter_cons, decide_True, filter_nil, fmap_app by done.
  cbn [fmap list_fmap]. fold key. rewrite MergeFacts.distinct_snoc.
  destruct (JsMap.has key acc) eqn:Hhas; cbn [orb].
  - destruct (JsMap.get key acc) as [g|] eqn:Hget; [|done].
    assert (Hin : key ∈ JsMap.keys acc) by (by eapply JsMapFacts.get_Some_keys).
    cbn [mret M_ret]. rewrite JsMapFacts.keys_set_present by done.
    rewrite decide_True; [done|]. rewrite Hkeys in Hin.
    by rewrite MergeFacts.elem_of_distinct in Hin.
  - assert (Hnin : key ∉ JsMap.keys acc).
    { apply JsMapFacts.has_false in Hhas. by apply JsMapFacts.get_None. }
    destruct (Js.inherited key).
    + apply JsMapFacts.get_None in Hnin. by rewrite Hnin.
    + rewrite JsMapFacts.get_set_eq. cbn [mret M_ret].
      rewrite JsMapFacts.keys_set_present
        by (rewrite JsMapFacts.keys_set, decide_False by done; set_solver).
      rewrite JsMapFacts.keys_set. destruct (decide (key ∈ JsMap.keys acc)); [done|].
      rewrite decide_False; [by rewrite Hkeys|].
      rewrite Hkeys in Hnin. by rewrite MergeFacts.elem_of_distinct in Hnin.
Qed.

Lemma grouping_keys chunk w :
  match reduce (groupRow parseFloat) chunk JsMap.empty w with
  | (Returned G, _) => Js.ownKeys (JsMap.keys G) = group_ids chunk
  | (Thrown _, _) => True
  end.
Proof.
  pose proof (Hoare.reduce_
    (fun seen acc _ => JsMap.keys acc =
       distinct (productID_of <$> filter (fun row => valid row = true) seen))
    (groupRow parseFloat) (fun _ => True) chunk [] JsMap.empty
    (fun seen acc row _ => groupRow_keys seen acc row) w eq_refl) as H.
  destruct (reduce _ chunk JsMap.empty w) as [[G|?] w1]; [|done].
  unfold group_ids. by rewrite H.
Qed.

End Grouping.

(** ** The order of [Object.keys] *)

Lemma insert_index_Permutation k l : Js.insert_index k l ≡ₚ k :: l.
Proof.
  induction l as [|k' l IH]; cbn; [done|].
  destruct (_ <=? _)%Z; [done|]. rewrite IH. apply Permutation_swap.
Qed.

Lemma ownKeys_Permutation ks : Js.ownKeys ks ≡ₚ ks.
Proof.
  unfold Js.ownKeys.
  transitivity (filter (fun k => Js.array_index k ≠ None) ks ++
                filter (fun k => ~ Js.array_index k ≠ None) ks);
    [|apply filter_app_complement].
  apply Permutation_app.
  - induction ks as [|k ks IH]; [done|].
    rewrite filter_cons. cbn [omap list_omap].
    destruct (Js.array_index k) as [n|] eqn:E; cbn [fmap option_fmap option_map].
    + rewrite decide_True by done. cbn [foldr].
      rewrite insert_index_Permutation. cbn. by rewrite IH.
    + by rewrite decide_False by (by intros []).
  - erewrite list_filter_iff; [done|]. intros k. cbn beta.
    destruct (Js.array_index k); split; try done.
    + by intros [].
    + intros _ H. by apply H.
Qed.

(** ** Documents as insertion ordered maps *)

Module JsMapExt.

Section Values.
Context {V : Type}.
Implicit Types (m : JsMap.t V) (k : string) (v : V).

(** Two maps with the same keys in the same order and the same value under
    every key are equal. *)
Lemma ext m1 m2 :
  JsMap.keys m1 = JsMap.keys m2 -> NoDup (JsMap.keys m1) ->
  (forall k, JsMap.get k m1 = JsMap.get k m2) -> m1 = m2.
Proof.
  revert m2. induction m1 as [|[k v] m1 IH]; intros [|[k' v'] m2]; try done.
  cbn. intros [= <- Hk] Hnd Hget. apply NoDup_cons in Hnd as [Hnotin Hnd].
  pose proof (Hget k) as Hk0. cbn in Hk0. rewrite !decide_True in Hk0 by done.
  injection Hk0 as <-. f_equal. apply IH; [done | done |].
  intros k0. specialize (Hget k0). cbn in Hget.
  destruct (decide (k0 = k)) as [->|]; [|done].
  assert (H1 : JsMap.get k m1 = None) by (by apply JsMapFacts.get_None).
  assert (H2 : JsMap.get k m2 = None).
  { apply JsMapFacts.get_None. unfold JsMap.keys in *. by rewrite <- Hk. }
  by rewrite H1, H2.
Qed.

Lemma get_elem_of m k v : JsMap.get k m = Some v -> (k, v) ∈ m.
Proof.
  induction m as [|[k' v'] m IH]; cbn; [done|].
  destruct (decide (k = k')) as [->|].
  - intros [= ->]. apply elem_of_cons. by left.
  - intros H. apply elem_of_cons. right. by apply IH.
Qed.

End Values.

End JsMapExt.

Module AssignFacts.

Implicit Types (doc : Doc) (fields : list (string * Value)).

Lemma keys_assign_present fields doc :
  (forall k, k ∈ fields.*1 -> k ∈ JsMap.keys doc) ->
  JsMap.keys (assign fields doc) = JsMap.keys doc.
Proof.
  revert doc. induction fields as [|[k v] fields IH]; intros doc H; [done|].
  rewrite DocFacts.assign_cons, IH.
  - apply JsMapFacts.keys_set_present, H. cbn. apply elem_of_cons. by left.
  - intros k' Hk'. rewrite JsMapFacts.keys_set_present.
    + apply H. cbn. apply elem_of_cons. by right.
    + apply H. cbn. apply elem_of_cons. by left.
Qed.

Lemma NoDup_keys_assign fields doc :
  NoDup (JsMap.keys doc) -> NoDup (JsMap.keys (assign fields doc)).
Proof.
  revert doc. induction fields as [|[k v] fields IH]; intros doc H; [done|].
  rewrite DocFacts.assign_cons. by apply IH, JsMapFacts.NoDup_keys_set.
Qed.

Lemma keys_assign_subseteq fields doc k :
  k ∈ JsMap.keys doc \/ k ∈ fields.*1 -> k ∈ JsMap.keys (assign fields doc).
Proof.
  revert doc. induction fields as [|[k' v] fields IH]; intros doc.
  - intros [?|?%elem_of_nil]; done.
  - rewrite DocFacts.assign_cons. intros H. apply IH.
    rewrite JsMapFacts.keys_set. cbn in H. rewrite elem_of_cons in H.
    destruct (decide (k' ∈ JsMap.keys doc)).
    + destruct H as [?|[->|?]]; auto.
    + rewrite elem_of_app, list_elem_of_singleton. tauto.
Qed.

Lemma get_assign_notin fields doc k :
  k ∉ fields.*1 -> JsMap.get k (assign fields doc) = JsMap.get k doc.
Proof.
  revert doc. induction fields as [|[k' v'] fields IH]; intros doc Hk; [done|].
  rewrite fmap_cons, not_elem_of_cons in Hk. destruct Hk as [Hne Hk].
  rewrite DocFacts.assign_cons, IH by done. apply JsMapFacts.get_set_ne.
  cbn in Hne. congruence.
Qed.

Lemma get_assign_in fields doc k v :
  NoDup fields.*1 -> (k, v) ∈ fields -> JsMap.get k (assign fields doc) = Some v.
Proof.
  revert doc. induction fields as [|[k' v'] fields IH]; intros doc Hnd Hin.
  - by apply elem_of_nil in Hin.
  - rewrite fmap_cons in Hnd. apply NoDup_cons in Hnd as [Hnotin Hnd].
    rewrite DocFacts.assign_cons. apply elem_of_cons in Hin as [[= -> ->]|Hin].
    + rewrite get_assign_notin by done. apply JsMapFacts.get_set_eq.
    + by apply IH.
Qed.

Lemma field_assign fields doc k v :
  NoDup fields.*1 -> (k, v) ∈ fields -> field k (assign fields doc) = v.
Proof. intros. unfold field. by erewrite get_assign_in. Qed.

(** Assigning the values the fields already have changes nothing. *)
Lemma assign_id fields doc :
  (forall k v, (k, v) ∈ fields -> JsMap.get k doc = Some v) -> assign fields doc = doc.
Proof.
  induction fields as [|[k v] fields IH]; intros H; [done|].
  rewrite DocFacts.assign_cons, JsMapFacts.set_get_id.
  - apply IH. intros k' v' Hin. apply H, elem_of_cons. by right.
  - apply H, elem_of_cons. by left.
Qed.

Lemma get_in fields k v :
  NoDup fields.*1 -> (k, v) ∈ fields -> JsMap.get k fields = Some v.
Proof.
  induction fields as [|[k' v'] fields IH]; intros Hnd Hin.
  - by apply elem_of_nil in Hin.
  - rewrite fmap_cons in Hnd. apply NoDup_cons in Hnd as [Hnotin Hnd]. cbn.
    apply elem_of_cons in Hin as [[= -> ->]|Hin]; [by rewrite decide_True|].
    rewrite decide_False; [by apply IH|]. intros ->. apply Hnotin.
    by apply (list_elem_of_fmap_2 fst) in Hin.
Qed.

Lemma overwrite_ext f g doc : (forall k, f k = g k) -> overwrite f doc = overwrite g doc.
Proof.
  revert f g. induction doc as [|[k v] doc IH]; intros f g H; [done|]. cbn.
  rewrite H. f_equal. apply IH. intros k'. by destruct (decide _).
Qed.

Lemma overwrite_none doc : overwrite (fun _ => None) doc = doc.
Proof.
  induction doc as [|[k v] doc IH]; [done|]. cbn. f_equal.
  rewrite <- IH at 2. apply overwrite_ext. intros k'. by destruct (decide _).
Qed.

(** Two overwritings that leave the same value under every key agree. *)
Lemma overwrite_eq f g doc :
  (forall k v, JsMap.get k doc = Some v -> default v (f k) = default v (g k)) ->
  overwrite f doc = overwrite g doc.
Proof.
  revert f g. induction doc as [|[k v] doc IH]; intros f g H; [done|]. cbn.
  f_equal.
  - f_equal. apply H. cbn. by rewrite decide_True.
  - apply IH. intros k' v' Hget. destruct (decide (k' = k)) as [->|Hne]; [done|].
    apply H. cbn. by rewrite decide_False.
Qed.

Lemma overwrite_set f doc k v :
  f k = None -> k ∈ JsMap.keys doc ->
  overwrite f (JsMap.set k v doc) =
    overwrite (fun k' => if decide (k' = k) then Some v else f k') doc.
Proof.
  revert f. induction doc as [|[k0 v0] doc IH]; intros f Hf Hk.
  - by apply elem_of_nil in Hk.
  - cbn [JsMap.set]. destruct (decide (k = k0)) as [<-|Hne].
    + cbn. rewrite Hf, decide_True by done. cbn. f_equal.
      apply overwrite_ext. intros k'. by destruct (decide (k' = k)).
    + cbn. rewrite decide_False by congruence. f_equal.
      rewrite IH.
      * apply overwrite_ext. intros k'.
        destruct (decide (k' = k)) as [->|]; [by rewrite decide_False|done].
      * by rewrite decide_False.
      * cbn in Hk. apply elem_of_cons in Hk as [?|?]; [congruence | done].
Qed.

(** An assignment of fields that are all present overwrites them. *)
Lemma assign_overwrite fields doc :
  NoDup fields.*1 -> (forall k, k ∈ fields.*1 -> k ∈ JsMap.keys doc) ->
  assign fields doc = overwrite (fun k => JsMap.get k fields) doc.
Proof.
  revert doc. induction fields as [|[k v] fields IH]; intros doc Hnd Hin.
  - cbn. symmetry. apply overwrite_none.
  - rewrite fmap_cons in Hnd. apply NoDup_cons in Hnd as [Hk Hnd].
    rewrite DocFacts.assign_cons, IH; [|done|].
    + rewrite overwrite_set.
      * apply overwrite_ext. intros k'. cbn. by destruct (decide (k' = k)).
      * by apply JsMapFacts.get_None.
      * apply Hin. cbn. apply elem_of_cons. by left.
    + intros k' Hk'. rewrite JsMapFacts.keys_set_present.
      * apply Hin. cbn. apply elem_of_cons. by right.
      * apply Hin. cbn. apply elem_of_cons. by left.
Qed.

Lemma overwrite_overwrite f g doc :
  overwrite g (overwrite f doc) =
    overwrite (fun k => match g k with Some v => Some v | None => f k end) doc.
Proof.
  revert f g. induction doc as [|[k v] doc IH]; intros f g; [done|]. cbn. f_equal.
  - f_equal. by destruct (g k).
  - rewrite IH. apply overwrite_ext. intros k'. by destruct (decide (k' = k)).
Qed.

Lemma keys_overwrite f doc : JsMap.keys (overwrite f doc) = JsMap.keys doc.
Proof.
  revert f. induction doc as [|[k v] doc IH]; intros f; [done|]. cbn. f_equal. apply IH.
Qed.

(** A second assignment of the same fields overrides the first. *)
Lemma assign_assign fields1 fields2 doc :
  fields1.*1 = fields2.*1 -> NoDup fields2.*1 ->
  (forall k, k ∈ fields2.*1 -> k ∈ JsMap.keys doc) ->
  assign fields2 (assign fields1 doc) = assign fields2 doc.
Proof.
  intros Hk Hnd Hin.
  rewrite (assign_overwrite fields1 doc) by (rewrite Hk; done).
  rewrite !assign_overwrite; try done.
  - rewrite overwrite_overwrite. apply overwrite_ext. intros k.
    destruct (JsMap.get k fields2) eqn:E2; [done|].
    apply JsMapFacts.get_None. apply JsMapFacts.get_None in E2.
    change (k ∉ fields1.*1). by rewrite Hk.
  - intros k H. rewrite keys_overwrite. by apply Hin.
Qed.

End AssignFacts.

(** ** What a bulk write does to a store without duplicates *)

Module BulkFacts.

Implicit Types (doc : Doc) (docs : list Doc) (op : BulkOp.t) (ops : list BulkOp.t).

Lemma has_productID_in p doc : has_productID p doc = true <-> productID_in doc = Some p.
Proof.
  unfold has_productID, productID_in. destruct (field "productID" doc); try (split; done).
  rewrite bool_decide_eq_true. split; [by intros -> | by intros [= ->]].
Qed.

Lemma has_productID_false p doc : has_productID p doc = false <-> productID_in doc ≠ Some p.
Proof.
  rewrite <- has_productID_in. destruct (has_productID p doc); split; done.
Qed.

Lemma stored_None p docs : stored p docs = None <-> p ∉ omap productID_in docs.
Proof.
  unfold stored. induction docs as [|d docs IH]; cbn.
  - split; [intros _; apply not_elem_of_nil | done].
  - destruct (has_productID p d) eqn:E.
    + apply has_productID_in in E. rewrite E. split; [done|].
      intros H. destruct H. apply elem_of_cons. by left.
    + apply has_productID_false in E. rewrite IH. destruct (productID_in d) as [q|]; [|done].
      rewrite not_elem_of_cons. split; [|tauto]. intros H. split; [congruence | done].
Qed.

Lemma stored_Some p docs doc :
  stored p docs = Some doc -> doc ∈ docs /\ productID_in doc = Some p.
Proof.
  unfold stored. intros H. apply find_some in H as [Hin Hp].
  split; [by apply list_elem_of_In | by apply has_productID_in].
Qed.

(** In a store without duplicate products a document is the one stored
    under its product id. *)
Lemma stored_member p docs doc :
  NoDup (omap productID_in docs) -> doc ∈ docs -> productID_in doc = Some p ->
  stored p docs = Some doc.
Proof.
  unfold stored. induction docs as [|d docs IH]; intros Hnd Hin Hp.
  - by apply elem_of_nil in Hin.
  - cbn in *. destruct (has_productID p d) eqn:E.
    + apply has_productID_in in E. rewrite E in Hnd.
      apply NoDup_cons in Hnd as [Hnotin _].
      apply elem_of_cons in Hin as [->|Hin]; [done|]. destruct Hnotin.
      apply list_elem_of_omap. by exists doc.
    + apply elem_of_cons in Hin as [->|Hin].
      * apply has_productID_in in Hp. congruence.
      * apply IH; try done. destruct (productID_in d); [by apply NoDup_cons in Hnd as [_ ?] | done].
Qed.

Lemma productID_in_assign op doc :
  keeps_productID op -> productID_in doc = Some (BulkOp.filter_productID op) ->
  productID_in (assign (BulkOp.update_set op) doc) = Some (BulkOp.filter_productID op).
Proof.
  intros Hk Hp. unfold productID_in in *.
  destruct (decide ("productID" ∈ (BulkOp.update_set op).*1)) as [Hin|Hnin].
  - destruct (DocFacts.field_assign_in _ doc _ Hin) as (v & Hv & ->). by rewrite (Hk v Hv).
  - by rewrite DocFacts.field_assign_notin.
Qed.

Lemma productID_in_patch1 op doc :
  keeps_productID op -> productID_in (patch1 op doc) = productID_in doc.
Proof.
  intros Hk. unfold patch1. destruct (has_productID _ doc) eqn:E; [|done].
  apply has_productID_in in E. rewrite E. by apply productID_in_assign.
Qed.

Lemma productID_in_inserted op :
  docId_insert_only op -> keeps_productID op ->
  productID_in (inserted op) = Some (BulkOp.filter_productID op).
Proof.
  intros [_ Hsoi] Hk. unfold inserted.
  assert (H : productID_in (assign (BulkOp.update_set op)
                 [("productID", VString (BulkOp.filter_productID op))])
              = Some (BulkOp.filter_productID op)) by (by apply productID_in_assign).
  unfold productID_in in *. rewrite DocFacts.field_assign_notin; [done|].
  destruct (BulkOp.update_setOnInsert op) as [fields|]; cbn.
  - rewrite (Hsoi fields eq_refl). by intros [=]%list_elem_of_singleton.
  - apply not_elem_of_nil.
Qed.

Lemma omap_productID_patch1 op docs :
  keeps_productID op -> omap productID_in (patch1 op <$> docs) = omap productID_in docs.
Proof.
  intros Hk. induction docs as [|d docs IH]; [done|]. cbn.
  by rewrite productID_in_patch1, IH.
Qed.

Lemma patch1_unmatched op docs :
  stored (BulkOp.filter_productID op) docs = None -> patch1 op <$> docs = docs.
Proof.
  unfold stored. induction docs as [|d docs IH]; cbn; [done|].
  unfold patch1 at 1. destruct (has_productID _ d); [done|]. intros H. by rewrite IH.
Qed.

Lemma updateOne_patch op docs :
  NoDup (omap productID_in docs) -> BulkOp.upsert op = true ->
  updateOne op docs =
    (patch1 op <$> docs) ++
    match stored (BulkOp.filter_productID op) docs with
    | Some _ => []
    | None => [inserted op]
    end.
Proof.
  intros Hnd Hup. induction docs as [|d docs IH]; cbn.
  - by rewrite Hup.
  - unfold stored, patch1 at 1. cbn. destruct (has_productID _ d) eqn:E.
    + rewrite app_nil_r. f_equal. symmetry. apply patch1_unmatched, stored_None.
      apply has_productID_in in E. cbn in Hnd. rewrite E in Hnd.
      by apply NoDup_cons in Hnd as [? _].
    + cbn. f_equal. apply IH. cbn in Hnd.
      destruct (productID_in d); [by apply NoDup_cons in Hnd as [_ ?] | done].
Qed.

Lemma patch_unmatched ops doc :
  (forall op, op ∈ ops -> productID_in doc ≠ Some (BulkOp.filter_productID op)) ->
  patch ops doc = doc.
Proof.
  unfold patch. induction ops as [|op ops IH]; intros H; [done|]. cbn.
  assert (Hop : patch1 op doc = doc).
  { unfold patch1. rewrite (proj2 (has_productID_false _ _)); [done|].
    apply H, elem_of_cons. by left. }
  rewrite Hop. apply IH. intros op' Hin. apply H, elem_of_cons. by right.
Qed.

Lemma patch_matched ops op doc :
  NoDup (BulkOp.filter_productID <$> ops) -> Forall keeps_productID ops ->
  op ∈ ops -> productID_in doc = Some (BulkOp.filter_productID op) ->
  patch ops doc = assign (BulkOp.update_set op) doc.
Proof.
  unfold patch. revert doc. induction ops as [|op' ops IH]; intros doc Hnd Hk Hin Hp.
  - by apply elem_of_nil in Hin.
  - rewrite fmap_cons in Hnd. apply NoDup_cons in Hnd as [Hnotin Hnd].
    inversion Hk as [|? ? Hk' Hks]; subst. cbn.
    apply elem_of_cons in Hin as [->|Hin].
    + unfold patch1 at 2. rewrite (proj2 (has_productID_in _ _)) by done.
      apply patch_unmatched. intros op Hop. rewrite productID_in_assign by done.
      intros [= Heq]. apply Hnotin. rewrite Heq. by apply list_elem_of_fmap_2.
    + assert (Hne : BulkOp.filter_productID op' ≠ BulkOp.filter_productID op).
      { intros Heq. apply Hnotin. rewrite Heq. by apply list_elem_of_fmap_2. }
      unfold patch1 at 2. rewrite (proj2 (has_productID_false _ _)) by congruence.
      by apply IH.
Qed.

(** The result of a bulk write on a store without duplicate products:
    every stored document receives the instruction that selects it, and the
    instructions that select nothing insert their documents, in order. *)
Lemma bulkWrite_patch ops docs :
  NoDup (omap productID_in docs) ->
  NoDup (BulkOp.filter_productID <$> ops) ->
  Forall (fun op => docId_insert_only op /\ keeps_productID op /\ BulkOp.upsert op = true) ops ->
  bulkWrite ops docs =
    (patch ops <$> docs) ++
    (inserted <$> List.filter
       (fun op => bool_decide (stored (BulkOp.filter_productID op) docs = None)) ops).
Proof.
  revert docs. induction ops as [|op ops IH]; intros docs Hdocs Hnd Hops.
  - cbn. rewrite app_nil_r. symmetry. apply list_fmap_id.
  - rewrite fmap_cons in Hnd. apply NoDup_cons in Hnd as [Hnotin Hnd].
    inversion Hops as [|? ? (Hid & Hk & Hup) Hops']; subst.
    unfold bulkWrite. cbn [fold_left]. fold (bulkWrite ops (updateOne op docs)).
    rewrite updateOne_patch by done.
    assert (Hother : forall op', op' ∈ ops ->
      BulkOp.filter_productID op' ≠ BulkOp.filter_productID op).
    { intros op' Hin Heq. apply Hnotin. rewrite <- Heq. by apply list_elem_of_fmap_2. }
    rewrite IH; try done.
    + rewrite fmap_app, <- list_fmap_compose, <- app_assoc. f_equal.
      cbn [List.filter].
      assert (Hfilter : forall docs',
        omap productID_in docs' = omap productID_in docs ->
        List.filter (fun op0 => bool_decide (stored (BulkOp.filter_productID op0)
                       (docs' ++ match stored (BulkOp.filter_productID op) docs with
                                 | Some _ => []
                                 | None => [inserted op]
                                 end) = None)) ops
        = List.filter (fun op0 => bool_decide (stored (BulkOp.filter_productID op0) docs = None)) ops).
      { intros docs' Hsame. apply filter_ext_in. intros op' Hin%list_elem_of_In.
        apply bool_decide_ext. rewrite !stored_None, omap_app, Hsame, not_elem_of_app.
        split; [tauto|]. intros H. split; [done|].
        destruct (stored _ docs); cbn; [apply not_elem_of_nil|].
        rewrite productID_in_inserted by done. cbn.
        intros Heq%list_elem_of_singleton. by eapply Hother. }
      rewrite Hfilter by (by apply omap_productID_patch1).
      destruct (stored (BulkOp.filter_productID op) docs) eqn:Hst; cbn.
      * done.
      * f_equal. apply patch_unmatched. intros op' Hin.
        rewrite productID_in_inserted by done. intros [= Heq]. by eapply Hother.
    + rewrite omap_app, omap_productID_patch1 by done.
      destruct (stored _ docs) eqn:Hst; cbn; [by rewrite app_nil_r|].
      rewrite productID_in_inserted by done. cbn.
      apply NoDup_app. split_and!; [done | | apply NoDup_singleton].
      intros x Hx ->%list_elem_of_singleton. by apply stored_None in Hst.
Qed.

End BulkFacts.

(** ** Chunks that fail at a stored product *)

Module ReachedFacts.

Lemma stuck_false products chunk :
  stuck products chunk = false <->
  forall productID, productID ∈ group_ids chunk -> unreadable products productID = false.
Proof.
  unfold stuck. generalize (group_ids chunk) as ids. intros ids.
  induction ids as [|k ids IH]; cbn.
  - split; [by intros _ ? ?%elem_of_nil | done].
  - rewrite orb_false_iff, IH. split.
    + intros [Hk H] p [->|Hp]%elem_of_cons; [done | by apply H].
    + intros H. split; [apply H, elem_of_cons; by left|].
      intros p Hp. apply H, elem_of_cons. by right.
Qed.

(** The loop of a stuck chunk: the ids before the first product that
    cannot be updated, that one, and the ids it does not reach. *)
Lemma reached_split products ids :
  existsb (unreadable products) ids = true ->
  exists pre k post,
    ids = pre ++ k :: post /\
    (forall productID, productID ∈ pre -> unreadable products productID = false) /\
    unreadable products k = true /\
    reached products ids = pre ++ [k].
Proof.
  induction ids as [|p ids IH]; cbn; [done|].
  destruct (unreadable products p) eqn:E.
  - intros _. exists [], p, ids. split_and!; try done. by intros ? ?%elem_of_nil.
  - cbn. intros (pre & k & post & -> & Hpre & Hk & Hr)%IH.
    exists (p :: pre), k, post. split_and!; try done.
    + intros q [->|Hq]%elem_of_cons; [done | by apply Hpre].
    + cbn. by rewrite Hr.
Qed.

Lemma reached_ext products products' ids :
  (forall k, k ∈ ids -> unreadable products' k = unreadable products k) ->
  reached products' ids = reached products ids.
Proof.
  induction ids as [|p ids IH]; intros H; [done|]. cbn.
  rewrite H by (apply elem_of_cons; by left). destruct (unreadable products p); [done|].
  f_equal. apply IH. intros k Hk. apply H, elem_of_cons. by right.
Qed.

Lemma stuck_ext products products' chunk :
  (forall k, k ∈ group_ids chunk -> unreadable products' k = unreadable products k) ->
  stuck products' chunk = stuck products chunk.
Proof.
  unfold stuck. generalize (group_ids chunk). intros ids.
  induction ids as [|p ids IH]; intros H; [done|]. cbn.
  rewrite H by (apply elem_of_cons; by left). f_equal.
  apply IH. intros k Hk. apply H, elem_of_cons. by right.
Qed.

Lemma unreadable_readable products :
  (forall doc, doc ∈ products -> variants_readable doc) ->
  forall k, unreadable products k = false.
Proof.
  intros H k. unfold unreadable. destruct (stored k products) as [d|] eqn:E; [|done].
  apply BulkFacts.stored_Some in E as [Hd _]. apply bool_decide_eq_false. intros Hn.
  by apply Hn, H.
Qed.

End ReachedFacts.

(** ** Reference entities on a reliable store *)

Module ResolveFacts.

Lemma find_vendor_None name (V : list Vendor.t) :
  List.find (fun v => bool_decide (Vendor.name v = name)) V = None <->
  name ∉ Vendor.name <$> V.
Proof.
  induction V as [|v V IH]; cbn.
  - split; [intros _; apply not_elem_of_nil | done].
  - rewrite not_elem_of_cons. case_bool_decide as E.
    + split; [done | intros [? _]; congruence].
    + rewrite IH. split; [intros; split; congruence | tauto].
Qed.

Lemma find_manufacturer_None key (M : list Manufacturer.t) :
  List.find (fun m => bool_decide (Manufacturer.manufacturerId m = key)) M = None <->
  key ∉ Manufacturer.manufacturerId <$> M.
Proof.
  induction M as [|m M IH]; cbn.
  - split; [intros _; apply not_elem_of_nil | done].
  - rewrite not_elem_of_cons. case_bool_decide as E.
    + split; [done | intros [? _]; congruence].
    + rewrite IH. split; [intros; split; congruence | tauto].
Qed.

(** The id of a known name does not change when vendors are appended. *)
Lemma vendorId_for_app name V added :
  name ∈ Vendor.name <$> V -> vendorId_for name (V ++ added) = vendorId_for name V.
Proof.
  unfold vendorId_for. intros Hin. induction V as [|v V IH]; cbn.
  - by apply elem_of_nil in Hin.
  - case_bool_decide as E; [done|]. apply IH.
    cbn in Hin. apply elem_of_cons in Hin as [?|?]; [congruence | done].
Qed.

Lemma vendorId_for_new name V id :
  name ∉ Vendor.name <$> V -> vendorId_for name (V ++ [Vendor.mk id name name]) = id.
Proof.
  unfold vendorId_for. intros Hnin. apply find_vendor_None in Hnin.
  induction V as [|v V IH]; cbn in *.
  - by rewrite bool_decide_eq_true_2.
  - destruct (bool_decide _); [done | by apply IH].
Qed.

Lemma vendors_resolved_prefix name V V' : vendors_resolved name V V' -> V `prefix_of` V'.
Proof. intros [[_ ->]|[_ [id ->]]]; [done | by apply prefix_app_r]. Qed.

Lemma vendors_resolved_elem name V V' :
  vendors_resolved name V V' -> name ∈ Vendor.name <$> V'.
Proof.
  intros [[? ->]|[_ [id ->]]]; [done|].
  rewrite fmap_app, elem_of_app. right. cbn. apply elem_of_cons. by left.
Qed.

Lemma vendors_resolved_NoDup name V V' :
  vendors_resolved name V V' ->
  NoDup (Vendor.name <$> V) -> NoDup (Vendor.name <$> V').
Proof.
  intros [[? ->]|[Hn [id ->]]] Hnd; [done|].
  rewrite fmap_app. apply NoDup_app. split_and!; [done | | apply NoDup_singleton].
  intros x Hx Hx'. cbn in Hx'. apply list_elem_of_singleton in Hx'. by subst.
Qed.

Lemma manufacturers_resolved_prefix key M M' :
  manufacturers_resolved key M M' -> M `prefix_of` M'.
Proof. intros [[_ ->]|[_ [id ->]]]; [done | by apply prefix_app_r]. Qed.

Lemma manufacturers_resolved_elem key M M' :
  manufacturers_resolved key M M' -> key ∈ Manufacturer.manufacturerId <$> M'.
Proof.
  intros [[? ->]|[_ [id ->]]]; [done|].
  rewrite fmap_app, elem_of_app. right. cbn. apply elem_of_cons. by left.
Qed.

Lemma manufacturers_resolved_NoDup key M M' :
  manufacturers_resolved key M M' ->
  NoDup (Manufacturer.manufacturerId <$> M) -> NoDup (Manufacturer.manufacturerId <$> M').
Proof.
  intros [[? ->]|[Hn [id ->]]] Hnd; [done|].
  rewrite fmap_app. apply NoDup_app. split_and!; [done | | apply NoDup_singleton].
  intros x Hx Hx'. cbn in Hx'. apply list_elem_of_singleton in Hx'. by subst.
Qed.

Lemma checkVendor_reliable siteSource w :
  reliable w ->
  exists w',
    checkVendor siteSource w =
      (Returned (vendorId_for siteSource (Store.vendors (store w'))), w') /\
    reliable w' /\
    Store.products (store w') = Store.products (store w) /\
    Store.manufacturers (store w') = Store.manufacturers (store w) /\
    vendors_resolved siteSource (Store.vendors (store w)) (Store.vendors (store w')).
Proof.
  intros Hw. unfold checkVendor, mbind, M_bind, vendorFindOne, request.
  rewrite Hw. cbv beta iota.
  destruct (List.find _ (Store.vendors (store w))) as [v|] eqn:Hfind.
  - exists (issued (VendorFindOne siteSource) (store w) w). split_and!; try done.
    + cbn. unfold vendorId_for. by rewrite Hfind.
    + left. split; [|done].
      destruct (decide (siteSource ∈ Vendor.name <$> Store.vendors (store w))) as [|Hn]; [done|].
      apply find_vendor_None in Hn. congruence.
  - apply find_vendor_None in Hfind. unfold nanoid, vendorSave, request. cbn.
    rewrite Hw. cbn.
    set (vendor := Vendor.mk (entropy w (drawn w)) siteSource siteSource).
    exists (issued (VendorSave vendor)
              (Store.mk (Store.vendors (store w) ++ [vendor])
                 (Store.manufacturers (store w)) (Store.products (store w)))
              (drew (issued (VendorFindOne siteSource) (store w) w))).
    subst vendor. cbn. split_and!; try done.
    + by rewrite vendorId_for_new.
    + right. split; [done|]. by eexists.
Qed.

Lemma ensureManufacturer_reliable manufacturerId manufacturerName w :
  reliable w ->
  exists w',
    ensureManufacturer manufacturerId manufacturerName w = (Returned manufacturerId, w') /\
    reliable w' /\
    Store.products (store w') = Store.products (store w) /\
    Store.vendors (store w') = Store.vendors (store w) /\
    manufacturers_resolved manufacturerId
      (Store.manufacturers (store w)) (Store.manufacturers (store w')).
Proof.
  intros Hw. unfold ensureManufacturer, mbind, M_bind, manufacturerFindOne, request.
  rewrite Hw. cbv beta iota.
  destruct (List.find _ (Store.manufacturers (store w))) as [m|] eqn:Hfind.
  - exists (issued (ManufacturerFindOne manufacturerId) (store w) w). split_and!; try done.
    + cbn. apply find_some in Hfind as [_ Hm]. apply bool_decide_eq_true in Hm.
      by rewrite Hm.
    + left. split; [|done].
      destruct (decide (manufacturerId ∈
        Manufacturer.manufacturerId <$> Store.manufacturers (store w))) as [|Hn]; [done|].
      apply find_manufacturer_None in Hn. congruence.
  - apply find_manufacturer_None in Hfind. unfold manufacturerSave, request. cbn.
    rewrite Hw. cbn. eexists. split; [reflexivity|]. cbn. split_and!; try done.
    right. split; [done|]. by eexists.
Qed.

End ResolveFacts.

(** ** The instruction made for a group *)

Module GroupFacts.

Lemma reliable_logged level message w : reliable w -> reliable (logged level message w).
Proof. done. Qed.

Lemma reliable_drew w : reliable w -> reliable (drew w).
Proof. done. Qed.

Lemma fields_of_ext (doc doc' : Doc) :
  (forall k, k ∈ setFields -> field k doc = field k doc') -> fields_of doc = fields_of doc'.
Proof.
  intros H. unfold fields_of. apply list_fmap_ext. intros i k Hk. f_equal.
  apply H. by eapply list_elem_of_lookup_2.
Qed.

Lemma fields_of_docId (doc : Doc) v : fields_of (JsMap.set "docId" v doc) = fields_of doc.
Proof.
  apply fields_of_ext. intros k Hk. apply DocFacts.field_set_ne. intros <-.
  by apply docId_not_set in Hk.
Qed.

Lemma updatedProduct_readable existingProduct row variants vendorId w :
  variants_readable existingProduct ->
  updatedProduct existingProduct row variants vendorId (row !! "ManufacturerID") w =
    (Returned (updatedDoc existingProduct row vendorId variants), w).
Proof.
  intros Hr. unfold updatedProduct, updatedDoc, mbind, M_bind, storedVariants.
  change (JsMap.set "images" _ _) with (assign (rowFields row vendorId) existingProduct).
  assert (Hv : field "variants" (assign (rowFields row vendorId) existingProduct)
               = field "variants" existingProduct).
  { apply DocFacts.field_assign_notin. cbn.
    apply (bool_decide_unpack _). by vm_compute. }
  rewrite Hv. unfold variants_readable, variants_of in *.
  destruct (field "variants" existingProduct) as [| |[]| | | | | |];
    cbn in *; try rewrite Hr; done.
Qed.

Lemma newProduct_fresh productID row variants vendorId w :
  exists doc,
    newProduct productID row variants vendorId (row !! "ManufacturerID") w =
      (Returned doc, drew (drew (drew (drew (drew (drew (drew w))))))) /\
    field "docId" doc = VString (entropy w (drawn w)) /\
    fresh_doc productID row variants vendorId doc.
Proof.
  unfold newProduct, generateOptions, mbind, M_bind, nanoid. cbn.
  destruct (bool_decide _ || Js.trim_is_empty _); cbn; eexists;
    (split; [reflexivity|]); (split; [done|]); (split; [done|]); (split; [done|]);
    intros k v Hin; unfold rowFields in Hin;
    repeat (apply elem_of_cons in Hin as [[= -> ->]|Hin]; [done|]);
    by apply elem_of_nil in Hin.
Qed.

Lemma processGroup_reliable G e productID g w :
  reliable w ->
  JsMap.get productID G = Some g ->
  (forall existingProduct, JsMap.get productID e = Some existingProduct ->
     variants_readable existingProduct) ->
  exists op w',
    processGroup G e productID w = (Returned op, w') /\
    reliable w' /\
    Store.products (store w') = Store.products (store w) /\
    vendors_resolved (Group.row g !! "SiteSource")
      (Store.vendors (store w)) (Store.vendors (store w')) /\
    manufacturers_resolved (Group.row g !! "ManufacturerID")
      (Store.manufacturers (store w)) (Store.manufacturers (store w')) /\
    op_made g (JsMap.get productID e) (Store.vendors (store w')) productID op.
Proof.
  intros Hw Hg Hread. unfold processGroup. rewrite Hg.
  unfold mbind at 1, M_bind at 1. cbn [log].
  set (w1 := logged Console _ w).
  destruct (ResolveFacts.checkVendor_reliable (Group.row g !! "SiteSource") w1)
    as (w2 & Hcv & Hw2 & Hp2 & Hm2 & Hv2); [done|].
  subst w1. cbn [store logged] in Hp2, Hm2, Hv2.
  unfold mbind at 1, M_bind at 1. rewrite Hcv.
  destruct (ResolveFacts.ensureManufacturer_reliable (Group.row g !! "ManufacturerID")
              (Group.row g !! "ManufacturerName") w2)
    as (w3 & Hem & Hw3 & Hp3 & Hv3 & Hm3); [done|].
  unfold mbind at 1, M_bind at 1. rewrite Hem. rewrite <- Hv3.
  set (vendorId := vendorId_for _ _).
  assert (Hstore : Store.products (store w3) = Store.products (store w)) by congruence.
  assert (Hvendors : vendors_resolved (Group.row g !! "SiteSource")
            (Store.vendors (store w)) (Store.vendors (store w3))) by (by rewrite Hv3).
  assert (Hmanufacturers : manufacturers_resolved (Group.row g !! "ManufacturerID")
            (Store.manufacturers (store w)) (Store.manufacturers (store w3)))
    by (by rewrite <- Hm2).
  unfold mbind at 1, M_bind at 1. unfold op_made, JsMap.has.
  destruct (JsMap.get productID e) as [existingProduct|] eqn:He.
  - rewrite (updatedProduct_readable _ _ _ _ _ (Hread _ eq_refl)).
    destruct (falsy (field "docId" _)); cbv beta iota delta [mbind M_bind log nanoid mret M_ret].
    + eexists _, _. split; [reflexivity|]. split_and!; try done.
      cbn [BulkOp.update_set]. apply fields_of_docId.
    + eexists _, _. split; [reflexivity|]. split_and!; done.
  - destruct (newProduct_fresh productID (Group.row g) (Group.variants g) vendorId w3)
      as (doc & -> & Hdoc & Hfresh).
    destruct (falsy (field "docId" doc)) eqn:Hfalsy;
      cbv beta iota delta [mbind M_bind log nanoid mret M_ret].
    + rewrite DocFacts.field_set_eq. cbn [falsy].
      destruct (bool_decide _); cbv beta iota; eexists _, _; (split; [reflexivity|]);
        (split_and!; try done; [by eexists|]);
        eexists; (split; [apply fields_of_docId|]); done.
    + rewrite Hfalsy. cbv beta iota. eexists _, _. split; [reflexivity|].
      split_and!; try done; [by eexists|]. by eexists.
Qed.

Lemma updatedProduct_unreadable existingProduct row variants vendorId manufacturerId w :
  ~ variants_readable existingProduct ->
  exists error,
    updatedProduct existingProduct row variants vendorId manufacturerId w = (Thrown error, w).
Proof.
  intros Hr. unfold updatedProduct, mbind, M_bind, storedVariants.
  rewrite !DocFacts.field_set_ne by done. unfold variants_readable in Hr.
  destruct (field "variants" existingProduct) as [| |[]|s| | | | |] eqn:E; cbn in *;
    try (by destruct Hr); try (by eexists).
  destruct (bool_decide (s = "")) eqn:Es; [by destruct Hr | by eexists].
Qed.

Lemma processGroup_stuck G e productID g existingProduct w :
  reliable w ->
  JsMap.get productID G = Some g ->
  JsMap.get productID e = Some existingProduct ->
  ~ variants_readable existingProduct ->
  exists error w',
    processGroup G e productID w = (Thrown error, w') /\
    reliable w' /\
    Store.products (store w') = Store.products (store w) /\
    vendors_resolved (Group.row g !! "SiteSource")
      (Store.vendors (store w)) (Store.vendors (store w')) /\
    manufacturers_resolved (Group.row g !! "ManufacturerID")
      (Store.manufacturers (store w)) (Store.manufacturers (store w')).
Proof.
  intros Hw Hg He Hread. unfold processGroup. rewrite Hg.
  unfold mbind at 1, M_bind at 1. cbn [log].
  set (w1 := logged Console _ w).
  destruct (ResolveFacts.checkVendor_reliable (Group.row g !! "SiteSource") w1)
    as (w2 & Hcv & Hw2 & Hp2 & Hm2 & Hv2); [done|].
  subst w1. cbn [store logged] in Hp2, Hm2, Hv2.
  unfold mbind at 1, M_bind at 1. rewrite Hcv.
  destruct (ResolveFacts.ensureManufacturer_reliable (Group.row g !! "ManufacturerID")
              (Group.row g !! "ManufacturerName") w2)
    as (w3 & Hem & Hw3 & Hp3 & Hv3 & Hm3); [done|].
  unfold mbind at 1, M_bind at 1. rewrite Hem.
  unfold mbind at 1, M_bind at 1. rewrite He.
  destruct (updatedProduct_unreadable existingProduct (Group.row g) (Group.variants g)
              (vendorId_for (Group.row g !! "SiteSource") (Store.vendors (store w2)))
              (Group.row g !! "ManufacturerID") w3 Hread) as [error ->].
  exists error, w3. split_and!; try done.
  - congruence.
  - by rewrite Hv3.
  - by rewrite <- Hm2.
Qed.

Lemma op_made_mono g existing V V' productID op :
  Group.row g !! "SiteSource" ∈ Vendor.name <$> V -> V `prefix_of` V' ->
  op_made g existing V productID op -> op_made g existing V' productID op.
Proof.
  intros Hin [added ->]. unfold op_made.
  by rewrite ResolveFacts.vendorId_for_app.
Qed.

Lemma forEach_reliable G e productIDs w :
  reliable w ->
  (forall productID, productID ∈ productIDs -> is_Some (JsMap.get productID G)) ->
  (forall productID existingProduct, productID ∈ productIDs ->
     JsMap.get productID e = Some existingProduct -> variants_readable existingProduct) ->
  exists ops w',
    forEach (processGroup G e) productIDs w = (Returned ops, w') /\
    reliable w' /\
    Store.products (store w') = Store.products (store w) /\
    Store.vendors (store w) `prefix_of` Store.vendors (store w') /\
    Store.manufacturers (store w) `prefix_of` Store.manufacturers (store w') /\
    (NoDup (Vendor.name <$> Store.vendors (store w)) ->
     NoDup (Vendor.name <$> Store.vendors (store w'))) /\
    (NoDup (Manufacturer.manufacturerId <$> Store.manufacturers (store w)) ->
     NoDup (Manufacturer.manufacturerId <$> Store.manufacturers (store w'))) /\
    ((forall productID g, productID ∈ productIDs -> JsMap.get productID G = Some g ->
        Group.row g !! "SiteSource" ∈ Vendor.name <$> Store.vendors (store w) /\
        Group.row g !! "ManufacturerID" ∈
          Manufacturer.manufacturerId <$> Store.manufacturers (store w)) ->
     Store.vendors (store w') = Store.vendors (store w) /\
     Store.manufacturers (store w') = Store.manufacturers (store w)) /\
    ops_made G (fun productID => JsMap.get productID e) (store w') productIDs ops.
Proof.
  intros Hw HG Hread. revert w Hw.
  induction productIDs as [|productID productIDs IH]; intros w Hw.
  - exists [], w. split_and!; try done. constructor.
  - destruct (HG productID) as [g Hg]; [apply elem_of_cons; by left|].
    destruct (processGroup_reliable G e productID g w Hw Hg)
      as (op & w1 & Hrun & Hw1 & Hp1 & Hv1 & Hm1 & Hop).
    { intros ex. apply Hread, elem_of_cons. by left. }
    destruct (IH (fun p Hp => HG p (proj2 (elem_of_cons _ _ _) (or_intror Hp)))
                (fun p ex Hp => Hread p ex (proj2 (elem_of_cons _ _ _) (or_intror Hp))) w1 Hw1)
      as (ops & w2 & Hrun2 & Hw2 & Hp2 & Hv2 & Hm2 & Hnv & Hnm & Hsame & Hops).
    exists (op :: ops), w2. cbn [forEach]. unfold mbind, M_bind. rewrite Hrun, Hrun2.
    split_and!; try done.
    + congruence.
    + etrans; [by eapply ResolveFacts.vendors_resolved_prefix | done].
    + etrans; [by eapply ResolveFacts.manufacturers_resolved_prefix | done].
    + intros H. by eapply Hnv, ResolveFacts.vendors_resolved_NoDup.
    + intros H. by eapply Hnm, ResolveFacts.manufacturers_resolved_NoDup.
    + intros Hall.
      destruct (Hall productID g) as [Hvin Hmin]; [apply elem_of_cons; by left | done |].
      assert (Hv1' : Store.vendors (store w1) = Store.vendors (store w)).
      { destruct Hv1 as [[_ ?]|[? _]]; done. }
      assert (Hm1' : Store.manufacturers (store w1) = Store.manufacturers (store w)).
      { destruct Hm1 as [[_ ?]|[? _]]; done. }
      rewrite <- Hv1', <- Hm1'. apply Hsame. intros p g' Hp Hg'. rewrite Hv1', Hm1'.
      apply (Hall p g'); [apply elem_of_cons; by right | done].
    + constructor; [|done]. exists g. split_and!; try done.
      * destruct Hv2 as [added ->]. rewrite fmap_app, elem_of_app. left.
        by eapply ResolveFacts.vendors_resolved_elem.
      * destruct Hm2 as [added ->]. rewrite fmap_app, elem_of_app. left.
        by eapply ResolveFacts.manufacturers_resolved_elem.
      * eapply op_made_mono; [|exact Hv2|exact Hop].
        by eapply ResolveFacts.vendors_resolved_elem.
Qed.

(** The loop over the groups when it meets a stored product that cannot
    be updated: the groups before it are processed, the vendor and the
    manufacturer of that one are resolved, and the loop fails there. *)
Lemma forEach_stuck G e pre k post existingProduct w :
  reliable w ->
  (forall productID, productID ∈ pre ++ [k] -> is_Some (JsMap.get productID G)) ->
  (forall productID ex, productID ∈ pre ->
     JsMap.get productID e = Some ex -> variants_readable ex) ->
  JsMap.get k e = Some existingProduct -> ~ variants_readable existingProduct ->
  exists error w',
    forEach (processGroup G e) (pre ++ k :: post) w = (Thrown error, w') /\
    reliable w' /\
    Store.products (store w') = Store.products (store w) /\
    Store.vendors (store w) `prefix_of` Store.vendors (store w') /\
    Store.manufacturers (store w) `prefix_of` Store.manufacturers (store w') /\
    (NoDup (Vendor.name <$> Store.vendors (store w)) ->
     NoDup (Vendor.name <$> Store.vendors (store w'))) /\
    (NoDup (Manufacturer.manufacturerId <$> Store.manufacturers (store w)) ->
     NoDup (Manufacturer.manufacturerId <$> Store.manufacturers (store w'))) /\
    (forall productID g, productID ∈ pre ++ [k] -> JsMap.get productID G = Some g ->
       Group.row g !! "SiteSource" ∈ Vendor.name <$> Store.vendors (store w') /\
       Group.row g !! "ManufacturerID" ∈
         Manufacturer.manufacturerId <$> Store.manufacturers (store w')) /\
    ((forall productID g, productID ∈ pre ++ [k] -> JsMap.get productID G = Some g ->
        Group.row g !! "SiteSource" ∈ Vendor.name <$> Store.vendors (store w) /\
        Group.row g !! "ManufacturerID" ∈
          Manufacturer.manufacturerId <$> Store.manufacturers (store w)) ->
     Store.vendors (store w') = Store.vendors (store w) /\
     Store.manufacturers (store w') = Store.manufacturers (store w)).
Proof.
  intros Hw HG Hread Hk Hbad. revert w Hw.
  induction pre as [|productID pre IH]; intros w Hw.
  - destruct (HG k) as [g Hg]; [by apply list_elem_of_singleton|].
    destruct (processGroup_stuck G e k g existingProduct w Hw Hg Hk Hbad)
      as (error & w1 & Hrun & Hw1 & Hp1 & Hv1 & Hm1).
    exists error, w1. cbn [app forEach]. unfold mbind, M_bind. rewrite Hrun.
    split_and!; try done.
    + by eapply ResolveFacts.vendors_resolved_prefix.
    + by eapply ResolveFacts.manufacturers_resolved_prefix.
    + by eapply ResolveFacts.vendors_resolved_NoDup.
    + by eapply ResolveFacts.manufacturers_resolved_NoDup.
    + intros p g' ->%list_elem_of_singleton Hg'. rewrite Hg in Hg'. injection Hg' as <-.
      split; [by eapply ResolveFacts.vendors_resolved_elem
             | by eapply ResolveFacts.manufacturers_resolved_elem].
    + intros Hall. destruct (Hall k g) as [Hvin Hmin]; [by apply list_elem_of_singleton | done |].
      split.
      * destruct Hv1 as [[_ ?]|[? _]]; done.
      * destruct Hm1 as [[_ ?]|[? _]]; done.
  - destruct (HG productID) as [g Hg]; [apply elem_of_cons; by left|].
    destruct (processGroup_reliable G e productID g w Hw Hg)
      as (op & w1 & Hrun & Hw1 & Hp1 & Hv1 & Hm1 & Hop).
    { intros ex. apply Hread, elem_of_cons. by left. }
    destruct (IH (fun p Hp => HG p (proj2 (elem_of_cons _ _ _) (or_intror Hp)))
                (fun p ex Hp => Hread p ex (proj2 (elem_of_cons _ _ _) (or_intror Hp))) w1 Hw1)
      as (error & w2 & Hrun2 & Hw2 & Hp2 & Hv2 & Hm2 & Hnv & Hnm & Hin & Hsame).
    exists error, w2. cbn [app forEach]. unfold mbind, M_bind. rewrite Hrun.
    change (forEach (processGroup G e) (pre ++ k :: post) w1) with
      (forEach (processGroup G e) (pre ++ k :: post) w1). rewrite Hrun2.
    split_and!; try done.
    + congruence.
    + etrans; [by eapply ResolveFacts.vendors_resolved_prefix | done].
    + etrans; [by eapply ResolveFacts.manufacturers_resolved_prefix | done].
    + intros H. by eapply Hnv, ResolveFacts.vendors_resolved_NoDup.
    + intros H. by eapply Hnm, ResolveFacts.manufacturers_resolved_NoDup.
    + intros p g' [->|Hp]%elem_of_cons Hg'; [|by apply (Hin p g')].
      rewrite Hg in Hg'. injection Hg' as <-. split.
      * destruct Hv2 as [added ->]. rewrite fmap_app, elem_of_app. left.
        by eapply ResolveFacts.vendors_resolved_elem.
      * destruct Hm2 as [added ->]. rewrite fmap_app, elem_of_app. left.
        by eapply ResolveFacts.manufacturers_resolved_elem.
    + intros Hall.
      destruct (Hall productID g) as [Hvin Hmin]; [apply elem_of_cons; by left | done |].
      assert (Hv1' : Store.vendors (store w1) = Store.vendors (store w)).
      { destruct Hv1 as [[_ ?]|[? _]]; done. }
      assert (Hm1' : Store.manufacturers (store w1) = Store.manufacturers (store w)).
      { destruct Hm1 as [[_ ?]|[? _]]; done. }
      rewrite <- Hv1', <- Hm1'. apply Hsame. intros p g' Hp Hg'. rewrite Hv1', Hm1'.
      apply (Hall p g'); [apply elem_of_cons; by right | done].
Qed.

End GroupFacts.

(** ** A chunk on a reliable store *)

Section ChunkStep.
Variable parseFloat : option string -> float.

Lemma Forall2_impl_elem {A B : Type} (R R' : A -> B -> Prop) l k :
  Forall2 R l k -> (forall x y, x ∈ l -> R x y -> R' x y) -> Forall2 R' l k.
Proof.
  induction 1 as [|x y l k HR _ IH]; intros H; constructor.
  - apply H; [apply elem_of_cons; by left | done].
  - apply IH. intros x' y' Hin. apply H, elem_of_cons. by right.
Qed.

Lemma get_fold_indexProduct_is_Some docs e k doc :
  doc ∈ docs -> productID_in doc = Some k ->
  is_Some (JsMap.get k (fold_left indexProduct docs e)).
Proof.
  assert (Hkeep : forall docs e, is_Some (JsMap.get k e) ->
            is_Some (JsMap.get k (fold_left indexProduct docs e))).
  { clear. intros docs. induction docs as [|d docs IH]; intros e He; [done|].
    cbn. apply IH. unfold indexProduct. destruct (field "productID" d); try done.
    rewrite JsMapFacts.get_set. by destruct (decide _). }
  revert e. induction docs as [|d docs IH]; intros e Hin Hk.
  - by apply elem_of_nil in Hin.
  - cbn. apply elem_of_cons in Hin as [->|Hin]; [|by apply IH].
    apply Hkeep. unfold indexProduct, productID_in in *.
    destruct (field "productID" d); try done. injection Hk as ->.
    by rewrite JsMapFacts.get_set_eq.
Qed.

(** The map of existing products of a chunk holds, for each of its product
    ids, the product stored under that id. *)
Lemma existing_stored products productIDs k :
  NoDup (omap productID_in products) -> k ∈ productIDs ->
  JsMap.get k
    (fold_left indexProduct
       (List.filter (fun doc => existsb (fun p => has_productID p doc) productIDs) products)
       JsMap.empty)
  = stored k products.
Proof.
  intros Hnd Hk. set (docs := List.filter _ _).
  destruct (JsMap.get k (fold_left indexProduct docs JsMap.empty)) as [d|] eqn:E.
  - apply get_fold_indexProduct in E as [[Hin Hf]|?]; [|done]. symmetry.
    apply BulkFacts.stored_member; [done | |].
    + subst docs. apply list_elem_of_In, filter_In in Hin as [Hin _].
      by apply list_elem_of_In.
    + unfold productID_in. by rewrite Hf.
  - destruct (stored k products) as [d|] eqn:Hst; [|done].
    apply BulkFacts.stored_Some in Hst as [Hin Hp].
    destruct (get_fold_indexProduct_is_Some docs JsMap.empty k d) as [d' Hd']; try done.
    + subst docs. apply list_elem_of_In, filter_In. split; [by apply list_elem_of_In|].
      apply existsb_exists. exists k. split; [by apply list_elem_of_In|].
      by apply BulkFacts.has_productID_in.
    + congruence.
Qed.

(** A chunk on a store that fails no request. A chunk that throws in the
    grouping leaves the store as it is. A chunk that is stuck resolves the
    vendors and the manufacturers of the groups it reaches and writes no
    product. Any other chunk returns, and its bulk write is the effect of
    the instructions of its groups. *)
Lemma processChunk_reliable chunk w :
  reliable w -> distinct_products (store w) ->
  exists o w',
    processChunk parseFloat chunk w = (o, w') /\
    reliable w' /\
    ((crashing chunk /\ store w' = store w) \/
     (~ crashing chunk /\ stuck (Store.products (store w)) chunk = true /\
      Store.products (store w') = Store.products (store w) /\
      Store.vendors (store w) `prefix_of` Store.vendors (store w') /\
      Store.manufacturers (store w) `prefix_of` Store.manufacturers (store w') /\
      (NoDup (Vendor.name <$> Store.vendors (store w)) ->
       NoDup (Vendor.name <$> Store.vendors (store w'))) /\
      (NoDup (Manufacturer.manufacturerId <$> Store.manufacturers (store w)) ->
       NoDup (Manufacturer.manufacturerId <$> Store.manufacturers (store w'))) /\
      idle chunk (store w') /\
      (idle chunk (store w) -> store w' = store w)) \/
     (~ crashing chunk /\ stuck (Store.products (store w)) chunk = false /\
      o = Returned tt /\
      exists G ops, groups_of parseFloat chunk G /\ chunk_effect G ops (store w) (store w'))).
Proof.
  intros Hw Hpn. unfold processChunk.
  unfold mbind at 1, M_bind at 1.
  pose proof (grouping_spec parseFloat chunk w) as Hgroup.
  pose proof (grouping_keys parseFloat chunk w) as Hids.
  destruct (reduce _ chunk JsMap.empty w) as [[G|?] w1].
  2:{ destruct Hgroup as (Hs & Hf & Hcrash). eexists _, _. split; [done|].
      split; [|by left]. intros n. by rewrite Hf. }
  destruct Hgroup as (Hs1 & Hf1 & Hnocrash & HG).
  assert (Hw1 : reliable w1) by (intros n; by rewrite Hf1).
  unfold mbind at 1, M_bind at 1. unfold productFind, request. rewrite Hw1. cbv beta iota.
  set (productIDs := Js.ownKeys (JsMap.keys G)) in *.
  set (docs := List.filter _ _). set (w2 := issued _ _ w1).
  set (e := fold_left indexProduct docs JsMap.empty).
  assert (He : forall k, k ∈ productIDs -> JsMap.get k e = stored k (Store.products (store w))).
  { intros k Hk. subst e docs. rewrite Hs1. by apply existing_stored. }
  assert (HGin : forall k, k ∈ productIDs -> is_Some (JsMap.get k G)).
  { intros k Hk. subst productIDs. rewrite ownKeys_Permutation in Hk.
    destruct (JsMap.get k G) eqn:E; [done|].
    apply JsMapFacts.get_None in E. done. }
  assert (Hreadable : forall k ex, k ∈ productIDs ->
    unreadable (Store.products (store w)) k = false ->
    JsMap.get k e = Some ex -> variants_readable ex).
  { intros k ex Hk Hu Hex. rewrite (He k Hk) in Hex. unfold unreadable in Hu.
    rewrite Hex in Hu. apply bool_decide_eq_false in Hu.
    by destruct (decide (variants_readable ex)). }
  destruct (stuck (Store.products (store w)) chunk) eqn:Hstuck.
  - unfold stuck in Hstuck. rewrite <- Hids in Hstuck.
    destruct (ReachedFacts.reached_split _ _ Hstuck)
      as (pre & k & post & Hsplit & Hpre & Hk & Hreached).
    assert (Hkin : k ∈ productIDs).
    { rewrite Hsplit, elem_of_app, elem_of_cons. auto. }
    assert (Hprein : forall p, p ∈ pre ++ [k] -> p ∈ productIDs).
    { intros p Hp. rewrite Hsplit, elem_of_app, elem_of_cons.
      apply elem_of_app in Hp as [?|Hp]; [auto|].
      apply list_elem_of_singleton in Hp as ->. auto. }
    assert (Hex : exists ex, JsMap.get k e = Some ex /\ ~ variants_readable ex).
    { rewrite (He k Hkin). unfold unreadable in Hk.
      destruct (stored k (Store.products (store w))) as [ex|]; [|done].
      exists ex. split; [done|]. by apply bool_decide_eq_true in Hk. }
    destruct Hex as (ex & Hex & Hbad).
    destruct (GroupFacts.forEach_stuck G e pre k post ex w2)
      as (error & w3 & Hrun & Hw3 & Hp3 & Hv3 & Hm3 & Hnv & Hnm & Hin & Hsame); try done.
    { intros p Hp. by apply HGin, Hprein. }
    { intros p ex' Hp. apply Hreadable; [|by apply Hpre].
      apply Hprein, elem_of_app. by left. }
    unfold mbind at 1, M_bind at 1. rewrite Hsplit, Hrun.
    subst w2. cbn [store issued] in Hp3, Hv3, Hm3, Hnv, Hnm, Hin, Hsame.
    rewrite Hs1 in Hp3, Hv3, Hm3, Hnv, Hnm, Hsame.
    assert (Hgroup : forall p row rest,
      p ∈ reached (Store.products (store w)) (group_ids chunk) ->
      rows_of p chunk = row :: rest ->
      p ∈ pre ++ [k] /\ exists g, JsMap.get p G = Some g /\ Group.row g = row).
    { intros p row rest Hp Hrows. rewrite <- Hids, Hreached in Hp. split; [done|].
      destruct (HGin p (Hprein p Hp)) as [g Hg]. exists g. split; [done|].
      destruct HG as (_ & _ & Hsome). destruct (Hsome p g Hg) as (rest' & Hrows' & _).
      rewrite Hrows in Hrows'. by injection Hrows' as -> _. }
    eexists _, _. split; [reflexivity|]. split; [done|]. right. left.
    split_and!; try done.
    + intros _ _ p row rest Hp Hrows. rewrite Hp3 in Hp.
      destruct (Hgroup p row rest Hp Hrows) as (Hpin & g & Hg & <-). by apply (Hin p g).
    + intros Hidle. destruct Hsame as [HV HM].
      { intros p g Hp Hg. destruct HG as (_ & _ & Hsome).
        destruct (Hsome p g Hg) as (rest & Hrows & _).
        apply (Hidle Hnocrash) with (productID := p) (rest := rest); [|by rewrite <- Hids, Hreached|done].
        unfold stuck. by rewrite <- Hids. }
      destruct (store w3) as [V3 M3 P3], (store w) as [V0 M0 P0].
      cbn [Store.vendors Store.manufacturers Store.products] in *. by subst.
  - unfold stuck in Hstuck. rewrite <- Hids in Hstuck.
    assert (Hnone : forall k, k ∈ productIDs ->
              unreadable (Store.products (store w)) k = false).
    { clear -Hstuck. intros k Hk. induction productIDs as [|p ids IH]; [by apply elem_of_nil in Hk|].
      cbn in Hstuck. apply orb_false_iff in Hstuck as [Hp Hids].
      apply elem_of_cons in Hk as [->|Hk]; [done | by apply IH]. }
    destruct (GroupFacts.forEach_reliable G e productIDs w2)
      as (ops & w3 & Hrun & Hw3 & Hp3 & Hv3 & Hm3 & Hnv & Hnm & Hsame & Hops).
    { done. }
    { done. }
    { intros k ex Hk. apply Hreadable; [done | by apply Hnone]. }
    unfold mbind at 1, M_bind at 1. rewrite Hrun.
    subst w2. cbn [store issued] in Hp3, Hv3, Hm3, Hnv, Hnm, Hsame.
    rewrite Hs1 in Hp3, Hv3, Hm3, Hnv, Hnm, Hsame.
    assert (Heffect : forall s',
      Store.products s' = bulkWrite ops (Store.products (store w)) ->
      Store.vendors s' = Store.vendors (store w3) ->
      Store.manufacturers s' = Store.manufacturers (store w3) ->
      chunk_effect G ops (store w) s').
    { intros s' Hp Hv Hm. unfold chunk_effect. rewrite Hv, Hm. split_and!; try done.
      - intros Hall. apply Hsame. intros k g _ Hg. by apply (Hall k g).
      - unfold ops_made in *. rewrite Hv, Hm. eapply Forall2_impl_elem; [exact Hops|].
        intros k op Hk (g & Hg & ? & ? & Hop). exists g. split_and!; try done.
        by rewrite <- He. }
    destruct (0 <? length ops)%nat eqn:Hlen.
    + unfold try_catch, productBulkWrite, request. rewrite Hw3. cbv beta iota.
      eexists _, _. split; [reflexivity|]. split; [done|]. right. right. split; [done|].
      split; [done|]. split; [done|]. exists G, ops. split; [done|].
      apply Heffect; cbn; [|done|done]. by rewrite Hp3.
    + eexists _, _. split; [reflexivity|]. split; [done|]. right. right. split; [done|].
      split; [done|]. split; [done|]. exists G, ops. split; [done|]. apply Heffect; try done.
      apply Nat.ltb_ge in Hlen. destruct ops; [|cbn in Hlen; lia]. by rewrite Hp3.
Qed.

End ChunkStep.

(** ** A merge that brings nothing new *)

Module NothingNew.

Lemma set_new {V : Type} k (v : V) (m : JsMap.t V) :
  k ∉ JsMap.keys m -> JsMap.set k v m = m ++ [(k, v)].
Proof.
  induction m as [|[k' v'] m IH]; cbn; [done|].
  rewrite not_elem_of_cons. intros [Hne Hk]. rewrite decide_False by done.
  by rewrite IH.
Qed.

Lemma index_distinct (l : list Variant.t) (m : JsMap.t Variant.t) :
  NoDup (JsMap.keys m ++ (Variant.sku <$> l)) ->
  fold_left indexVariant l m = m ++ ((fun v => (Variant.sku v, v)) <$> l).
Proof.
  revert m. induction l as [|v l IH]; intros m Hnd; cbn.
  - by rewrite app_nil_r.
  - unfold indexVariant at 2. cbn in Hnd.
    apply NoDup_app in Hnd as (Hm & Hdisj & Hl). apply NoDup_cons in Hl as [Hv Hl].
    rewrite set_new.
    + rewrite IH, <- app_assoc; [done|]. unfold JsMap.keys. rewrite map_app. cbn.
      rewrite <- app_assoc. cbn. apply NoDup_app. split_and!; [done | | by apply NoDup_cons].
      intros x Hx. by apply Hdisj.
    + intros Hin. apply (Hdisj _ Hin). apply elem_of_cons. by left.
Qed.

Lemma get_keyed (l : list Variant.t) a :
  NoDup (Variant.sku <$> l) -> a ∈ l ->
  JsMap.get (Variant.sku a) ((fun v => (Variant.sku v, v)) <$> l) = Some a.
Proof.
  induction l as [|v l IH]; intros Hnd Hin.
  - by apply elem_of_nil in Hin.
  - cbn in *. apply NoDup_cons in Hnd as [Hv Hnd].
    apply elem_of_cons in Hin as [->|Hin]; [by rewrite decide_True|].
    rewrite decide_False; [by apply IH|].
    intros Heq. apply Hv. rewrite <- Heq. by apply list_elem_of_fmap_2.
Qed.

(** Merging variants that each find a stored variant of their sku showing
    no change leaves the stored list as it is. *)
Lemma mergeVariants_same (l vs : list Variant.t) :
  NoDup (Variant.sku <$> l) ->
  (forall v, v ∈ vs -> exists a, a ∈ l /\ Variant.sku a = Variant.sku v /\
                           isVariantUpdated a v = false) ->
  mergeVariants l vs = l.
Proof.
  intros Hnd Hvs. unfold mergeVariants.
  rewrite index_distinct by done. cbn [JsMap.empty app].
  set (m := (fun v => (Variant.sku v, v)) <$> l).
  assert (Hfold : fold_left mergeVariant vs m = m).
  { induction vs as [|v vs IH]; [done|]. cbn.
    assert (Hv : mergeVariant m v = m).
    { destruct (Hvs v) as (a & Ha & Hsku & Hupd); [apply elem_of_cons; by left|].
      unfold mergeVariant. rewrite <- Hsku. subst m. rewrite get_keyed by done.
      by rewrite Hupd. }
    rewrite Hv. apply IH. intros v' Hv'. apply Hvs, elem_of_cons. by right. }
  rewrite Hfold. subst m. unfold JsMap.values. rewrite map_map. cbn.
  apply map_id.
Qed.

End NothingNew.

(** ** The documents a chunk writes *)

Module WrittenFacts.

Lemma rowFields_keys row vendorId : (rowFields row vendorId).*1 = rowKeys.
Proof. done. Qed.

Lemma NoDup_rowKeys : NoDup rowKeys.
Proof. apply (bool_decide_unpack _). by vm_compute. Qed.

Lemma NoDup_setFields : NoDup setFields.
Proof. apply (bool_decide_unpack _). by vm_compute. Qed.

Lemma rowKeys_setFields k : k ∈ rowKeys -> k ∈ setFields.
Proof.
  intros H. unfold rowKeys in H.
  repeat (apply elem_of_cons in H as [->|H]; [apply (bool_decide_unpack _); by vm_compute|]).
  by apply elem_of_nil in H.
Qed.

Lemma variants_setFields : "variants" ∈ setFields.
Proof. apply (bool_decide_unpack _). by vm_compute. Qed.

Lemma productID_setFields : "productID" ∈ setFields.
Proof. apply (bool_decide_unpack _). by vm_compute. Qed.

Lemma variants_not_rowKeys : "variants" ∉ rowKeys.
Proof. apply (bool_decide_unpack _). by vm_compute. Qed.

Lemma productID_not_rowKeys : "productID" ∉ rowKeys.
Proof. apply (bool_decide_unpack _). by vm_compute. Qed.

Lemma fields_of_keys (doc : Doc) : (fields_of doc).*1 = setFields.
Proof. apply DocFacts.keys_fields. Qed.

Lemma field_fields_of (doc doc' : Doc) k :
  k ∈ setFields -> field k (assign (fields_of doc) doc') = field k doc.
Proof.
  intros Hk. apply AssignFacts.field_assign.
  - rewrite fields_of_keys. apply NoDup_setFields.
  - unfold fields_of. apply list_elem_of_fmap. by exists k.
Qed.

Lemma field_key (doc : Doc) k v :
  k ∈ JsMap.keys doc -> field k doc = v -> JsMap.get k doc = Some v.
Proof.
  intros Hk Hf. unfold field in Hf. destruct (JsMap.get k doc) as [v'|] eqn:E.
  - cbn in Hf. by subst.
  - apply JsMapFacts.get_None in E. done.
Qed.

Lemma field_updatedDoc_row d row vendorId vs k v :
  (k, v) ∈ rowFields row vendorId -> field k (updatedDoc d row vendorId vs) = v.
Proof.
  intros Hin. unfold updatedDoc. rewrite DocFacts.field_set_ne.
  - apply AssignFacts.field_assign; [|done]. rewrite rowFields_keys. apply NoDup_rowKeys.
  - intros <-. apply variants_not_rowKeys. rewrite <- (rowFields_keys row vendorId).
    by apply (list_elem_of_fmap_2 fst) in Hin.
Qed.

Lemma field_updatedDoc_variants d row vendorId vs :
  field "variants" (updatedDoc d row vendorId vs)
  = VVariants (mergeVariants (variants_of d) vs).
Proof. apply DocFacts.field_set_eq. Qed.

Lemma field_updatedDoc_other d row vendorId vs k :
  k ∉ rowKeys -> k ≠ "variants" -> field k (updatedDoc d row vendorId vs) = field k d.
Proof.
  intros Hk Hne. unfold updatedDoc. rewrite DocFacts.field_set_ne by done.
  by apply DocFacts.field_assign_notin.
Qed.

Lemma productID_in_rowFields row vendorId (doc : Doc) :
  productID_in (assign (rowFields row vendorId) doc) = productID_in doc.
Proof.
  unfold productID_in. rewrite DocFacts.field_assign_notin; [done|].
  rewrite rowFields_keys. apply productID_not_rowKeys.
Qed.

Lemma variants_of_rowFields row vendorId (doc : Doc) :
  variants_of (assign (rowFields row vendorId) doc) = variants_of doc.
Proof.
  unfold variants_of. rewrite DocFacts.field_assign_notin; [done|].
  rewrite rowFields_keys. apply variants_not_rowKeys.
Qed.

(** The stored document after the update made for its group. *)
Lemma carries_updated d row vendorId vs productID :
  productID_in d = Some productID ->
  carries row vendorId (mergeVariants (variants_of d) vs) productID
    (assign (fields_of (updatedDoc d row vendorId vs)) d).
Proof.
  intros Hp. split_and!.
  - unfold productID_in in *. rewrite field_fields_of by apply productID_setFields.
    rewrite field_updatedDoc_other; [done | apply productID_not_rowKeys | done].
  - intros k Hk. apply AssignFacts.keys_assign_subseteq. right. by rewrite fields_of_keys.
  - rewrite field_fields_of by apply variants_setFields. apply field_updatedDoc_variants.
  - intros k v Hin. rewrite field_fields_of.
    + by apply field_updatedDoc_row.
    + apply rowKeys_setFields. rewrite <- (rowFields_keys row vendorId).
      by apply (list_elem_of_fmap_2 fst) in Hin.
Qed.

(** The document inserted for a group without stored product. *)
Lemma carries_inserted op docId doc row vendorId vs productID :
  BulkOp.filter_productID op = productID ->
  BulkOp.update_setOnInsert op = Some [("docId", docId)] ->
  BulkOp.update_set op = fields_of doc ->
  fresh_doc productID row vs vendorId doc ->
  carries row vendorId vs productID (inserted op).
Proof.
  intros Hf Hsoi Hset (Hp & Hv & Hrow). unfold inserted. rewrite Hsoi, Hset, Hf. cbn [default].
  assert (Hfield : forall k, k ∈ setFields ->
    field k (assign [("docId", docId)]
               (assign (fields_of doc) [("productID", VString productID)])) = field k doc).
  { intros k Hk. rewrite DocFacts.field_assign_notin.
    - by apply field_fields_of.
    - cbn. intros ->%list_elem_of_singleton. by apply docId_not_set in Hk. }
  split_and!.
  - unfold productID_in. by rewrite Hfield, Hp by apply productID_setFields.
  - intros k Hk. apply AssignFacts.keys_assign_subseteq. left.
    apply AssignFacts.keys_assign_subseteq. right. by rewrite fields_of_keys.
  - by rewrite Hfield by apply variants_setFields.
  - intros k v Hin. rewrite Hfield; [by apply Hrow|].
    apply rowKeys_setFields. rewrite <- (rowFields_keys row vendorId).
    by apply (list_elem_of_fmap_2 fst) in Hin.
Qed.

(** Writing the fields of the representative row again on a document that
    carries them changes nothing. *)
Lemma carries_rowFields_id row vendorId l productID doc :
  carries row vendorId l productID doc -> assign (rowFields row vendorId) doc = doc.
Proof.
  intros (_ & Hkeys & _ & Hrow). apply AssignFacts.assign_id.
  intros k v Hin. apply field_key; [|by apply Hrow].
  apply Hkeys, rowKeys_setFields. rewrite <- (rowFields_keys row vendorId).
  by apply (list_elem_of_fmap_2 fst) in Hin.
Qed.

End WrittenFacts.

(** ** The instructions of a chunk *)

Module OpsFacts.

Lemma ops_made_filters G existing s productIDs ops :
  ops_made G existing s productIDs ops -> BulkOp.filter_productID <$> ops = productIDs.
Proof.
  unfold ops_made. induction 1 as [|p op ps ops (g & _ & _ & _ & Hp & _) _ IH]; [done|].
  cbn. by rewrite Hp, IH.
Qed.

Lemma ops_made_elem G existing s productIDs ops op :
  ops_made G existing s productIDs ops -> op ∈ ops ->
  exists g, BulkOp.filter_productID op ∈ productIDs /\
    JsMap.get (BulkOp.filter_productID op) G = Some g /\
    Group.row g !! "SiteSource" ∈ Vendor.name <$> Store.vendors s /\
    Group.row g !! "ManufacturerID" ∈
      Manufacturer.manufacturerId <$> Store.manufacturers s /\
    op_made g (existing (BulkOp.filter_productID op)) (Store.vendors s)
      (BulkOp.filter_productID op) op.
Proof.
  unfold ops_made. induction 1 as [|p op' ps ops' (g & Hg & Hv & Hm & Hop) _ IH].
  - by intros ?%elem_of_nil.
  - intros [->|Hin]%elem_of_cons.
    + pose proof Hop as (Hp & _). rewrite Hp. exists g. split_and!; try done.
      apply elem_of_cons. by left.
    + destruct (IH Hin) as (g' & ? & ?). exists g'. split; [apply elem_of_cons; by right | done].
Qed.

Lemma ops_made_lookup G existing s productIDs ops productID :
  ops_made G existing s productIDs ops -> productID ∈ productIDs ->
  exists op, op ∈ ops /\ BulkOp.filter_productID op = productID.
Proof.
  intros H Hin. rewrite <- (ops_made_filters _ _ _ _ _ H) in Hin.
  apply list_elem_of_fmap in Hin as (op & -> & Hop). by exists op.
Qed.

(** An instruction made for a group writes its document id on insertion
    only and keeps the product id its filter selects. *)
Lemma op_made_good g docs V productID op :
  op_made g (stored productID docs) V productID op ->
  docId_insert_only op /\ keeps_productID op /\ BulkOp.upsert op = true.
Proof.
  intros (Hp & Hup & Hop). destruct (stored productID docs) as [d|] eqn:E.
  - destruct Hop as (Hsoi & Hset). apply BulkFacts.stored_Some in E as [_ E]. split_and!.
    + split; [|by rewrite Hsoi]. rewrite Hset, WrittenFacts.fields_of_keys.
      apply docId_not_set.
    + intros v Hv. rewrite Hset in Hv. apply DocFacts.elem_of_fields in Hv as ->.
      rewrite WrittenFacts.field_updatedDoc_other;
        [| apply WrittenFacts.productID_not_rowKeys | done].
      unfold productID_in in E. rewrite Hp.
      destruct (field "productID" d); try done. by injection E as ->.
    + done.
  - destruct Hop as ((docId & Hsoi) & doc & Hset & Hid & _). split_and!.
    + split; [|rewrite Hsoi; by intros ? [= <-]]. rewrite Hset, WrittenFacts.fields_of_keys.
      apply docId_not_set.
    + intros v Hv. rewrite Hset in Hv. apply DocFacts.elem_of_fields in Hv as ->.
      by rewrite Hid, Hp.
    + done.
Qed.

Lemma ops_made_good G docs s productIDs ops :
  ops_made G (fun productID => stored productID docs) s productIDs ops ->
  Forall (fun op => docId_insert_only op /\ keeps_productID op /\ BulkOp.upsert op = true) ops.
Proof.
  intros H. apply Forall_forall. intros op Hop.
  destruct (ops_made_elem _ _ _ _ _ _ H Hop) as (g & _ & _ & _ & _ & Hmade).
  by eapply op_made_good.
Qed.

Lemma productID_in_patch ops doc :
  Forall keeps_productID ops -> productID_in (patch ops doc) = productID_in doc.
Proof.
  unfold patch. revert doc. induction ops as [|op ops IH]; intros doc Hops; [done|].
  inversion Hops; subst. cbn. rewrite IH by done. by apply BulkFacts.productID_in_patch1.
Qed.

End OpsFacts.

(** ** More on merged lists *)

Module MergedFacts.

Lemma get_keyed_lookup (l : list Variant.t) s :
  JsMap.get s ((fun v => (Variant.sku v, v)) <$> l) = lookup_sku s l.
Proof.
  unfold lookup_sku. induction l as [|v l IH]; [done|]. cbn.
  destruct (decide (s = Variant.sku v)) as [->|Hne].
  - by rewrite bool_decide_eq_true_2.
  - by rewrite bool_decide_eq_false_2 by congruence.
Qed.

(** The variant a merged list holds under a sku, when neither list repeats
    a sku. *)
Lemma lookup_mergeVariants (l vs : list Variant.t) s :
  NoDup (Variant.sku <$> l) -> NoDup (Variant.sku <$> vs) ->
  lookup_sku s (mergeVariants l vs) =
    match lookup_sku s vs with
    | Some v =>
        Some (match lookup_sku s l with
              | Some p => if isVariantUpdated p v then v else p
              | None => v
              end)
    | None => lookup_sku s l
    end.
Proof.
  intros Hl Hvs. unfold mergeVariants.
  rewrite MergeFacts.lookup_values by apply MergeFacts.keyed_fold_merge, MergeFacts.keyed_index.
  rewrite MergeFacts.get_fold_merge by done.
  rewrite (NothingNew.index_distinct l JsMap.empty) by done. cbn [JsMap.empty app].
  by rewrite get_keyed_lookup.
Qed.

(** A stored variant whose sku no incoming variant has stays. *)
Lemma mergeVariants_keeps (l vs : list Variant.t) a :
  NoDup (Variant.sku <$> l) -> NoDup (Variant.sku <$> vs) ->
  a ∈ l -> Variant.sku a ∉ Variant.sku <$> vs -> a ∈ mergeVariants l vs.
Proof.
  intros Hl Hvs Ha Hnew.
  pose proof (lookup_mergeVariants l vs (Variant.sku a) Hl Hvs) as H.
  rewrite (proj2 (MergeFacts.lookup_sku_None _ _) Hnew) in H.
  rewrite (MergeFacts.lookup_sku_member l a) in H by done.
  by apply MergeFacts.lookup_sku_Some in H as [? _].
Qed.

(** Every incoming variant finds in the merged list a variant of its sku:
    itself, or a stored one that shows no change to it. *)
Lemma mergeVariants_covers (l vs : list Variant.t) v :
  NoDup (Variant.sku <$> vs) -> v ∈ vs ->
  exists a, a ∈ mergeVariants l vs /\ Variant.sku a = Variant.sku v /\
    (a = v \/ isVariantUpdated a v = false).
Proof.
  intros Hvs Hv.
  assert (Hget : exists a, lookup_sku (Variant.sku v) (mergeVariants l vs) = Some a /\
                   (a = v \/ isVariantUpdated a v = false)).
  { unfold mergeVariants.
    rewrite MergeFacts.lookup_values
      by apply MergeFacts.keyed_fold_merge, MergeFacts.keyed_index.
    rewrite MergeFacts.get_fold_merge by done.
    rewrite (MergeFacts.lookup_sku_member vs v) by done.
    destruct (JsMap.get _ _) as [p|]; [|by exists v; split; [|left]].
    destruct (isVariantUpdated p v) eqn:E; eexists; split; try reflexivity; auto. }
  destruct Hget as (a & Hget & Hsame).
  apply MergeFacts.lookup_sku_Some in Hget as [Hin Hsku]. by exists a.
Qed.

End MergedFacts.

(** ** The two runs *)

Module ListFacts.

Lemma fmap_id_on {A : Type} (f : A -> A) (l : list A) :
  (forall x, x ∈ l -> f x = x) -> f <$> l = l.
Proof.
  induction l as [|x l IH]; intros H; [done|]. cbn.
  rewrite H by (apply elem_of_cons; by left). f_equal.
  apply IH. intros y Hy. apply H, elem_of_cons. by right.
Qed.

Lemma fmap_ext_on {A B : Type} (f g : A -> B) (l : list A) :
  (forall x, x ∈ l -> f x = g x) -> f <$> l = g <$> l.
Proof.
  induction l as [|x l IH]; intros H; [done|]. cbn.
  rewrite H by (apply elem_of_cons; by left). f_equal.
  apply IH. intros y Hy. apply H, elem_of_cons. by right.
Qed.

Lemma filter_none {A : Type} (f : A -> bool) (l : list A) :
  (forall x, x ∈ l -> f x = false) -> List.filter f l = [].
Proof.
  induction l as [|x l IH]; intros H; [done|]. cbn.
  rewrite H by (apply elem_of_cons; by left).
  apply IH. intros y Hy. apply H, elem_of_cons. by right.
Qed.

Lemma Forall2_elem_r {A B : Type} (R : A -> B -> Prop) l k y :
  Forall2 R l k -> y ∈ k -> exists x, x ∈ l /\ R x y.
Proof.
  induction 1 as [|x y' l k HR _ IH]; [by intros ?%elem_of_nil|].
  intros [->|Hin]%elem_of_cons.
  - exists x. split; [apply elem_of_cons; by left | done].
  - destruct (IH Hin) as (x' & ? & ?). exists x'. split; [apply elem_of_cons; by right | done].
Qed.

Lemma Forall2_elem_l {A B : Type} (R : A -> B -> Prop) l k x :
  Forall2 R l k -> x ∈ l -> exists y, y ∈ k /\ R x y.
Proof.
  induction 1 as [|x' y l k HR _ IH]; [by intros ?%elem_of_nil|].
  intros [->|Hin]%elem_of_cons.
  - exists y. split; [apply elem_of_cons; by left | done].
  - destruct (IH Hin) as (y' & ? & ?). exists y'. split; [apply elem_of_cons; by right | done].
Qed.

End ListFacts.

(** A first run settles the store on the chunks of the file. A second run
    finds every chunk saturated, and replays it, or stuck and idle, and
    changes nothing there. *)

Section Idempotence.
Variable parseFloat : option string -> float.

Lemma refreshed_crashing chunk V doc : crashing chunk -> refreshed chunk V doc = doc.
Proof.
  intros H. unfold refreshed. destruct (productID_in doc); [|done].
  destruct (rows_of _ chunk); [done|]. by rewrite decide_True.
Qed.

Lemma refreshed_cases chunk V doc :
  refreshed chunk V doc = doc \/
  exists row vendorId, refreshed chunk V doc = assign (rowFields row vendorId) doc.
Proof.
  unfold refreshed. destruct (productID_in doc); [|by left].
  destruct (rows_of _ chunk) as [|row rest]; [by left|].
  destruct (decide _); [by left|]. right. by eexists _, _.
Qed.

Lemma productID_in_refreshed chunk V doc :
  productID_in (refreshed chunk V doc) = productID_in doc.
Proof.
  destruct (refreshed_cases chunk V doc) as [->|(row & vid & ->)]; [done|].
  apply WrittenFacts.productID_in_rowFields.
Qed.

Lemma variants_refreshed chunk V doc :
  field "variants" (refreshed chunk V doc) = field "variants" doc.
Proof.
  destruct (refreshed_cases chunk V doc) as [->|(row & vid & ->)]; [done|].
  apply DocFacts.field_assign_notin. rewrite WrittenFacts.rowFields_keys.
  apply WrittenFacts.variants_not_rowKeys.
Qed.

Lemma keys_refreshed chunk V doc k :
  k ∈ JsMap.keys doc -> k ∈ JsMap.keys (refreshed chunk V doc).
Proof.
  destruct (refreshed_cases chunk V doc) as [->|(row & vid & ->)]; [done|].
  intros H. apply AssignFacts.keys_assign_subseteq. by left.
Qed.

(** An update that finds its variants in the stored list writes the fields
    of the representative row and nothing else. *)
Lemma update_refreshes d row vendorId vs l :
  (forall k, k ∈ setFields -> k ∈ JsMap.keys d) ->
  field "variants" d = VVariants l -> mergeVariants l vs = l ->
  assign (fields_of (updatedDoc d row vendorId vs)) d = assign (rowFields row vendorId) d.
Proof.
  intros Hkeys Hl Hmerge.
  assert (Hrow : forall k, k ∈ (rowFields row vendorId).*1 -> k ∈ JsMap.keys d).
  { intros k Hk. rewrite WrittenFacts.rowFields_keys in Hk.
    by apply Hkeys, WrittenFacts.rowKeys_setFields. }
  assert (HD : updatedDoc d row vendorId vs = assign (rowFields row vendorId) d).
  { unfold updatedDoc, variants_of. rewrite Hl, Hmerge. apply JsMapFacts.set_get_id.
    rewrite AssignFacts.get_assign_notin.
    - apply WrittenFacts.field_key; [|done]. apply Hkeys, WrittenFacts.variants_setFields.
    - rewrite WrittenFacts.rowFields_keys. apply WrittenFacts.variants_not_rowKeys. }
  rewrite HD. generalize (eq_refl (assign (rowFields row vendorId) d)).
  generalize (assign (rowFields row vendorId) d) at 1 3. intros D HDef.
  rewrite (AssignFacts.assign_overwrite (fields_of D)),
    (AssignFacts.assign_overwrite (rowFields row vendorId)).
  2: rewrite WrittenFacts.rowFields_keys; apply WrittenFacts.NoDup_rowKeys.
  2: done.
  2: rewrite WrittenFacts.fields_of_keys; apply WrittenFacts.NoDup_setFields.
  2: intros k Hk; rewrite WrittenFacts.fields_of_keys in Hk; by apply Hkeys.
  apply AssignFacts.overwrite_eq. intros k v Hget.
  assert (Hfield : field k d = v) by (unfold field; by rewrite Hget).
  destruct (decide (k ∈ rowKeys)) as [Hrk|Hrk].
  - assert (Hin : exists rv, (k, rv) ∈ rowFields row vendorId) .
    { rewrite <- (WrittenFacts.rowFields_keys row vendorId) in Hrk.
      apply list_elem_of_fmap in Hrk as ([k' rv] & -> & Hrv). by exists rv. }
    destruct Hin as [rv Hrv].
    assert (Hnd : NoDup (rowFields row vendorId).*1)
      by (rewrite WrittenFacts.rowFields_keys; apply WrittenFacts.NoDup_rowKeys).
    assert (Hg1 : JsMap.get k (rowFields row vendorId) = Some rv).
    { pose proof (AssignFacts.get_in (rowFields row vendorId) k rv Hnd Hrv). done. }
    assert (Hg2 : JsMap.get k (fields_of D) = Some (field k D)).
    { apply AssignFacts.get_in.
      - rewrite WrittenFacts.fields_of_keys. apply WrittenFacts.NoDup_setFields.
      - unfold fields_of. apply list_elem_of_fmap. exists k. split; [done|].
        by apply WrittenFacts.rowKeys_setFields. }
    rewrite Hg1, Hg2. cbn. rewrite HDef. by apply AssignFacts.field_assign.
  - assert (Hg1 : JsMap.get k (rowFields row vendorId) = None).
    { apply JsMapFacts.get_None. change (k ∉ (rowFields row vendorId).*1).
      by rewrite WrittenFacts.rowFields_keys. }
    rewrite Hg1. destruct (decide (k ∈ setFields)) as [Hsk|Hsk].
    + assert (Hg2 : JsMap.get k (fields_of D) = Some (field k D)).
      { apply AssignFacts.get_in.
        - rewrite WrittenFacts.fields_of_keys. apply WrittenFacts.NoDup_setFields.
        - unfold fields_of. apply list_elem_of_fmap. by exists k. }
      rewrite Hg2. cbn. rewrite HDef, DocFacts.field_assign_notin; [done|].
      by rewrite WrittenFacts.rowFields_keys.
    + assert (Hg2 : JsMap.get k (fields_of D) = None).
      { apply JsMapFacts.get_None. change (k ∉ (fields_of D).*1).
        by rewrite WrittenFacts.fields_of_keys. }
      by rewrite Hg2.
Qed.

(** The groups of a chunk are those of the product ids that have rows. *)
Lemma groups_of_rows chunk G productID g :
  groups_of parseFloat chunk G -> JsMap.get productID G = Some g ->
  exists rest, rows_of productID chunk = Group.row g :: rest /\
    Forall2 (built_from parseFloat) (Group.row g :: rest) (Group.variants g).
Proof.
  intros (_ & _ & H) Hg. destruct (H _ _ Hg) as (rest & Hrows & Hv).
  exists rest. split; [done|]. by rewrite <- Hrows.
Qed.

Lemma groups_of_get chunk G productID row rest :
  groups_of parseFloat chunk G -> rows_of productID chunk = row :: rest ->
  exists g, JsMap.get productID G = Some g /\ Group.row g = row /\
    Forall2 (built_from parseFloat) (row :: rest) (Group.variants g).
Proof.
  intros HG Hrows. pose proof HG as (_ & Hnone & _).
  destruct (JsMap.get productID G) as [g|] eqn:Hg.
  - destruct (groups_of_rows _ _ _ _ HG Hg) as (rest' & Hrows' & Hv).
    rewrite Hrows in Hrows'. injection Hrows' as -> ->. by exists g.
  - rewrite (Hnone _ Hg) in Hrows. done.
Qed.

Lemma NoDup_ownKeys ks : NoDup ks -> NoDup (Js.ownKeys ks).
Proof. intros H. by rewrite ownKeys_Permutation. Qed.

Lemma elem_of_ownKeys ks k : k ∈ Js.ownKeys ks <-> k ∈ ks.
Proof. by rewrite ownKeys_Permutation. Qed.

Lemma elem_of_rows_of productID chunk r :
  r ∈ rows_of productID chunk <->
  (valid r = true /\ productID_of r = productID) /\ r ∈ chunk.
Proof. unfold rows_of. by rewrite list_elem_of_filter. Qed.

Lemma elem_of_group_ids chunk productID :
  productID ∈ group_ids chunk <-> rows_of productID chunk <> [].
Proof.
  unfold group_ids. rewrite elem_of_ownKeys, MergeFacts.elem_of_distinct, list_elem_of_fmap.
  split.
  - intros (r & -> & Hr%list_elem_of_filter) E.
    assert (Hin : r ∈ rows_of (productID_of r) chunk).
    { apply elem_of_rows_of. by destruct Hr. }
    rewrite E in Hin. by apply elem_of_nil in Hin.
  - destruct (rows_of productID chunk) as [|r rest] eqn:E; [done|]. intros _.
    assert (Hin : r ∈ rows_of productID chunk) by (rewrite E; apply elem_of_cons; by left).
    apply elem_of_rows_of in Hin as [[Hv Hp] Hin]. exists r. split; [done|].
    by apply list_elem_of_filter.
Qed.

Lemma stuck_rows products chunk productID row rest :
  stuck products chunk = false -> rows_of productID chunk = row :: rest ->
  unreadable products productID = false.
Proof.
  intros Hstuck Hrows. apply (proj1 (ReachedFacts.stuck_false products chunk) Hstuck).
  apply elem_of_group_ids. by rewrite Hrows.
Qed.

(** A chunk on a store that already holds what it brings: when it is stuck
    nothing changes, otherwise the fields of the representative rows are
    written again, and nothing else changes. *)
Lemma attempt_saturated context chunk w :
  reliable w -> distinct_products (store w) ->
  saturated parseFloat chunk (store w) -> idle chunk (store w) ->
  reliable (attempt parseFloat context chunk w) /\
  store (attempt parseFloat context chunk w) =
    if stuck (Store.products (store w)) chunk then store w
    else refreshed_store chunk (store w).
Proof.
  intros Hw Hpn Hsat Hidle.
  destruct (processChunk_reliable parseFloat chunk w Hw Hpn)
    as (o & w' & Hrun & Hw' &
        [[Hcrash Hstore]|[(Hnc & Hstuck & _ & _ & _ & _ & _ & _ & Hsame)
                         |(Hnc & Hstuck & -> & G & ops & HG & Heff)]]);
    unfold attempt; rewrite Hrun.
  - assert (Hsame : store w' =
        if stuck (Store.products (store w)) chunk then store w
        else refreshed_store chunk (store w)).
    { rewrite Hstore. destruct (stuck _ _); [done|]. unfold refreshed_store.
      rewrite ListFacts.fmap_id_on; [by destruct (store w)|].
      intros doc _. by apply refreshed_crashing. }
    destruct o; [done|]. split; [by apply GroupFacts.reliable_logged | done].
  - rewrite Hstuck. specialize (Hsame Hidle).
    destruct o; [done|]. split; [by apply GroupFacts.reliable_logged | done].
  - rewrite Hstuck. unfold refreshed_store. split; [done|]. specialize (Hsat Hnc Hstuck).
    destruct Heff as (Hprod & _ & _ & _ & _ & Hsame & Hops).
    destruct Hsame as [HV HM].
    { intros productID g Hg.
      destruct (groups_of_rows _ _ _ _ HG Hg) as (rest & Hrows & _).
      destruct (Hsat _ _ _ Hrows) as (? & ? & _). done. }
    assert (Hfilters := OpsFacts.ops_made_filters _ _ _ _ _ Hops).
    assert (Hgood := OpsFacts.ops_made_good _ _ _ _ _ Hops).
    assert (Hnd : NoDup (BulkOp.filter_productID <$> ops)).
    { rewrite Hfilters. apply NoDup_ownKeys. by destruct HG. }
    assert (Hkeep : Forall keeps_productID ops).
    { eapply Forall_impl; [exact Hgood|]. by intros op (_ & ? & _). }
    rewrite BulkFacts.bulkWrite_patch in Hprod by done.
    rewrite ListFacts.filter_none, app_nil_r in Hprod.
    + destruct (store w') as [V' M' P'].
      cbn [Store.vendors Store.manufacturers Store.products] in *. subst V' M' P'. f_equal.
      apply ListFacts.fmap_ext_on. intros doc Hdoc. unfold refreshed.
      destruct (productID_in doc) as [productID|] eqn:Epid.
      * destruct (rows_of productID chunk) as [|row rest] eqn:Erows.
        -- apply BulkFacts.patch_unmatched. intros op Hop Heq.
           rewrite Epid in Heq. injection Heq as ->.
           destruct (OpsFacts.ops_made_elem _ _ _ _ _ _ Hops Hop) as (g & _ & Hg & _).
           destruct (groups_of_rows _ _ _ _ HG Hg) as (rest & Hrows & _). congruence.
        -- rewrite decide_False by done.
           destruct (groups_of_get _ _ _ _ _ HG Erows) as (g & Hg & Hrow & Hbuilt).
           destruct (OpsFacts.ops_made_lookup _ _ _ _ _ productID Hops) as (op & Hop & Hp).
           { apply elem_of_ownKeys. by eapply JsMapFacts.get_Some_keys. }
           destruct (OpsFacts.ops_made_elem _ _ _ _ _ _ Hops Hop)
             as (g' & _ & Hg' & _ & _ & Hmade).
           rewrite Hp, Hg in Hg'. injection Hg' as <-. cbn [Store.vendors] in Hmade.
           rewrite Hp, (BulkFacts.stored_member productID _ doc) in Hmade by done.
           destruct Hmade as (_ & _ & _ & Hset).
           rewrite (BulkFacts.patch_matched ops op) by (try done; by rewrite Hp).
           rewrite Hset, Hrow.
           destruct (Hsat _ _ _ Erows)
             as (_ & _ & doc' & l & Hdoc' & Epid' & Hkeys & Hl & Hskus & Hrows).
           assert (doc' = doc) as ->.
           { pose proof (BulkFacts.stored_member productID _ doc Hpn Hdoc Epid) as H1.
             pose proof (BulkFacts.stored_member productID _ doc' Hpn Hdoc' Epid') as H2.
             congruence. }
           apply (update_refreshes _ _ _ _ l); try done.
           apply NothingNew.mergeVariants_same.
           ++ done.
           ++ intros v Hv.
              destruct (ListFacts.Forall2_elem_r _ _ _ _ Hbuilt Hv) as (r & Hr & Hrv).
              destruct (Hrows r Hr) as (a & Ha & Hsku & Hupd).
              exists a. split_and!; [done | | by apply Hupd].
              destruct Hrv as (-> & _). done.
      * apply BulkFacts.patch_unmatched. intros op _. by rewrite Epid.
    + intros op Hop.
      destruct (OpsFacts.ops_made_elem _ _ _ _ _ _ Hops Hop) as (g & _ & Hg & _).
      destruct (groups_of_rows _ _ _ _ HG Hg) as (rest & Hrows & _).
      destruct (Hsat _ _ _ Hrows) as (_ & _ & doc & l & Hdoc & Epid & _).
      rewrite (BulkFacts.stored_member _ _ doc) by done. done.
Qed.

Lemma omap_productID_refreshed chunk V (docs : list Doc) :
  omap productID_in (refreshed chunk V <$> docs) = omap productID_in docs.
Proof.
  induction docs as [|d docs IH]; [done|]. cbn.
  by rewrite productID_in_refreshed, IH.
Qed.

Lemma variants_of_refreshed chunk V doc :
  variants_of (refreshed chunk V doc) = variants_of doc.
Proof. unfold variants_of. by rewrite variants_refreshed. Qed.

Lemma refreshed_distinct chunk s :
  distinct_products s -> distinct_products (refreshed_store chunk s).
Proof.
  unfold distinct_products, refreshed_store. cbn [Store.products].
  by rewrite omap_productID_refreshed.
Qed.

Lemma has_productID_same productID (d d' : Doc) :
  productID_in d' = productID_in d -> has_productID productID d' = has_productID productID d.
Proof.
  intros H. destruct (has_productID productID d) eqn:E.
  - apply BulkFacts.has_productID_in. rewrite H. by apply BulkFacts.has_productID_in.
  - apply BulkFacts.has_productID_false. rewrite H. by apply BulkFacts.has_productID_false.
Qed.

Lemma stored_fmap (f : Doc -> Doc) productID (docs : list Doc) :
  (forall d, productID_in (f d) = productID_in d) ->
  stored productID (f <$> docs) = f <$> stored productID docs.
Proof.
  intros Hf. unfold stored. induction docs as [|d docs IH]; [done|]. cbn.
  rewrite (has_productID_same productID d (f d)) by apply Hf.
  by destruct (has_productID productID d).
Qed.

(** Writing the fields of a row again does not touch the variants. *)
Lemma unreadable_refreshed chunk V (docs : list Doc) productID :
  unreadable (refreshed chunk V <$> docs) productID = unreadable docs productID.
Proof.
  unfold unreadable. rewrite stored_fmap by (intros d; apply productID_in_refreshed).
  destruct (stored productID docs) as [d|]; [|done]. cbn.
  apply bool_decide_ext. unfold variants_readable. by rewrite variants_refreshed.
Qed.

Lemma stuck_refreshed chunk c s :
  stuck (Store.products (refreshed_store chunk s)) c = stuck (Store.products s) c.
Proof. apply ReachedFacts.stuck_ext. intros k _. apply unreadable_refreshed. Qed.

Lemma refreshed_saturated chunk c s :
  saturated parseFloat c s -> saturated parseFloat c (refreshed_store chunk s).
Proof.
  intros Hsat Hnc Hstuck productID row rest Hrows. rewrite stuck_refreshed in Hstuck.
  destruct (Hsat Hnc Hstuck _ _ _ Hrows)
    as (Hv & Hm & doc & l & Hdoc & Hp & Hkeys & Hl & Hskus & Hr).
  unfold refreshed_store. cbn [Store.vendors Store.manufacturers Store.products].
  split_and!; try done.
  exists (refreshed chunk (Store.vendors s) doc), l. split_and!; try done.
  - by apply list_elem_of_fmap_2.
  - by rewrite productID_in_refreshed.
  - intros k Hk. by apply keys_refreshed, Hkeys.
  - by rewrite variants_refreshed.
Qed.

Lemma refreshed_idle chunk c s : idle c s -> idle c (refreshed_store chunk s).
Proof.
  intros Hidle Hnc Hstuck productID row rest Hin Hrows. rewrite stuck_refreshed in Hstuck.
  apply (Hidle Hnc Hstuck productID row rest); [|done].
  unfold refreshed_store in Hin. cbn [Store.products] in Hin.
  rewrite (ReachedFacts.reached_ext (Store.products s)) in Hin; [done|].
  intros k _. apply unreadable_refreshed.
Qed.

Lemma writing_ext (products' products : list Doc) cs :
  (forall k, unreadable products' k = unreadable products k) ->
  writing products' cs = writing products cs.
Proof.
  intros H. unfold writing. induction cs as [|c cs IH]; [done|]. cbn.
  rewrite (ReachedFacts.stuck_ext products products' c) by (intros k _; apply H).
  by rewrite IH.
Qed.

Lemma writing_app products cs cs' :
  writing products (cs ++ cs') = writing products cs ++ writing products cs'.
Proof. unfold writing. apply List.filter_app. Qed.

Lemma elem_of_writing products cs c :
  c ∈ writing products cs <-> c ∈ cs /\ stuck products c = false.
Proof.
  unfold writing. rewrite !list_elem_of_In, filter_In, negb_true_iff. done.
Qed.

(** A run over chunks that bring nothing new replays, on every stored
    product, those that are not stuck. *)
Lemma attempts_saturated (all : list (list Row)) chunks w :
  reliable w -> distinct_products (store w) ->
  (forall c, c ∈ all -> saturated parseFloat c (store w) /\ idle c (store w)) ->
  (forall c, c ∈ chunks.*2 -> c ∈ all) ->
  reliable (attempts parseFloat chunks w) /\
  store (attempts parseFloat chunks w) =
    Store.mk (Store.vendors (store w)) (Store.manufacturers (store w))
      (replay (writing (Store.products (store w)) chunks.*2) (Store.vendors (store w))
         <$> Store.products (store w)).
Proof.
  revert w. induction chunks as [|[context chunk] chunks IH]; intros w Hw Hpn Hsat Hin.
  - split; [done|]. cbn. rewrite list_fmap_id. by destruct (store w).
  - cbn [attempts fold_left fst snd].
    destruct (Hsat chunk) as [Hsatc Hidlec].
    { apply Hin. cbn. apply elem_of_cons. by left. }
    destruct (attempt_saturated context chunk w Hw Hpn Hsatc Hidlec) as [Hw1 Hs1].
    assert (Hin' : forall c, c ∈ chunks.*2 -> c ∈ all).
    { intros c Hc. apply Hin. cbn. apply elem_of_cons. by right. }
    cbn [fmap list_fmap snd]. unfold writing. cbn [List.filter]. fold (writing (Store.products (store w)) chunks.*2).
    destruct (stuck (Store.products (store w)) chunk) eqn:Hstuck; cbn [negb].
    + destruct (IH (attempt parseFloat context chunk w)) as [Hw2 Hs2]; try done.
      * by rewrite Hs1.
      * by rewrite Hs1.
      * split; [exact Hw2|]. unfold attempts in Hs2. by rewrite Hs2, Hs1.
    + destruct (IH (attempt parseFloat context chunk w)) as [Hw2 Hs2]; try done.
      * rewrite Hs1. by apply refreshed_distinct.
      * intros c Hc. rewrite Hs1. destruct (Hsat c Hc).
        split; [by apply refreshed_saturated | by apply refreshed_idle].
      * split; [exact Hw2|]. unfold attempts in Hs2. rewrite Hs2, Hs1.
        unfold refreshed_store. cbn [Store.vendors Store.manufacturers Store.products].
        f_equal. rewrite (writing_ext _ (Store.products (store w)))
          by (intros k; apply unreadable_refreshed).
        rewrite <- list_fmap_compose. done.
Qed.

Lemma replay_snoc cs c V doc :
  replay (cs ++ [c]) V doc = refreshed c V (replay cs V doc).
Proof. unfold replay. by rewrite fold_left_app. Qed.

Lemma productID_in_replay cs V doc : productID_in (replay cs V doc) = productID_in doc.
Proof.
  unfold replay. revert doc. induction cs as [|c cs IH]; intros doc; [done|].
  cbn [fold_left]. by rewrite IH, productID_in_refreshed.
Qed.

Lemma replay_cases cs V doc :
  (forall k, k ∈ rowKeys -> k ∈ JsMap.keys doc) ->
  replay cs V doc = doc \/
  exists row vendorId, replay cs V doc = assign (rowFields row vendorId) doc.
Proof.
  unfold replay. revert doc. induction cs as [|c cs IH]; intros doc Hkeys; [by left|].
  cbn [fold_left]. destruct (refreshed_cases c V doc) as [->|(row & vid & ->)]; [by apply IH|].
  destruct (IH (assign (rowFields row vid) doc)) as [->|(row' & vid' & ->)].
  - intros k Hk. apply AssignFacts.keys_assign_subseteq. left. by apply Hkeys.
  - right. by eexists _, _.
  - right. exists row', vid'. apply AssignFacts.assign_assign; try done.
    all: first [ rewrite WrittenFacts.rowFields_keys; apply WrittenFacts.NoDup_rowKeys
               | intros k Hk; rewrite WrittenFacts.rowFields_keys in Hk; by apply Hkeys ].
Qed.

Lemma refreshed_vendors c s V' doc :
  saturated parseFloat c s -> stuck (Store.products s) c = false ->
  Store.vendors s `prefix_of` V' ->
  refreshed c V' doc = refreshed c (Store.vendors s) doc.
Proof.
  intros Hsat Hstuck [added ->]. unfold refreshed.
  destruct (productID_in doc) as [pid|]; [|done].
  destruct (rows_of pid c) as [|row rest] eqn:E; [done|].
  destruct (decide (crashing c)) as [|Hnc]; [done|].
  destruct (Hsat Hnc Hstuck _ _ _ E) as (Hv & _). by rewrite ResolveFacts.vendorId_for_app.
Qed.

Lemma replay_vendors cs s V' doc :
  (forall c, c ∈ cs -> saturated parseFloat c s /\ stuck (Store.products s) c = false) ->
  Store.vendors s `prefix_of` V' ->
  replay cs V' doc = replay cs (Store.vendors s) doc.
Proof.
  unfold replay. revert doc. induction cs as [|c cs IH]; intros doc Hsat Hpre; [done|].
  cbn [fold_left]. destruct (Hsat c) as [Hc Hstuck]; [apply elem_of_cons; by left|].
  rewrite (refreshed_vendors c s) by done.
  apply IH; [|done]. intros c' Hc'. apply Hsat, elem_of_cons. by right.
Qed.

(** A chunk on a document that carries what the chunk brought. *)
Lemma refreshed_carried chunk V row rest l productID doc X :
  ~ crashing chunk -> rows_of productID chunk = row :: rest ->
  carries row (vendorId_for (row !! "SiteSource") V) l productID doc ->
  X = doc \/ (exists row' vendorId', X = assign (rowFields row' vendorId') doc) ->
  refreshed chunk V X = doc.
Proof.
  intros Hnc Hrows Hc HX. pose proof Hc as (Hp & Hkeys & _).
  assert (HpX : productID_in X = Some productID).
  { destruct HX as [->|(row' & vid' & ->)]; [done|].
    by rewrite WrittenFacts.productID_in_rowFields. }
  unfold refreshed. rewrite HpX, Hrows, decide_False by done.
  destruct HX as [->|(row' & vid' & ->)].
  - by eapply WrittenFacts.carries_rowFields_id.
  - rewrite AssignFacts.assign_assign; try done.
    all: first [ by eapply WrittenFacts.carries_rowFields_id
               | rewrite WrittenFacts.rowFields_keys; apply WrittenFacts.NoDup_rowKeys
               | intros k Hk; rewrite WrittenFacts.rowFields_keys in Hk;
                 by apply Hkeys, WrittenFacts.rowKeys_setFields ].
Qed.

(** *** Rows with distinct skus *)

Lemma skus_of_keys (l : list Row) productID :
  (forall r, r ∈ l -> productID_of r = productID) ->
  NoDup (row_key <$> l) -> NoDup (sku_of <$> l).
Proof.
  induction l as [|r l IH]; intros Hp Hnd; [constructor|].
  rewrite fmap_cons in *. apply NoDup_cons in Hnd as [Hnotin Hnd]. apply NoDup_cons. split.
  - intros (r' & Hsku & Hr')%list_elem_of_fmap. apply Hnotin.
    apply list_elem_of_fmap. exists r'. split; [|done]. unfold row_key.
    rewrite Hsku. f_equal. rewrite (Hp r), (Hp r'); [done | | ].
    + apply elem_of_cons. by right.
    + apply elem_of_cons. by left.
  - apply IH; [|done]. intros r' Hr'. apply Hp, elem_of_cons. by right.
Qed.

Lemma rows_of_filter productID chunk :
  rows_of productID chunk =
    filter (fun row => productID_of row = productID)
      (filter (fun row => valid row = true) chunk).
Proof.
  unfold rows_of. rewrite list_filter_filter. apply list_filter_iff. intros; tauto.
Qed.

Lemma elem_of_concat {A : Type} (ls : list (list A)) l x :
  l ∈ ls -> x ∈ l -> x ∈ concat ls.
Proof.
  induction ls as [|l' ls IH]; [by intros ?%elem_of_nil|]. cbn.
  intros [->|Hin]%elem_of_cons Hx; apply elem_of_app; [by left | right; by apply IH].
Qed.

Lemma distinct_skus_chunk pre chunk productID :
  distinct_skus (pre ++ chunk) -> NoDup (sku_of <$> rows_of productID chunk).
Proof.
  unfold distinct_skus. rewrite filter_app, fmap_app. intros (_ & _ & H)%NoDup_app.
  apply (skus_of_keys _ productID).
  - intros r Hr. by apply elem_of_rows_of in Hr as [[_ ?] _].
  - rewrite rows_of_filter. eapply sublist_NoDup; [exact H|].
    apply fmap_sublist, sublist_filter.
Qed.

Lemma distinct_skus_across seen chunk c productID r' r :
  distinct_skus (concat seen ++ chunk) -> c ∈ seen ->
  r' ∈ rows_of productID c -> r ∈ rows_of productID chunk -> sku_of r' ≠ sku_of r.
Proof.
  unfold distinct_skus. rewrite filter_app, fmap_app.
  intros (_ & Hdisj & _)%NoDup_app Hc Hr' Hr Heq.
  apply elem_of_rows_of in Hr' as [[Hv' Hp'] Hin'].
  apply elem_of_rows_of in Hr as [[Hv Hp] Hin].
  apply (Hdisj (row_key r')).
  - apply list_elem_of_fmap_2, list_elem_of_filter. split; [done|].
    by apply (elem_of_concat seen c).
  - unfold row_key. rewrite Heq, Hp', <- Hp. apply (list_elem_of_fmap_2 row_key).
    by apply list_elem_of_filter.
Qed.

Lemma built_skus rows vs :
  Forall2 (built_from parseFloat) rows vs -> Variant.sku <$> vs = sku_of <$> rows.
Proof.
  induction 1 as [|r v rows vs (Hsku & _) _ IH]; [done|]. cbn. by rewrite Hsku, IH.
Qed.

Lemma NoDup_fmap_List_filter {A B : Type} (g : A -> B) (f : A -> bool) (l : list A) :
  NoDup (g <$> l) -> NoDup (g <$> List.filter f l).
Proof.
  induction l as [|x l IH]; [done|]. cbn. intros [Hx Hl]%NoDup_cons.
  destruct (f x); [|by apply IH]. cbn. apply NoDup_cons. split; [|by apply IH].
  intros (y & Hy & Hin)%list_elem_of_fmap. apply Hx. rewrite Hy.
  apply list_elem_of_fmap_2. apply list_elem_of_In in Hin. apply filter_In in Hin as [Hin _].
  by apply list_elem_of_In.
Qed.

Lemma elem_of_List_filter {A : Type} (f : A -> bool) (l : list A) x :
  x ∈ List.filter f l <-> x ∈ l /\ f x = true.
Proof. rewrite !list_elem_of_In. apply filter_In. Qed.

Lemma carries_readable row vendorId l productID doc :
  carries row vendorId l productID doc -> variants_readable doc /\ variants_of doc = l.
Proof.
  intros (_ & _ & Hl & _). unfold variants_readable, variants_of. by rewrite Hl.
Qed.

(** *** One chunk of the first run *)

Section Step.
Variables (seen : list (list Row)) (chunk : list Row).
Variables (G : JsMap.t Group.t) (ops : list BulkOp.t) (s s' : Store.t).
Hypothesis Hsettled : settled_on parseFloat seen s.
Hypothesis Hdistinct : distinct_skus (concat seen ++ chunk).
Hypothesis Hnc : ~ crashing chunk.
Hypothesis Hstuck : stuck (Store.products s) chunk = false.
Hypothesis HG : groups_of parseFloat chunk G.
Hypothesis Heff : chunk_effect G ops s s'.

Lemma step_ops :
  ops_made G (fun productID => stored productID (Store.products s)) s'
    (Js.ownKeys (JsMap.keys G)) ops.
Proof. by destruct Heff as (_ & _ & _ & _ & _ & _ & H). Qed.

Lemma step_NoDup : NoDup (BulkOp.filter_productID <$> ops).
Proof.
  rewrite (OpsFacts.ops_made_filters _ _ _ _ _ step_ops). apply NoDup_ownKeys. by destruct HG.
Qed.

Lemma step_good :
  Forall (fun op => docId_insert_only op /\ keeps_productID op /\ BulkOp.upsert op = true) ops.
Proof. exact (OpsFacts.ops_made_good _ _ _ _ _ step_ops). Qed.

Lemma step_keeps : Forall keeps_productID ops.
Proof. eapply Forall_impl; [exact step_good|]. by intros op (_ & ? & _). Qed.

Lemma step_products :
  Store.products s' =
    (patch ops <$> Store.products s) ++
    (inserted <$> List.filter
       (fun op => bool_decide (stored (BulkOp.filter_productID op) (Store.products s) = None))
       ops).
Proof.
  destruct Heff as (-> & _). destruct Hsettled as [Hpn _].
  apply BulkFacts.bulkWrite_patch; [done | apply step_NoDup | apply step_good].
Qed.

Lemma step_op op :
  op ∈ ops ->
  exists g rest, group_at parseFloat chunk G s' (BulkOp.filter_productID op) g rest /\
    op_made g (stored (BulkOp.filter_productID op) (Store.products s)) (Store.vendors s')
      (BulkOp.filter_productID op) op.
Proof.
  intros Hop.
  destruct (OpsFacts.ops_made_elem _ _ _ _ _ _ step_ops Hop) as (g & _ & Hg & Hv & Hm & Hmade).
  destruct (groups_of_rows _ _ _ _ HG Hg) as (rest & Hrows & Hbuilt).
  exists g, rest. split; [|done]. unfold group_at. split_and!; try done.
  rewrite (built_skus _ _ Hbuilt), <- Hrows. by eapply distinct_skus_chunk.
Qed.

Lemma step_op_for productID row rest :
  rows_of productID chunk = row :: rest ->
  exists op, op ∈ ops /\ BulkOp.filter_productID op = productID.
Proof.
  intros Hrows. destruct (groups_of_get _ _ _ _ _ HG Hrows) as (g & Hg & _).
  apply (OpsFacts.ops_made_lookup _ _ _ _ _ productID step_ops).
  apply elem_of_ownKeys. by eapply JsMapFacts.get_Some_keys.
Qed.

(** What the bulk write does to a stored product: nothing when the chunk
    has no row for it, the update of its group otherwise. *)
Lemma step_patch d :
  d ∈ Store.products s ->
  (patch ops d = d /\
   forall productID, productID_in d = Some productID -> rows_of productID chunk = []) \/
  (exists productID g rest,
     productID_in d = Some productID /\ group_at parseFloat chunk G s' productID g rest /\
     patch ops d =
       assign (fields_of (updatedDoc d (Group.row g) (vendorId_of s' g) (Group.variants g))) d).
Proof.
  intros Hd. destruct Hsettled as [Hpn _].
  destruct (productID_in d) as [productID|] eqn:Epid.
  - destruct (rows_of productID chunk) as [|row rest] eqn:Erows.
    + left. split; [|by intros ? [= <-]].
      apply BulkFacts.patch_unmatched. intros op Hop Heq.
      rewrite Epid in Heq. injection Heq as ->.
      destruct (step_op op Hop) as (g & rest & (_ & Hrows & _) & _). congruence.
    + right. destruct (step_op_for _ _ _ Erows) as (op & Hop & <-).
      destruct (step_op op Hop) as (g & rest' & Hgroup & Hmade).
      rewrite (BulkFacts.stored_member _ _ d) in Hmade by done.
      destruct Hmade as (_ & _ & _ & Hset).
      exists (BulkOp.filter_productID op), g, rest'. split_and!; [done | done |].
      rewrite (BulkFacts.patch_matched ops op); [by rewrite Hset | | | done | done].
      * apply step_NoDup.
      * apply step_keeps.
  - left. split; [|done]. apply BulkFacts.patch_unmatched. intros op _. by rewrite Epid.
Qed.

Lemma step_inserted op :
  op ∈ ops -> stored (BulkOp.filter_productID op) (Store.products s) = None ->
  exists g rest, group_at parseFloat chunk G s' (BulkOp.filter_productID op) g rest /\
    carries (Group.row g) (vendorId_of s' g) (Group.variants g) (BulkOp.filter_productID op)
      (inserted op).
Proof.
  intros Hop Hnone. destruct (step_op op Hop) as (g & rest & Hgroup & Hmade).
  rewrite Hnone in Hmade. destruct Hmade as (_ & _ & (docId & Hsoi) & doc & Hset & Hfresh).
  exists g, rest. split; [done|]. by eapply WrittenFacts.carries_inserted.
Qed.

Lemma step_member doc' :
  doc' ∈ Store.products s' <->
  (exists d, d ∈ Store.products s /\ doc' = patch ops d) \/
  (exists op, op ∈ ops /\ stored (BulkOp.filter_productID op) (Store.products s) = None /\
     doc' = inserted op).
Proof.
  rewrite step_products, elem_of_app, !list_elem_of_fmap.
  split; (intros [(d & ? & ?)|H]; [left; by exists d | right]).
  - destruct H as (op & -> & [Hop Hf]%elem_of_List_filter). exists op. split_and!; try done.
    by apply bool_decide_eq_true in Hf.
  - destruct H as (op & Hop & Hnone & ->). exists op. split; [done|].
    apply elem_of_List_filter. split; [done|]. by apply bool_decide_eq_true.
Qed.

(** Every product after the chunk is an untouched one, or carries what
    its group brought. *)
Lemma step_cases doc' :
  doc' ∈ Store.products s' ->
  (doc' ∈ Store.products s /\
   forall productID, productID_in doc' = Some productID -> rows_of productID chunk = []) \/
  (exists productID g rest l,
     group_at parseFloat chunk G s' productID g rest /\
     carries (Group.row g) (vendorId_of s' g) l productID doc' /\
     NoDup (Variant.sku <$> l) /\
     forall v, v ∈ Group.variants g ->
       exists a, a ∈ l /\ Variant.sku a = Variant.sku v /\
         (a = v \/ isVariantUpdated a v = false)).
Proof.
  intros [(d & Hd & ->)|(op & Hop & Hnone & ->)]%step_member.
  - destruct (step_patch d Hd) as [[-> Hrows]|(productID & g & rest & Hp & Hgroup & ->)];
      [by left|right].
    exists productID, g, rest, (mergeVariants (variants_of d) (Group.variants g)).
    split_and!; [done | | apply MergeFacts.NoDup_mergeVariants | ].
    + by apply WrittenFacts.carries_updated.
    + intros v Hv. destruct Hgroup as (_ & _ & _ & Hnd & _).
      by apply MergedFacts.mergeVariants_covers.
  - right. destruct (step_inserted op Hop Hnone) as (g & rest & Hgroup & Hcarries).
    exists (BulkOp.filter_productID op), g, rest, (Group.variants g).
    split_and!; [done | done | by destruct Hgroup as (_ & _ & _ & ? & _) |].
    intros v Hv. exists v. split_and!; [done | done | by left].
Qed.

Lemma omap_productID_patch (docs : list Doc) :
  omap productID_in (patch ops <$> docs) = omap productID_in docs.
Proof.
  induction docs as [|d docs IH]; [done|]. cbn.
  by rewrite (OpsFacts.productID_in_patch _ _ step_keeps), IH.
Qed.

Lemma step_distinct : distinct_products s'.
Proof.
  pose proof Hsettled as [Hpn _]. unfold distinct_products.
  rewrite step_products, omap_app, omap_productID_patch. apply NoDup_app. split_and!.
  - done.
  - intros x Hx (doc' & (op & -> & [Hop Hf]%elem_of_List_filter)%list_elem_of_fmap & Hp)
      %list_elem_of_omap.
    apply bool_decide_eq_true in Hf. apply BulkFacts.stored_None in Hf.
    pose proof step_good as Hgood. rewrite Forall_forall in Hgood.
    destruct (Hgood op Hop) as (Hid & Hk & _).
    rewrite BulkFacts.productID_in_inserted in Hp by done. injection Hp as <-. done.
  - assert (Heq : forall l : list BulkOp.t, (forall op, op ∈ l -> op ∈ ops) ->
      omap productID_in (inserted <$> l) = BulkOp.filter_productID <$> l).
    { induction l as [|op l IH]; intros Hl; [done|]. cbn.
      pose proof step_good as Hgood. rewrite Forall_forall in Hgood.
      destruct (Hgood op) as (Hid & Hk & _); [apply Hl, elem_of_cons; by left|].
      rewrite BulkFacts.productID_in_inserted by done. f_equal.
      apply IH. intros op' Hop'. apply Hl, elem_of_cons. by right. }
    rewrite Heq; [apply NoDup_fmap_List_filter, step_NoDup|].
    by intros op [? _]%elem_of_List_filter.
Qed.

(** The chunk changes the variants of the products it has rows for, which
    could be read back and still can, and adds products whose variants can
    be read back. *)
Lemma step_unreadable productID :
  unreadable (Store.products s') productID = unreadable (Store.products s) productID.
Proof.
  pose proof Hsettled as [Hpn _]. pose proof step_distinct as Hpn'.
  unfold unreadable at 1. destruct (stored productID (Store.products s')) as [doc'|] eqn:E.
  - apply BulkFacts.stored_Some in E as [Hdoc' Hp].
    destruct (step_cases doc' Hdoc')
      as [[Hdoc Hnone]|(productID' & g & rest & l & Hgroup & Hc & _)].
    + unfold unreadable. by rewrite (BulkFacts.stored_member productID _ doc').
    + pose proof Hc as (Hp' & _). rewrite Hp in Hp'. injection Hp' as <-.
      destruct (carries_readable _ _ _ _ _ Hc) as [Hr _].
      destruct Hgroup as (_ & Hrows & _).
      rewrite (stuck_rows _ chunk productID _ _ Hstuck Hrows).
      apply bool_decide_eq_false. by intros H.
  - unfold unreadable. destruct (stored productID (Store.products s)) as [d|] eqn:E'; [|done].
    apply BulkFacts.stored_Some in E' as [Hd Hp]. apply BulkFacts.stored_None in E.
    destruct E. apply list_elem_of_omap. exists (patch ops d). split.
    + apply step_member. left. by exists d.
    + by rewrite (OpsFacts.productID_in_patch _ _ step_keeps).
Qed.

Lemma step_stuck c : stuck (Store.products s') c = stuck (Store.products s) c.
Proof. apply ReachedFacts.stuck_ext. intros k _. apply step_unreadable. Qed.

(** The chunk creates no duplicates. *)
Lemma step_no_duplicates : no_duplicates s -> no_duplicates s'.
Proof.
  intros (Hvn & Hmn & _ & Hskus). pose proof Heff as (_ & _ & _ & Hvn' & Hmn' & _).
  pose proof step_distinct as Hpn'.
  split_and!; [by apply Hvn' | by apply Hmn' | done |].
  intros doc' [[Hdoc _]|(productID & g & rest & l & _ & Hc & Hl & _)]%step_cases;
    [by apply Hskus|].
  by destruct (carries_readable _ _ _ _ _ Hc) as (_ & ->).
Qed.

Lemma step_stored productID row rest :
  rows_of productID chunk = row :: rest ->
  exists doc', doc' ∈ Store.products s' /\ productID_in doc' = Some productID.
Proof.
  intros Hrows. destruct (step_op_for _ _ _ Hrows) as (op & Hop & <-).
  destruct (stored (BulkOp.filter_productID op) (Store.products s)) as [d|] eqn:E.
  - apply BulkFacts.stored_Some in E as [Hd Hp]. exists (patch ops d). split.
    + apply step_member. left. by exists d.
    + by rewrite (OpsFacts.productID_in_patch _ _ step_keeps).
  - exists (inserted op). split.
    + apply step_member. right. by exists op.
    + pose proof step_good as Hgood. rewrite Forall_forall in Hgood.
      destruct (Hgood op Hop) as (Hid & Hk & _). by apply BulkFacts.productID_in_inserted.
Qed.

Lemma step_saturated_chunk : saturated parseFloat chunk s'.
Proof.
  intros _ _ productID row rest Hrows.
  destruct (step_stored _ _ _ Hrows) as (doc' & Hdoc' & Hp).
  destruct (step_cases doc' Hdoc')
    as [[_ Hnone]|(productID' & g & rest' & l & Hgroup & Hc & Hl & Hcovers)].
  { rewrite (Hnone _ Hp) in Hrows. done. }
  pose proof Hc as (Hp' & Hkeys & Hvariants & _).
  rewrite Hp in Hp'. injection Hp' as <-.
  destruct Hgroup as (_ & Hrows' & Hbuilt & _ & Hv & Hm).
  rewrite Hrows in Hrows'. injection Hrows' as -> ->.
  split_and!; [done | done |]. exists doc', l. split_and!; try done.
  intros r Hr. destruct (ListFacts.Forall2_elem_l _ _ _ _ Hbuilt Hr) as (v & Hv' & Hrv).
  destruct (Hcovers v Hv') as (a & Ha & Hsku & Hsame).
  exists a. split_and!; [done | by destruct Hrv as (<- & _) |].
  intros v' Hrv'. destruct Hsame as [->|Hsame].
  - by eapply built_from_not_updated.
  - by rewrite <- (isVariantUpdated_built parseFloat r a v v').
Qed.

Lemma step_idle_chunk : idle chunk s'.
Proof. intros _ H. by rewrite step_stuck, Hstuck in H. Qed.

Lemma step_idle_seen c : c ∈ seen -> idle c s'.
Proof.
  intros Hc Hncc Hst productID row rest Hin Hrows. rewrite step_stuck in Hst.
  destruct Hsettled as (_ & Hsat & _). destruct (Hsat c Hc) as [_ Hidle].
  rewrite (ReachedFacts.reached_ext (Store.products s)) in Hin
    by (intros k _; apply step_unreadable).
  destruct (Hidle Hncc Hst _ _ _ Hin Hrows) as [Hv Hm].
  pose proof Heff as (_ & [Vadded HV] & [Madded HM] & _).
  split.
  - rewrite HV, fmap_app, elem_of_app. by left.
  - rewrite HM, fmap_app, elem_of_app. by left.
Qed.

Lemma step_saturated_seen c : c ∈ seen -> saturated parseFloat c s'.
Proof.
  intros Hc Hncc Hst productID row rest Hrows. rewrite step_stuck in Hst.
  destruct Hsettled as (_ & Hsat & _). destruct (Hsat c Hc) as [Hsatc _].
  destruct (Hsatc Hncc Hst _ _ _ Hrows)
    as (Hv & Hm & doc & l & Hdoc & Hp & Hkeys & Hl & Hskus & Hr).
  pose proof Heff as (_ & [Vadded HV] & [Madded HM] & _).
  split_and!.
  - rewrite HV, fmap_app, elem_of_app. by left.
  - rewrite HM, fmap_app, elem_of_app. by left.
  - destruct (step_patch doc Hdoc)
      as [[Hsame _]|(productID' & g & rest' & Hp' & Hgroup & Hpatch)].
    + exists doc, l. split_and!; try done. apply step_member. left. exists doc. by rewrite Hsame.
    + rewrite Hp in Hp'. injection Hp' as <-.
      assert (Hc' := WrittenFacts.carries_updated doc (Group.row g) (vendorId_of s' g)
                       (Group.variants g) productID Hp).
      rewrite <- Hpatch in Hc'. destruct Hc' as (Hp' & Hkeys' & Hl' & _).
      exists (patch ops doc), (mergeVariants (variants_of doc) (Group.variants g)).
      split_and!; try done.
      * apply step_member. left. by exists doc.
      * apply MergeFacts.NoDup_mergeVariants.
      * intros r Hin. destruct (Hr r Hin) as (a & Ha & Hsku & Hupd).
        exists a. split_and!; [|done|done].
        destruct Hgroup as (_ & Hrows' & Hbuilt & Hnd & _).
        assert (Hvl : variants_of doc = l) by (unfold variants_of; by rewrite Hl).
        apply MergedFacts.mergeVariants_keeps; [by rewrite Hvl | done | by rewrite Hvl |].
        rewrite (built_skus _ _ Hbuilt), Hsku.
        intros (r' & Heq & Hr')%list_elem_of_fmap.
        apply (distinct_skus_across seen chunk c productID r r'); try done.
        -- by rewrite Hrows.
        -- by rewrite Hrows'.
Qed.

Lemma step_writing :
  writing (Store.products s') (seen ++ [chunk]) = writing (Store.products s) seen ++ [chunk].
Proof.
  rewrite (writing_ext _ (Store.products s)) by apply step_unreadable.
  rewrite writing_app. f_equal. unfold writing. cbn. by rewrite Hstuck.
Qed.

Lemma step_replay doc' :
  doc' ∈ Store.products s' ->
  replay (writing (Store.products s') (seen ++ [chunk])) (Store.vendors s') doc' = doc'.
Proof.
  intros Hdoc'. rewrite step_writing, replay_snoc.
  destruct Hsettled as (_ & Hsat & Hfix). pose proof Heff as (_ & HV & _).
  assert (Hw : forall c, c ∈ writing (Store.products s) seen ->
            saturated parseFloat c s /\ stuck (Store.products s) c = false).
  { intros c [Hc Hst]%elem_of_writing. split; [|done]. by destruct (Hsat c Hc). }
  destruct (step_cases doc' Hdoc')
    as [[Hdoc Hnone]|(productID & g & rest & l & Hgroup & Hc & _)].
  - rewrite (replay_vendors _ s), Hfix by done. unfold refreshed.
    destruct (productID_in doc') as [productID|]; [|done]. by rewrite (Hnone productID).
  - destruct Hgroup as (_ & Hrows & _).
    apply (refreshed_carried chunk _ (Group.row g) rest l productID); try done.
    pose proof Hc as (_ & Hkeys & _). apply replay_cases.
    intros k Hk. by apply Hkeys, WrittenFacts.rowKeys_setFields.
Qed.

Lemma step_settled : settled_on parseFloat (seen ++ [chunk]) s'.
Proof.
  split_and!.
  - apply step_distinct.
  - intros c [Hc|Hc]%elem_of_app; [split; [by apply step_saturated_seen | by apply step_idle_seen]|].
    apply list_elem_of_singleton in Hc as ->.
    split; [apply step_saturated_chunk | apply step_idle_chunk].
  - apply step_replay.
Qed.

End Step.

(** *** The first run *)

Lemma replay_app cs cs' V doc :
  replay (cs ++ cs') V doc = replay cs' V (replay cs V doc).
Proof. unfold replay. by rewrite fold_left_app. Qed.

(** A store that grows by vendors and manufacturers holds what it held. *)
Lemma saturated_grown c s s' :
  Store.products s' = Store.products s ->
  Store.vendors s `prefix_of` Store.vendors s' ->
  Store.manufacturers s `prefix_of` Store.manufacturers s' ->
  saturated parseFloat c s -> saturated parseFloat c s'.
Proof.
  intros HP [Va HV] [Ma HM] Hsat Hnc Hst productID row rest Hrows. rewrite HP in Hst.
  destruct (Hsat Hnc Hst _ _ _ Hrows) as (Hv & Hm & Hdoc).
  split_and!.
  - rewrite HV, fmap_app, elem_of_app. by left.
  - rewrite HM, fmap_app, elem_of_app. by left.
  - by rewrite HP.
Qed.

Lemma idle_grown c s s' :
  Store.products s' = Store.products s ->
  Store.vendors s `prefix_of` Store.vendors s' ->
  Store.manufacturers s `prefix_of` Store.manufacturers s' ->
  idle c s -> idle c s'.
Proof.
  intros HP [Va HV] [Ma HM] Hidle Hnc Hst productID row rest Hin Hrows. rewrite HP in Hst, Hin.
  destruct (Hidle Hnc Hst _ _ _ Hin Hrows) as [Hv Hm].
  split.
  - rewrite HV, fmap_app, elem_of_app. by left.
  - rewrite HM, fmap_app, elem_of_app. by left.
Qed.

(** A chunk settles the store on itself, and changes no product whose
    variants cannot be read back. *)
Lemma attempt_settles context seen chunk w :
  reliable w -> settled_on parseFloat seen (store w) -> distinct_skus (concat seen ++ chunk) ->
  reliable (attempt parseFloat context chunk w) /\
  settled_on parseFloat (seen ++ [chunk]) (store (attempt parseFloat context chunk w)) /\
  (forall productID,
     unreadable (Store.products (store (attempt parseFloat context chunk w))) productID =
       unreadable (Store.products (store w)) productID).
Proof.
  intros Hw Hset Hdist. pose proof Hset as (Hpn & Hsat & Hfix).
  destruct (processChunk_reliable parseFloat chunk w Hw Hpn)
    as (o & w' & Hrun & Hw' &
        [[Hcrash Hstore]|[(Hnc & Hstuck & HP & HV & HM & _ & _ & Hidle & _)
                         |(Hnc & Hstuck & -> & G & ops & HG & Heff)]]);
    unfold attempt; rewrite Hrun.
  - assert (Hset' : settled_on parseFloat (seen ++ [chunk]) (store w')).
    { rewrite Hstore. split_and!; [done | |].
      - intros c [Hc|Hc]%elem_of_app; [by apply Hsat|].
        apply list_elem_of_singleton in Hc as ->. split; by intros Hnc.
      - intros doc Hdoc. rewrite writing_app, replay_app, Hfix by done.
        unfold writing. cbn. destruct (stuck _ chunk); cbn; [done|].
        by apply refreshed_crashing. }
    assert (Hun : forall productID,
      unreadable (Store.products (store w')) productID =
        unreadable (Store.products (store w)) productID) by (by rewrite Hstore).
    destruct o; [done|]. split; [by apply GroupFacts.reliable_logged | done].
  - assert (Hset' : settled_on parseFloat (seen ++ [chunk]) (store w')).
    { split_and!.
      - unfold distinct_products. by rewrite HP.
      - intros c [Hc|Hc]%elem_of_app.
        + destruct (Hsat c Hc).
          split; [by apply (saturated_grown c (store w)) | by apply (idle_grown c (store w))].
        + apply list_elem_of_singleton in Hc as ->. split; [|done].
          intros _ Hst. by rewrite HP, Hstuck in Hst.
      - intros doc Hdoc. rewrite HP in Hdoc. rewrite HP, writing_app, replay_app.
        assert (Hnone : writing (Store.products (store w)) [chunk] = []).
        { unfold writing. cbn. by rewrite Hstuck. }
        rewrite Hnone. cbn. rewrite (replay_vendors _ (store w)); [by apply Hfix | | done].
        intros c [Hc Hst]%elem_of_writing. split; [|done]. by destruct (Hsat c Hc). }
    assert (Hun : forall productID,
      unreadable (Store.products (store w')) productID =
        unreadable (Store.products (store w)) productID) by (by rewrite HP).
    destruct o; [done|]. split; [by apply GroupFacts.reliable_logged | done].
  - split; [done|]. split; [by eapply step_settled|]. intros k. by eapply step_unreadable.
Qed.

Lemma distinct_skus_app_l l k : distinct_skus (l ++ k) -> distinct_skus l.
Proof.
  unfold distinct_skus. rewrite filter_app, fmap_app. by intros (? & _)%NoDup_app.
Qed.

Lemma attempts_settle chunks seen w :
  reliable w -> settled_on parseFloat seen (store w) ->
  distinct_skus (concat seen ++ concat chunks.*2) ->
  reliable (attempts parseFloat chunks w) /\
  settled_on parseFloat (seen ++ chunks.*2) (store (attempts parseFloat chunks w)) /\
  (forall productID,
     unreadable (Store.products (store (attempts parseFloat chunks w))) productID =
       unreadable (Store.products (store w)) productID).
Proof.
  revert seen w. induction chunks as [|[context chunk] chunks IH]; intros seen w Hw Hset Hd.
  - cbn. by rewrite app_nil_r.
  - cbn [attempts fold_left fmap list_fmap snd fst concat] in *.
    destruct (attempt_settles context seen chunk w Hw Hset) as (Hw1 & Hset1 & Hun1).
    { apply (distinct_skus_app_l _ (concat chunks.*2)). by rewrite <- app_assoc. }
    destruct (IH (seen ++ [chunk]) (attempt parseFloat context chunk w) Hw1 Hset1)
      as (Hw2 & Hset2 & Hun2).
    { rewrite concat_app. cbn. by rewrite app_nil_r, <- app_assoc. }
    split; [exact Hw2|]. rewrite <- app_assoc in Hset2. split; [exact Hset2|].
    intros k. unfold attempts in Hun2. by rewrite Hun2, Hun1.
Qed.

Lemma settled_on_nil s : distinct_products s -> settled_on parseFloat [] s.
Proof. intros H. split_and!; [done | by intros c ?%elem_of_nil | done]. Qed.

Lemma attempt_keeps_no_duplicates context seen chunk w :
  reliable w -> settled_on parseFloat seen (store w) -> distinct_skus (concat seen ++ chunk) ->
  no_duplicates (store w) -> no_duplicates (store (attempt parseFloat context chunk w)).
Proof.
  intros Hw Hset Hdist Hnd. pose proof Hset as (Hpn & _).
  destruct (processChunk_reliable parseFloat chunk w Hw Hpn)
    as (o & w' & Hrun & Hw' &
        [[Hcrash Hstore]|[(Hnc & Hstuck & HP & _ & _ & HnV & HnM & _)
                         |(Hnc & Hstuck & -> & G & ops & HG & Heff)]]);
    unfold attempt; rewrite Hrun.
  - destruct o; cbn [store logged]; by rewrite Hstore.
  - destruct Hnd as (Hvn & Hmn & Hpn' & Hskus).
    assert (no_duplicates (store w')); [|by destruct o].
    unfold no_duplicates. rewrite HP. split_and!; [by apply HnV | by apply HnM | done | done].
  - by eapply step_no_duplicates.
Qed.

Lemma attempts_keep_no_duplicates chunks seen w :
  reliable w -> settled_on parseFloat seen (store w) ->
  distinct_skus (concat seen ++ concat chunks.*2) ->
  no_duplicates (store w) -> no_duplicates (store (attempts parseFloat chunks w)).
Proof.
  revert seen w.
  induction chunks as [|[context chunk] chunks IH]; intros seen w Hw Hset Hd Hnd; [done|].
  cbn [attempts fold_left fmap list_fmap snd fst concat] in *.
  assert (Hd1 : distinct_skus (concat seen ++ chunk)).
  { apply (distinct_skus_app_l _ (concat chunks.*2)). by rewrite <- app_assoc. }
  destruct (attempt_settles context seen chunk w Hw Hset Hd1) as (Hw1 & Hset1 & _).
  apply (IH (seen ++ [chunk])); try done.
  - rewrite concat_app. cbn. by rewrite app_nil_r, <- app_assoc.
  - by eapply attempt_keeps_no_duplicates.
Qed.

(** *** The chunks of a file *)

Lemma chunked_concat buffer rows :
  concat (chunked buffer rows).1 ++ (chunked buffer rows).2 = buffer ++ rows.
Proof.
  revert buffer. induction rows as [|row rows IH]; intros buffer; cbn [chunked].
  - cbn. by rewrite app_nil_r.
  - destruct (chunkSize <=? _)%nat.
    + specialize (IH []). destruct (chunked [] rows) as [fulls rest]. cbn in *.
      by rewrite <- !app_assoc, IH.
    + rewrite IH. by rewrite <- app_assoc.
Qed.

Lemma concat_chunks rows : concat (chunks rows).*2 = rows.
Proof.
  unfold chunks. pose proof (chunked_concat [] rows) as H.
  destruct (chunked [] rows) as [fulls rest]. cbn [fst snd app] in H.
  rewrite fmap_app, concat_app, <- list_fmap_compose.
  assert (Hfulls :
    (snd ∘ (fun c : list Row => ("Error processing chunk: ", c))) <$> fulls = fulls)
    by apply list_fmap_id.
  rewrite Hfulls, <- H. f_equal.
  destruct (0 <? length rest)%nat eqn:E; cbn; [by rewrite app_nil_r|].
  apply Nat.ltb_ge in E. by destruct rest; cbn in *; [|lia].
Qed.

Lemma onData_chunked (rows buffer : list Row) (p : Promise) (w : World) :
  reduce (handle parseFloat) (Data <$> rows) (mkRun buffer p) w =
    (Returned (mkRun (chunked buffer rows).2 p),
     attempts parseFloat
       ((fun c => ("Error processing chunk: ", c)) <$> (chunked buffer rows).1) w).
Proof.
  revert buffer w. induction rows as [|row rows IH]; intros buffer w; [done|].
  cbn [fmap list_fmap reduce handle chunked]. unfold mbind, M_bind, onData.
  cbn [chunk promise].
  destruct (chunkSize <=? length (buffer ++ [row]))%nat.
  - unfold mbind, M_bind. rewrite guarded_processChunk. cbn [mret M_ret].
    rewrite IH. by destruct (chunked [] rows) as [fulls rest].
  - cbn [mret M_ret]. apply IH.
Qed.

(** A run over a file that delivers its rows and ends attempts the chunks
    of the file in order. *)
Lemma importProducts_attempts rows w :
  importProducts parseFloat ((Data <$> rows) ++ [End_]) w =
    (Returned Resolved,
     logged Log "Product import completed"
       (attempts parseFloat (chunks rows) (logged Log "Starting product import" w))).
Proof.
  unfold importProducts, mbind, M_bind. cbn [log].
  rewrite reduce_app, onData_chunked. cbn [reduce handle]. unfold mbind, M_bind, onEnd.
  cbn [chunk promise]. unfold mbind, M_bind, chunks.
  destruct (chunked [] rows) as [fulls rest]. cbn [fst snd].
  unfold attempts. rewrite fold_left_app.
  destruct (0 <? length rest)%nat.
  - by rewrite guarded_processChunk.
  - reflexivity.
Qed.

(** *** Two runs *)

Lemma first_run rows w :
  reliable w -> distinct_products (store w) -> distinct_skus rows ->
  reliable (importProducts parseFloat ((Data <$> rows) ++ [End_]) w).2 /\
  settled_on parseFloat (chunks rows).*2
    (store (importProducts parseFloat ((Data <$> rows) ++ [End_]) w).2) /\
  (forall productID,
     unreadable
       (Store.products (store (importProducts parseFloat ((Data <$> rows) ++ [End_]) w).2))
       productID =
     unreadable (Store.products (store w)) productID).
Proof.
  intros Hw Hpn Hd. rewrite importProducts_attempts. cbn [snd].
  destruct (attempts_settle (chunks rows) [] (logged Log "Starting product import" w))
    as (Hw1 & Hset1 & Hun1).
  - by apply GroupFacts.reliable_logged.
  - by apply settled_on_nil.
  - cbn [concat app]. by rewrite concat_chunks.
  - split; [by apply GroupFacts.reliable_logged|]. split; [exact Hset1 | exact Hun1].
Qed.

Lemma second_run rows w :
  reliable w -> settled_on parseFloat (chunks rows).*2 (store w) ->
  store (importProducts parseFloat ((Data <$> rows) ++ [End_]) w).2 = store w.
Proof.
  intros Hw (Hpn & Hsat & Hfix). rewrite importProducts_attempts. cbn [snd].
  destruct (attempts_saturated (chunks rows).*2 (chunks rows)
              (logged Log "Starting product import" w)) as [_ Hs];
    [by apply GroupFacts.reliable_logged | done | done | done |].
  cbn [store logged]. cbn [store logged] in Hs. rewrite Hs.
  rewrite ListFacts.fmap_id_on by exact Hfix. by destruct (store w).
Qed.

(** A run creates no duplicates. *)
Lemma first_run_no_duplicates rows w :
  reliable w -> distinct_products (store w) -> distinct_skus rows ->
  no_duplicates (store w) ->
  no_duplicates (store (importProducts parseFloat ((Data <$> rows) ++ [End_]) w).2).
Proof.
  intros Hw Hpn Hd Hnd. rewrite importProducts_attempts. cbn [snd store logged].
  apply (attempts_keep_no_duplicates (chunks rows) []
           (logged Log "Starting product import" w)).
  - by apply GroupFacts.reliable_logged.
  - by apply settled_on_nil.
  - cbn [concat app]. by rewrite concat_chunks.
  - done.
Qed.

(** C3 (as amended), for a file in which no two rows of one product yield
    the same sku and whose last row does not fill a chunk, against a store
    that fails no request and holds no two products of one product id. A
    run creates no duplicates: when the store has no two vendors of one
    name, no two manufacturers of one id, no two products of one product id
    and no two variants of one sku in a product, it has none after the run.
    And a second run over the same file leaves the store the first run
    left. *)
Theorem importProducts_twice_same_store (rows : list Row) (w : World) :
  reliable w -> distinct_products (store w) -> distinct_skus rows ->
  ends_between_chunks rows ->
  (no_duplicates (store w) ->
   no_duplicates (store (importProducts parseFloat ((Data <$> rows) ++ [End_]) w).2)) /\
  store (importProducts parseFloat ((Data <$> rows) ++ [End_])
           (importProducts parseFloat ((Data <$> rows) ++ [End_]) w).2).2 =
    store (importProducts parseFloat ((Data <$> rows) ++ [End_]) w).2.
Proof.
  intros Hw Hpn Hd _. destruct (first_run rows w Hw Hpn Hd) as (Hw1 & Hset1 & _).
  split; [by apply first_run_no_duplicates | by apply second_run].
Qed.

End Idempotence.

(** * The variant merge: union by sku and order *)

Module OrderFacts.

Lemma isVariantUpdated_differs p v : isVariantUpdated p v = true <-> differs p v.
Proof.
  unfold isVariantUpdated, differs, num_neq, bool_neq, str_neq.
  rewrite !orb_true_iff, !negb_true_iff, bool_decide_eq_false.
  destruct (Variant.available p), (Variant.available v); cbn; intuition congruence.
Qed.

Lemma replaced_code incoming p :
  replaced incoming p =
    match lookup_sku (Variant.sku p) incoming with
    | Some v => if isVariantUpdated p v then v else p
    | None => p
    end.
Proof.
  unfold replaced. destruct (lookup_sku _ _) as [v|]; [|done].
  destruct (decide (differs p v)) as [H|H].
  - apply isVariantUpdated_differs in H. by rewrite H.
  - destruct (isVariantUpdated p v) eqn:E; [|done].
    by apply isVariantUpdated_differs in E.
Qed.

Lemma sku_replaced incoming p : Variant.sku (replaced incoming p) = Variant.sku p.
Proof.
  unfold replaced. destruct (lookup_sku _ _) as [v|] eqn:E; [|done].
  apply MergeFacts.lookup_sku_Some in E as [_ E]. by destruct (decide _).
Qed.

Lemma lookup_sku_fmap (f : Variant.t -> Variant.t) s l :
  (forall v, Variant.sku (f v) = Variant.sku v) ->
  lookup_sku s (f <$> l) = f <$> lookup_sku s l.
Proof.
  intros Hf. unfold lookup_sku. induction l as [|v l IH]; [done|]. cbn.
  rewrite Hf. by destruct (bool_decide _).
Qed.

Lemma lookup_sku_filter (P : Variant.t -> Prop) `{forall v, Decision (P v)} s l :
  (forall v, Variant.sku v = s -> P v) ->
  lookup_sku s (filter P l) = lookup_sku s l.
Proof.
  intros HP. unfold lookup_sku. induction l as [|v l IH]; [done|].
  rewrite filter_cons. cbn. destruct (decide (P v)) as [Hv|Hv]; cbn.
  - by destruct (bool_decide _).
  - rewrite bool_decide_eq_false_2; [done|]. intros Hs. by apply Hv, HP.
Qed.

Lemma lookup_sku_filter_out (P : Variant.t -> Prop) `{forall v, Decision (P v)} s l :
  (forall v, Variant.sku v = s -> ~ P v) -> lookup_sku s (filter P l) = None.
Proof.
  intros HP. apply MergeFacts.lookup_sku_None.
  intros (v & Hs & Hv)%list_elem_of_fmap. apply list_elem_of_filter in Hv as [Hv _].
  by apply (HP v).
Qed.

Lemma skus_filter (L : list string) (l : list Variant.t) :
  Variant.sku <$> filter (fun v => Variant.sku v ∉ L) l =
    filter (fun s => s ∉ L) (Variant.sku <$> l).
Proof.
  induction l as [|v l IH]; [done|]. rewrite fmap_cons, !filter_cons.
  destruct (decide _); by rewrite ?fmap_cons, IH.
Qed.

(** Two lists with the same skus, each once, and the same variant under
    every sku, are the same list. *)
Lemma eq_by_sku (l1 l2 : list Variant.t) :
  Variant.sku <$> l1 = Variant.sku <$> l2 -> NoDup (Variant.sku <$> l1) ->
  (forall s, lookup_sku s l1 = lookup_sku s l2) -> l1 = l2.
Proof.
  revert l2. induction l1 as [|a l1 IH]; intros [|b l2] Hs Hnd Hl; try done.
  cbn in Hs. injection Hs as Hab Hs. cbn in Hnd. apply NoDup_cons in Hnd as [Ha Hnd].
  pose proof (Hl (Variant.sku a)) as H. unfold lookup_sku in H. cbn in H.
  rewrite <- Hab, !bool_decide_eq_true_2 in H by done. injection H as <-.
  f_equal. apply IH; [done | done |]. intros s.
  destruct (decide (Variant.sku a = s)) as [<-|Hne].
  - rewrite (proj2 (MergeFacts.lookup_sku_None _ l1)) by done.
    symmetry. apply MergeFacts.lookup_sku_None. by rewrite <- Hs.
  - specialize (Hl s). unfold lookup_sku in Hl. cbn in Hl.
    by rewrite !bool_decide_eq_false_2 in Hl by done.
Qed.

Lemma mergeVariants_prior_then_new prior incoming :
  NoDup (Variant.sku <$> prior) -> NoDup (Variant.sku <$> incoming) ->
  mergeVariants prior incoming =
    (replaced incoming <$> prior) ++
    filter (fun v => Variant.sku v ∉ Variant.sku <$> prior) incoming.
Proof.
  intros Hp Hi. apply eq_by_sku.
  - rewrite MergeFacts.skus_mergeVariants, fmap_app, skus_filter.
    rewrite !MergeFacts.distinct_NoDup; [|by apply NoDup_filter | done].
    f_equal. rewrite <- list_fmap_compose. apply list_fmap_ext.
    intros i p _. symmetry. apply sku_replaced.
  - apply MergeFacts.NoDup_mergeVariants.
  - intros s. rewrite MergedFacts.lookup_mergeVariants by done.
    rewrite MergeFacts.lookup_sku_app.
    rewrite (lookup_sku_fmap _ _ _ (sku_replaced incoming)).
    destruct (lookup_sku s prior) as [p|] eqn:Ep.
    + apply MergeFacts.lookup_sku_Some in Ep as [Hin <-]. cbn [fmap option_fmap option_map].
      rewrite replaced_code. by destruct (lookup_sku _ incoming).
    + cbn [fmap option_fmap option_map]. apply MergeFacts.lookup_sku_None in Ep.
      rewrite lookup_sku_filter; [by destruct (lookup_sku s incoming)|].
      by intros v ->.
Qed.

End OrderFacts.

(** C1 (as amended). For a stored variant list and a list of incoming
    variants that each hold a sku once, the merged list is the union by
    sku of the two: one variant per sku, each a stored or an incoming one;
    an incoming variant whose sku is stored stands in the merged list when
    its price, availability or description differs from the stored one, and
    the stored variant stands there as it is, with every field, when none of
    the three differs; an incoming variant with a new sku is added; a stored
    variant whose sku does not come in is kept. *)
Theorem mergeVariants_union_by_sku (prior incoming : list Variant.t) :
  NoDup (Variant.sku <$> prior) -> NoDup (Variant.sku <$> incoming) ->
  union_by_sku prior incoming (mergeVariants prior incoming).
Proof.
  intros Hp Hi.
  pose proof (MergedFacts.lookup_mergeVariants prior incoming) as Hget.
  assert (Hmember : forall s m,
    lookup_sku s (mergeVariants prior incoming) = Some m -> m ∈ mergeVariants prior incoming).
  { intros s m H. by apply MergeFacts.lookup_sku_Some in H as [? _]. }
  split_and!.
  - apply MergeFacts.NoDup_mergeVariants.
  - intros m. apply MergeFacts.mergeVariants_origin.
  - intros p Hin Hnew. apply (Hmember (Variant.sku p)).
    rewrite Hget by done. apply MergeFacts.lookup_sku_None in Hnew. rewrite Hnew.
    by apply MergeFacts.lookup_sku_member.
  - intros v Hin Hnew. apply (Hmember (Variant.sku v)).
    rewrite Hget by done. apply MergeFacts.lookup_sku_None in Hnew. rewrite Hnew.
    by rewrite MergeFacts.lookup_sku_member.
  - intros p v Hpin Hvin Hsku.
    assert (H : lookup_sku (Variant.sku v) (mergeVariants prior incoming) =
                  Some (if isVariantUpdated p v then v else p)).
    { rewrite Hget by done. rewrite (MergeFacts.lookup_sku_member incoming v) by done.
      rewrite <- Hsku. by rewrite (MergeFacts.lookup_sku_member prior p). }
    split; intros Hd.
    + apply OrderFacts.isVariantUpdated_differs in Hd. rewrite Hd in H. by eapply Hmember.
    + destruct (isVariantUpdated p v) eqn:E; [by apply OrderFacts.isVariantUpdated_differs in E|].
      by eapply Hmember.
Qed.

(** C6 (as amended). When the stored list and the incoming list each hold
    a sku once, the merged list is the stored variants in their stored
    order, each replaced at its position by the incoming variant of its sku
    when that one differs, followed by the incoming variants of a new
    sku in the order of their rows. *)
Theorem mergeVariants_order (prior incoming : list Variant.t) :
  NoDup (Variant.sku <$> prior) -> NoDup (Variant.sku <$> incoming) ->
  prior_then_new prior incoming (mergeVariants prior incoming).
Proof. apply OrderFacts.mergeVariants_prior_then_new. Qed.

(** The first testable property of the merge: a stored variant of sku [A]
    at price 10 is replaced by an incoming one at price 12, and an incoming
    variant equal on the three compared fields leaves the stored one, with
    its identifier, in place. *)
Example mergeVariants_replace_or_keep :
  mergeVariants [Sample.variantA "a0" 10] [Sample.variantA "a1" 12]
    = [Sample.variantA "a1" 12] /\
  mergeVariants [Sample.variantA "a0" 10] [Sample.variantA "a1" 10]
    = [Sample.variantA "a0" 10].
Proof. split; reflexivity. Qed.

(** * Further properties of the service *)

(** ** What a run stores *)

Module CoverageFacts.

Lemma elem_of_concat_inv {A : Type} (ls : list (list A)) x :
  x ∈ concat ls -> exists l, l ∈ ls /\ x ∈ l.
Proof.
  induction ls as [|l ls IH]; cbn; [by intros ?%elem_of_nil|].
  intros [Hx|Hx]%elem_of_app.
  - exists l. split; [apply elem_of_cons; by left | done].
  - destruct (IH Hx) as (l' & ? & ?). exists l'. split; [apply elem_of_cons; by right | done].
Qed.

Lemma crashing_chunk rows c :
  c ∈ (chunks rows).*2 -> crashing c -> crashing rows.
Proof.
  unfold crashing. rewrite !Exists_exists. intros Hc (r & Hr & H). exists r. split; [|done].
  rewrite <- (concat_chunks rows). by apply (elem_of_concat _ c).
Qed.

Lemma row_chunk rows r : r ∈ rows -> exists c, c ∈ (chunks rows).*2 /\ r ∈ c.
Proof. rewrite <- (concat_chunks rows) at 1. apply elem_of_concat_inv. Qed.

(** What change detection compares, when it reports no change. *)
Lemma not_updated a v :
  isVariantUpdated a v = false ->
  PrimFloat.eqb (Variant.price a) (Variant.price v) = true /\
  Variant.available a = Variant.available v /\
  Variant.description a = Variant.description v.
Proof.
  unfold isVariantUpdated, num_neq, bool_neq, str_neq.
  intros [[Hp Ha]%orb_false_elim Hd]%orb_false_elim.
  apply negb_false_iff in Hp, Ha, Hd. split_and!; [done | by apply Bool.eqb_prop |].
  by apply bool_decide_eq_true in Hd.
Qed.

End CoverageFacts.

Section Coverage.
Variable parseFloat : option string -> float.

(** After a run over a file whose last row does not fill a chunk and in
    which no row is filed under a property of [Object.prototype], every row
    that has a product id and an item id is in the store: its product is stored, with a variant of the sku of the
    row that has the price, the availability and the description read off
    the row. *)
Theorem importProducts_stores_every_row (rows : list Row) (w : World) (r : Row) :
  reliable w -> well_formed (store w) -> distinct_skus rows ->
  ends_between_chunks rows -> ~ crashing rows ->
  r ∈ rows -> valid r = true ->
  exists doc l a,
    doc ∈ Store.products (store (importProducts parseFloat ((Data <$> rows) ++ [End_]) w).2) /\
    productID_in doc = Some (productID_of r) /\
    field "variants" doc = VVariants l /\
    a ∈ l /\
    Variant.sku a = sku_of r /\
    PrimFloat.eqb (Variant.price a) (parseNumber parseFloat (r !! "UnitPrice")) = true /\
    Variant.available a = parseBoolean (r !! "QuantityOnHand") /\
    Variant.description a = r !! "ItemDescription".
Proof.
  intros Hw Hwf Hd _ Hnc Hr Hv.
  destruct (first_run parseFloat rows w Hw (well_formed_distinct _ Hwf) Hd)
    as (_ & (_ & Hsat & _) & Hun).
  destruct (CoverageFacts.row_chunk rows r Hr) as (c & Hc & Hrc).
  assert (Hncc : ~ crashing c) by (intros H; by apply Hnc, (CoverageFacts.crashing_chunk rows c)).
  assert (Hin : r ∈ rows_of (productID_of r) c) by (by apply elem_of_rows_of).
  destruct (rows_of (productID_of r) c) as [|row rest] eqn:Hrows; [by apply elem_of_nil in Hin|].
  destruct (Hsat c Hc) as [Hsatc _].
  assert (Hst : stuck (Store.products
            (store (importProducts parseFloat ((Data <$> rows) ++ [End_]) w).2)) c = false).
  { apply ReachedFacts.stuck_false. intros k _. rewrite Hun.
    by apply ReachedFacts.unreadable_readable, well_formed_readable. }
  destruct (Hsatc Hncc Hst _ _ _ Hrows) as (_ & _ & doc & l & Hdoc & Hp & _ & Hl & _ & Hcov).
  destruct (Hcov r Hin) as (a & Ha & Hsku & Hsame).
  destruct (constructVariant_built parseFloat r w) as (v & _ & Hbuilt).
  destruct (CoverageFacts.not_updated a v (Hsame v Hbuilt)) as (Hprice & Hav & Hde).
  destruct Hbuilt as (_ & Hvp & Hva & Hvd).
  exists doc, l, a. split_and!; try done; congruence.
Qed.

End Coverage.

(** ** The grouping of a chunk: skipped rows and type errors *)

Section GroupingEdges.
Variable parseFloat : option string -> float.

(** The grouping sends no request and throws nothing but the type error of
    [push] on [undefined]. *)
Lemma groupRow_quiet acc row w :
  store (groupRow parseFloat acc row w).2 = store w /\
  journal (groupRow parseFloat acc row w).2 = journal w /\
  forall e, (groupRow parseFloat acc row w).1 = Thrown e ->
    e = Exn.TypeError "Cannot read properties of undefined (reading 'push')".
Proof.
  unfold groupRow. destruct (Js.falsy _ || Js.falsy _); [by split_and!|].
  unfold mbind, M_bind.
  destruct (constructVariant_returns parseFloat row w) as (v & -> & _).
  destruct (JsMap.get _ _); cbn; split_and!; try done. by intros e [= <-].
Qed.

Lemma reduce_groupRow_quiet chunk acc w :
  store (reduce (groupRow parseFloat) chunk acc w).2 = store w /\
  journal (reduce (groupRow parseFloat) chunk acc w).2 = journal w /\
  forall e, (reduce (groupRow parseFloat) chunk acc w).1 = Thrown e ->
    e = Exn.TypeError "Cannot read properties of undefined (reading 'push')".
Proof.
  revert acc w. induction chunk as [|row chunk IH]; intros acc w; [by split_and!|].
  cbn [reduce]. unfold mbind, M_bind.
  destruct (groupRow_quiet acc row w) as (Hs & Hj & He).
  destruct (groupRow parseFloat acc row w) as [[acc'|e] w']; cbn [fst snd] in *.
  - destruct (IH acc' w') as (Hs' & Hj' & He'). split_and!; [congruence | congruence | done].
  - split_and!; try done.
Qed.


Lemma groupRow_skips acc row w :
  valid row = false ->
  groupRow parseFloat acc row w = (Returned acc, logged skipped.1 skipped.2 w).
Proof.
  intros Hrow. unfold valid in Hrow. apply negb_false_iff in Hrow.
  unfold groupRow. by rewrite Hrow.
Qed.

Lemma reduce_groupRow_skips chunk acc w :
  Forall (fun row => valid row = false) chunk ->
  reduce (groupRow parseFloat) chunk acc w =
    (Returned acc,
     mkWorld (store w) (vendorCache w) (manufacturerCache w) (entropy w) (drawn w)
       (faults w) (journal w) (logs w ++ replicate (length chunk) skipped)).
Proof.
  intros Hall. revert w. induction Hall as [|row chunk Hrow _ IH]; intros w.
  - cbn. rewrite app_nil_r. by destruct w.
  - cbn [reduce length replicate]. unfold mbind, M_bind.
    rewrite (groupRow_skips acc row w Hrow), IH.
    cbn [store vendorCache manufacturerCache entropy drawn faults journal logs logged
           fst snd skipped].
    by rewrite <- app_assoc.
Qed.

(** A chunk in which every row lacks its product id or its item id, the
    empty chunk included: each row is skipped with a warning, the store is
    asked for no product and no bulk write is sent. *)
Theorem processChunk_skips_incomplete_rows (chunk : list Row) (w : World) :
  Forall (fun row => valid row = false) chunk ->
  faults w (length (journal w)) = None ->
  exists w',
    processChunk parseFloat chunk w = (Returned tt, w') /\
    store w' = store w /\
    journal w' = journal w ++ [ProductFind []] /\
    logs w' = logs w ++ replicate (length chunk) skipped /\
    drawn w' = drawn w.
Proof.
  intros Hall Hok. unfold processChunk. unfold mbind at 1, M_bind at 1.
  rewrite (reduce_groupRow_skips chunk JsMap.empty w Hall).
  cbn [JsMap.keys JsMap.empty map Js.ownKeys].
  unfold mbind, M_bind, productFind, request.
  cbn [faults journal store]. rewrite Hok. cbn.
  eexists. split; [reflexivity|]. by destruct (store w).
Qed.

(** When the store refuses the lookup of the stored products, the chunk
    fails with the error of the store before any vendor, manufacturer or
    product is written: the lookup is the only request sent. *)
Theorem processChunk_lookup_refused (chunk : list Row) (w : World) (message : string) :
  ~ crashing chunk -> faults w (length (journal w)) = Some message ->
  exists w' productIDs,
    processChunk parseFloat chunk w = (Thrown (Exn.StoreError message), w') /\
    store w' = store w /\
    journal w' = journal w ++ [ProductFind productIDs].
Proof.
  intros Hnc Hfault.
  pose proof (grouping_spec parseFloat chunk w) as Hspec.
  destruct (reduce_groupRow_quiet chunk JsMap.empty w) as (Hs & Hj & _).
  unfold processChunk. unfold mbind at 1, M_bind at 1.
  destruct (reduce (groupRow parseFloat) chunk JsMap.empty w) as [[G|e] w1];
    cbn [fst snd] in *; [|by destruct Hspec as (_ & _ & ?)].
  destruct Hspec as (_ & Hf & _).
  unfold mbind, M_bind, productFind, request. rewrite Hf, Hj, Hfault.
  eexists _, _. split; [reflexivity|]. cbn. by rewrite Hj.
Qed.


End GroupingEdges.

(** ** One chunk against a store that fails no request *)

Section ChunkOnStore.
Variable parseFloat : option string -> float.

Section Effect.
Variables (chunk : list Row) (G : JsMap.t Group.t) (ops : list BulkOp.t) (s s' : Store.t).
Hypothesis Hpn : NoDup (omap productID_in (Store.products s)).
Hypothesis HG : groups_of parseFloat chunk G.
Hypothesis Heff : chunk_effect G ops s s'.

Lemma chunk_ops_made :
  ops_made G (fun productID => stored productID (Store.products s)) s'
    (Js.ownKeys (JsMap.keys G)) ops.
Proof. by destruct Heff as (_ & _ & _ & _ & _ & _ & H). Qed.

Lemma chunk_filters_NoDup : NoDup (BulkOp.filter_productID <$> ops).
Proof.
  rewrite (OpsFacts.ops_made_filters _ _ _ _ _ chunk_ops_made).
  apply NoDup_ownKeys. by destruct HG.
Qed.

Lemma chunk_ops_good :
  Forall (fun op => docId_insert_only op /\ keeps_productID op /\ BulkOp.upsert op = true) ops.
Proof. exact (OpsFacts.ops_made_good _ _ _ _ _ chunk_ops_made). Qed.

Lemma chunk_ops_keep : Forall keeps_productID ops.
Proof. eapply Forall_impl; [exact chunk_ops_good|]. by intros op (_ & ? & _). Qed.

Lemma chunk_products :
  Store.products s' =
    (patch ops <$> Store.products s) ++
    (inserted <$> List.filter
       (fun op => bool_decide (stored (BulkOp.filter_productID op) (Store.products s) = None))
       ops).
Proof.
  destruct Heff as (-> & _).
  apply BulkFacts.bulkWrite_patch; [done | apply chunk_filters_NoDup | apply chunk_ops_good].
Qed.

(** The instruction of a product id: its group, the rows filed under it
    and the variants built from them. *)
Lemma chunk_op op :
  op ∈ ops ->
  exists g rest,
    rows_of (BulkOp.filter_productID op) chunk = Group.row g :: rest /\
    Forall2 (built_from parseFloat) (Group.row g :: rest) (Group.variants g) /\
    Group.row g !! "SiteSource" ∈ Vendor.name <$> Store.vendors s' /\
    Group.row g !! "ManufacturerID" ∈ Manufacturer.manufacturerId <$> Store.manufacturers s' /\
    op_made g (stored (BulkOp.filter_productID op) (Store.products s)) (Store.vendors s')
      (BulkOp.filter_productID op) op.
Proof.
  intros Hop.
  destruct (OpsFacts.ops_made_elem _ _ _ _ _ _ chunk_ops_made Hop)
    as (g & _ & Hg & Hv & Hm & Hmade).
  destruct (groups_of_rows _ _ _ _ _ HG Hg) as (rest & Hrows & Hbuilt).
  by exists g, rest.
Qed.

Lemma chunk_op_for productID row rest :
  rows_of productID chunk = row :: rest ->
  exists op g,
    op ∈ ops /\ BulkOp.filter_productID op = productID /\ Group.row g = row /\
    Forall2 (built_from parseFloat) (row :: rest) (Group.variants g) /\
    row !! "SiteSource" ∈ Vendor.name <$> Store.vendors s' /\
    row !! "ManufacturerID" ∈ Manufacturer.manufacturerId <$> Store.manufacturers s' /\
    op_made g (stored productID (Store.products s)) (Store.vendors s') productID op.
Proof.
  intros Hrows. destruct (groups_of_get _ _ _ _ _ _ HG Hrows) as (g0 & Hg0 & _).
  destruct (OpsFacts.ops_made_lookup _ _ _ _ _ productID chunk_ops_made) as (op & Hop & <-).
  { apply elem_of_ownKeys. by eapply JsMapFacts.get_Some_keys. }
  destruct (chunk_op op Hop) as (g & rest' & Hrows' & Hbuilt & Hv & Hm & Hmade).
  rewrite Hrows in Hrows'. injection Hrows' as -> ->. by exists op, g.
Qed.

(** The bulk write on a stored product the chunk has no row for. *)
Lemma chunk_patch_none d :
  (forall productID, productID_in d = Some productID -> rows_of productID chunk = []) ->
  patch ops d = d.
Proof.
  intros Hnone. apply BulkFacts.patch_unmatched. intros op Hop Heq.
  destruct (chunk_op op Hop) as (g & rest & Hrows & _).
  rewrite (Hnone _ Heq) in Hrows. done.
Qed.

(** The bulk write on a stored product the chunk has rows for. *)
Lemma chunk_patch_some d productID row rest :
  d ∈ Store.products s -> productID_in d = Some productID ->
  rows_of productID chunk = row :: rest ->
  exists vs,
    Forall2 (built_from parseFloat) (row :: rest) vs /\
    row !! "SiteSource" ∈ Vendor.name <$> Store.vendors s' /\
    row !! "ManufacturerID" ∈ Manufacturer.manufacturerId <$> Store.manufacturers s' /\
    patch ops d =
      assign (fields_of (updatedDoc d row
                           (vendorId_for (row !! "SiteSource") (Store.vendors s')) vs)) d.
Proof.
  intros Hd Hp Hrows.
  destruct (chunk_op_for _ _ _ Hrows) as (op & g & Hop & Hf & Hrow & Hbuilt & Hv & Hm & Hmade).
  rewrite (BulkFacts.stored_member _ _ d) in Hmade by done.
  destruct Hmade as (_ & _ & _ & Hset).
  exists (Group.variants g). split_and!; try done.
  rewrite (BulkFacts.patch_matched ops op);
    [by rewrite Hset, Hrow | apply chunk_filters_NoDup | apply chunk_ops_keep | done
    | by rewrite Hf].
Qed.

End Effect.

(** The fields of a stored product that an update of its group leaves. *)
Lemma field_kept d row vendorId vs k :
  k ∉ rowKeys -> k ≠ "variants" ->
  field k (assign (fields_of (updatedDoc d row vendorId vs)) d) = field k d.
Proof.
  intros Hk Hne. destruct (decide (k ∈ setFields)) as [Hin|Hnin].
  - rewrite WrittenFacts.field_fields_of by done.
    by apply WrittenFacts.field_updatedDoc_other.
  - apply DocFacts.field_assign_notin. by rewrite WrittenFacts.fields_of_keys.
Qed.

Lemma processChunk_stored (chunk : list Row) (w : World) (i : nat) (d : Doc) :
  reliable w -> distinct_products (store w) ->
  Store.products (store w) !! i = Some d ->
  exists d',
    Store.products (store (processChunk parseFloat chunk w).2) !! i = Some d' /\
    productID_in d' = productID_in d /\
    (forall k, k ∉ rowKeys -> k ≠ "variants" -> field k d' = field k d) /\
    ((forall productID, productID_in d = Some productID -> rows_of productID chunk = []) ->
     d' = d).
Proof.
  intros Hw Hpn Hi.
  destruct (processChunk_reliable parseFloat chunk w Hw Hpn)
    as (o & w' & Hrun & _ &
        [[_ Hstore]|[(_ & _ & HP & _)|(Hnc & _ & -> & G & ops & HG & Heff)]]);
    rewrite Hrun; cbn [snd].
  { rewrite Hstore. by exists d. }
  { rewrite HP. by exists d. }
  rewrite (chunk_products chunk G ops _ _ Hpn HG Heff).
  exists (patch ops d). split_and!.
  - rewrite lookup_app_l by (rewrite length_fmap; by eapply lookup_lt_Some).
    by rewrite list_lookup_fmap, Hi.
  - apply OpsFacts.productID_in_patch, (chunk_ops_keep G ops _ _ Heff).
  - intros k Hk Hne. destruct (productID_in d) as [productID|] eqn:Hp.
    + destruct (rows_of productID chunk) as [|row rest] eqn:Hrows.
      * rewrite (chunk_patch_none chunk G ops _ _ HG Heff); [done|].
        intros ? Heq. rewrite Hp in Heq. by injection Heq as <-.
      * destruct (chunk_patch_some chunk G ops _ _ Hpn HG Heff d productID row rest)
          as (vs & _ & _ & _ & ->); [by eapply list_elem_of_lookup_2 | done | done |].
        by apply field_kept.
    + rewrite (chunk_patch_none chunk G ops _ _ HG Heff); [done|].
      intros ? Heq. by rewrite Hp in Heq.
  - apply (chunk_patch_none chunk G ops _ _ HG Heff).
Qed.

(** A chunk never removes or moves a stored product and never changes its
    product id; of a product it has rows for, it rewrites the name, the
    description, the vendor id, the manufacturer id, the availability, the
    images and the variants, and no other field; a product it has no row
    for is left as it is. *)
Theorem processChunk_keeps_stored_products (chunk : list Row) (w : World) (i : nat) (d : Doc) :
  reliable w -> well_formed (store w) ->
  Store.products (store w) !! i = Some d ->
  exists d',
    Store.products (store (processChunk parseFloat chunk w).2) !! i = Some d' /\
    productID_in d' = productID_in d /\
    (forall k, k ∉ rowKeys -> k ≠ "variants" -> field k d' = field k d) /\
    ((forall productID, productID_in d = Some productID -> rows_of productID chunk = []) ->
     d' = d).
Proof. intros Hw Hwf. apply processChunk_stored; [done | by apply well_formed_distinct]. Qed.

Lemma store_attempt context chunk w :
  store (attempt parseFloat context chunk w) = store (processChunk parseFloat chunk w).2.
Proof. unfold attempt. by destruct (processChunk parseFloat chunk w) as [[[]|e] w']. Qed.

Lemma attempts_keep_stored chunks seen w i d :
  reliable w -> settled_on parseFloat seen (store w) ->
  distinct_skus (concat seen ++ concat chunks.*2) ->
  Store.products (store w) !! i = Some d ->
  exists d',
    Store.products (store (attempts parseFloat chunks w)) !! i = Some d' /\
    productID_in d' = productID_in d /\
    (forall k, k ∉ rowKeys -> k ≠ "variants" -> field k d' = field k d) /\
    ((forall productID c, productID_in d = Some productID -> c ∈ chunks.*2 ->
        rows_of productID c = []) ->
     d' = d).
Proof.
  revert seen w d. induction chunks as [|[context chunk] chunks IH]; intros seen w d Hw Hset Hd Hi.
  - exists d. by split_and!.
  - cbn [attempts fold_left fmap list_fmap snd fst concat] in *.
    destruct (attempt_settles parseFloat context seen chunk w Hw Hset) as (Hw1 & Hset1 & _).
    { apply (distinct_skus_app_l _ (concat chunks.*2)). by rewrite <- app_assoc. }
    destruct (processChunk_stored chunk w i d Hw (proj1 Hset) Hi) as (d1 & Hi1 & Hp1 & Hk1 & Hn1).
    rewrite <- (store_attempt context) in Hi1.
    destruct (IH (seen ++ [chunk]) (attempt parseFloat context chunk w) d1 Hw1 Hset1)
      as (d' & Hi' & Hp' & Hk' & Hn'); [|done|].
    { rewrite concat_app. cbn. by rewrite app_nil_r, <- app_assoc. }
    exists d'. split_and!; [done | congruence | |].
    + intros k Hk Hne. by rewrite Hk', Hk1.
    + intros Hnone. rewrite Hn'.
      * apply Hn1. intros productID Hp. apply (Hnone productID chunk Hp).
        apply elem_of_cons. by left.
      * intros productID c Hp Hc. rewrite Hp1 in Hp. apply (Hnone productID c Hp).
        apply elem_of_cons. by right.
Qed.

(** Over a whole run on a file whose last row does not fill a chunk: every
    product stored before the run is at its position after it, with its product id and with every field but the
    name, the description, the vendor id, the manufacturer id, the
    availability, the images and the variants as it was; and a product the
    file has no row for is left as it is. *)
Theorem importProducts_keeps_stored_products (rows : list Row) (w : World) (i : nat) (d : Doc) :
  reliable w -> well_formed (store w) -> distinct_skus rows ->
  ends_between_chunks rows ->
  Store.products (store w) !! i = Some d ->
  exists d',
    Store.products (store (importProducts parseFloat ((Data <$> rows) ++ [End_]) w).2) !! i
      = Some d' /\
    productID_in d' = productID_in d /\
    (forall k, k ∉ rowKeys -> k ≠ "variants" -> field k d' = field k d) /\
    ((forall productID, productID_in d = Some productID -> rows_of productID rows = []) ->
     d' = d).
Proof.
  intros Hw Hwf Hd _ Hi. rewrite importProducts_attempts. cbn [snd store logged].
  destruct (attempts_keep_stored (chunks rows) [] (logged Log "Starting product import" w) i d)
    as (d' & Hi' & Hp' & Hk' & Hn');
    [ by apply GroupFacts.reliable_logged | by apply settled_on_nil, well_formed_distinct
    | cbn [concat app]; by rewrite concat_chunks | done | ].
  exists d'. split_and!; try done. intros Hnone. apply Hn'. intros productID c Hp Hc.
  destruct (rows_of productID c) as [|r rest] eqn:Hrows; [done|].
  assert (Hr : r ∈ rows_of productID c) by (rewrite Hrows; apply elem_of_cons; by left).
  apply elem_of_rows_of in Hr as [Hvalid Hin].
  assert (Hr' : r ∈ rows_of productID rows).
  { apply elem_of_rows_of. split; [done|]. rewrite <- (concat_chunks rows).
    by apply (elem_of_concat _ c). }
  rewrite (Hnone productID Hp) in Hr'. by apply elem_of_nil in Hr'.
Qed.

(** In a chunk of which no row is filed under a property of
    [Object.prototype] (such a chunk throws in the grouping and writes
    nothing), a stored product the chunk has rows for takes the name, the
    description, the vendor, the manufacturer, the availability and the
    images of the first of these rows, and its variants are merged with the
    variants built from the rows, in their order. *)
Theorem processChunk_merges_into_stored_product
    (chunk : list Row) (w : World) (i : nat) (d : Doc) (productID : string)
    (row : Row) (rest : list Row) :
  reliable w -> well_formed (store w) -> ~ crashing chunk ->
  Store.products (store w) !! i = Some d -> productID_in d = Some productID ->
  rows_of productID chunk = row :: rest ->
  exists d' vs,
    Store.products (store (processChunk parseFloat chunk w).2) !! i = Some d' /\
    Forall2 (built_from parseFloat) (row :: rest) vs /\
    field "variants" d' = VVariants (mergeVariants (variants_of d) vs) /\
    (forall k v,
       (k, v) ∈ rowFields row
                  (vendorId_for (row !! "SiteSource")
                     (Store.vendors (store (processChunk parseFloat chunk w).2))) ->
       field k d' = v) /\
    row !! "SiteSource" ∈
      Vendor.name <$> Store.vendors (store (processChunk parseFloat chunk w).2) /\
    row !! "ManufacturerID" ∈
      Manufacturer.manufacturerId <$>
        Store.manufacturers (store (processChunk parseFloat chunk w).2).
Proof.
  intros Hw Hwf Hnc Hi Hp Hrows. pose proof Hwf as [(_ & _ & Hpn & _) Hdocs].
  assert (Hns : stuck (Store.products (store w)) chunk = false).
  { apply ReachedFacts.stuck_false. intros k _.
    by apply ReachedFacts.unreadable_readable, well_formed_readable. }
  destruct (processChunk_reliable parseFloat chunk w Hw (well_formed_distinct _ Hwf))
    as (o & w' & Hrun & _ &
        [[Hc _]|[(_ & Hst & _)|(_ & _ & -> & G & ops & HG & Heff)]]); [done | congruence |].
  rewrite Hrun; cbn [snd].
  assert (Hd : d ∈ Store.products (store w)) by (by eapply list_elem_of_lookup_2).
  destruct (chunk_patch_some chunk G ops _ _ Hpn HG Heff d productID row rest Hd Hp Hrows)
    as (vs & Hbuilt & Hv & Hm & Hpatch).
  destruct (WrittenFacts.carries_updated d row
              (vendorId_for (row !! "SiteSource") (Store.vendors (store w'))) vs productID)
    as (_ & _ & Hvs & Hfields); [done|].
  exists (patch ops d), vs. rewrite Hpatch. split_and!; try done.
  rewrite (chunk_products chunk G ops _ _ Hpn HG Heff).
  rewrite lookup_app_l by (rewrite length_fmap; by eapply lookup_lt_Some).
  by rewrite list_lookup_fmap, Hi, <- Hpatch.
Qed.

(** In a chunk of which no row is filed under a property of
    [Object.prototype], a product the chunk has rows for and the store does
    not hold is appended to the products, with the name, the description,
    the vendor, the manufacturer, the availability and the images of the
    first of its rows, and with the variants built from its rows, all of
    them, in their order. *)
Theorem processChunk_creates_missing_product
    (chunk : list Row) (w : World) (productID : string) (row : Row) (rest : list Row) :
  reliable w -> well_formed (store w) -> ~ crashing chunk ->
  stored productID (Store.products (store w)) = None ->
  rows_of productID chunk = row :: rest ->
  exists i doc vs,
    length (Store.products (store w)) <= i /\
    Store.products (store (processChunk parseFloat chunk w).2) !! i = Some doc /\
    productID_in doc = Some productID /\
    Forall2 (built_from parseFloat) (row :: rest) vs /\
    field "variants" doc = VVariants vs /\
    (forall k v,
       (k, v) ∈ rowFields row
                  (vendorId_for (row !! "SiteSource")
                     (Store.vendors (store (processChunk parseFloat chunk w).2))) ->
       field k doc = v) /\
    row !! "SiteSource" ∈
      Vendor.name <$> Store.vendors (store (processChunk parseFloat chunk w).2) /\
    row !! "ManufacturerID" ∈
      Manufacturer.manufacturerId <$>
        Store.manufacturers (store (processChunk parseFloat chunk w).2).
Proof.
  intros Hw Hwf Hnc Hnone Hrows. pose proof Hwf as [(_ & _ & Hpn & _) Hdocs].
  assert (Hns : stuck (Store.products (store w)) chunk = false).
  { apply ReachedFacts.stuck_false. intros k _.
    by apply ReachedFacts.unreadable_readable, well_formed_readable. }
  destruct (processChunk_reliable parseFloat chunk w Hw (well_formed_distinct _ Hwf))
    as (o & w' & Hrun & _ &
        [[Hc _]|[(_ & Hst & _)|(_ & _ & -> & G & ops & HG & Heff)]]); [done | congruence |].
  rewrite Hrun; cbn [snd].
  destruct (chunk_op_for chunk G ops _ _ HG Heff _ _ _ Hrows)
    as (op & g & Hop & Hf & Hrow & Hbuilt & Hv & Hm & Hmade).
  rewrite Hnone in Hmade. destruct Hmade as (_ & _ & (docId & Hsoi) & doc & Hset & Hfresh).
  rewrite Hrow in Hfresh.
  destruct (WrittenFacts.carries_inserted op docId doc row _ _ productID Hf Hsoi Hset Hfresh)
    as (Hp & _ & Hvs & Hfields).
  assert (Hin : inserted op ∈ inserted <$> List.filter
     (fun op => bool_decide (stored (BulkOp.filter_productID op) (Store.products (store w)) = None))
     ops).
  { apply list_elem_of_fmap_2, elem_of_List_filter. split; [done|].
    apply bool_decide_eq_true. by rewrite Hf. }
  apply list_elem_of_lookup_1 in Hin as [j Hj].
  exists (length (Store.products (store w)) + j), (inserted op), (Group.variants g).
  split_and!; try done; [lia|].
  rewrite (chunk_products chunk G ops _ _ Hpn HG Heff).
  rewrite lookup_app_r by (rewrite length_fmap; lia).
  rewrite length_fmap. by replace (_ + j - _) with j by lia.
Qed.

End ChunkOnStore.

(** ** Vendors and manufacturers *)

(** [checkVendor] returns the id of a stored vendor of the name it is
    given, of the first one if there are several, after storing one with a
    generated id if there was none; when a request fails it throws and
    leaves the store as it was. It never touches another vendor, a
    manufacturer or a product. *)
Theorem checkVendor_finds_or_creates (siteSource : option string) (w : World) :
  match checkVendor siteSource w with
  | (Returned vendorId, w') =>
      siteSource ∈ Vendor.name <$> Store.vendors (store w') /\
      vendorId = vendorId_for siteSource (Store.vendors (store w')) /\
      vendors_resolved siteSource (Store.vendors (store w)) (Store.vendors (store w')) /\
      Store.manufacturers (store w') = Store.manufacturers (store w) /\
      Store.products (store w') = Store.products (store w)
  | (Thrown error, w') => store w' = store w
  end.
Proof.
  unfold checkVendor, mbind, M_bind, vendorFindOne, request.
  destruct (faults w (length (journal w))) as [m|]; [done|]. cbv beta iota.
  destruct (List.find _ (Store.vendors (store w))) as [v|] eqn:Hfind.
  - assert (Hin : siteSource ∈ Vendor.name <$> Store.vendors (store w)).
    { destruct (decide (siteSource ∈ Vendor.name <$> Store.vendors (store w))) as [|Hn];
        [done|]. apply ResolveFacts.find_vendor_None in Hn. congruence. }
    cbn. split_and!; try done.
    + unfold vendorId_for. by rewrite Hfind.
    + by left.
  - apply ResolveFacts.find_vendor_None in Hfind. unfold nanoid, vendorSave, request. cbn.
    destruct (faults w (S (length (journal w)))) as [m|] eqn:Hsave.
    + rewrite length_app. cbn. rewrite Nat.add_1_r, Hsave. done.
    + rewrite length_app. cbn. rewrite Nat.add_1_r, Hsave. cbn. split_and!; try done.
      * rewrite fmap_app, elem_of_app. right. cbn. apply elem_of_cons. by left.
      * by rewrite ResolveFacts.vendorId_for_new.
      * right. split; [done|]. by eexists.
Qed.

(** Asking twice for the vendor of a name gives the same id, and the second
    call changes nothing in the store. *)
Theorem checkVendor_twice (siteSource : option string) (w : World) :
  reliable w ->
  exists vendorId w1 w2,
    checkVendor siteSource w = (Returned vendorId, w1) /\
    checkVendor siteSource w1 = (Returned vendorId, w2) /\
    store w2 = store w1.
Proof.
  intros Hw.
  destruct (ResolveFacts.checkVendor_reliable siteSource w Hw)
    as (w1 & Hrun1 & Hw1 & _ & _ & Hv1).
  destruct (ResolveFacts.checkVendor_reliable siteSource w1 Hw1)
    as (w2 & Hrun2 & _ & Hp2 & Hm2 & Hv2).
  assert (Hsame : Store.vendors (store w2) = Store.vendors (store w1)).
  { destruct Hv2 as [[_ ->]|[Hn _]]; [done|].
    destruct Hn. by eapply ResolveFacts.vendors_resolved_elem. }
  exists (vendorId_for siteSource (Store.vendors (store w1))), w1, w2.
  split_and!; [done | by rewrite Hrun2, Hsame |].
  destruct (store w1), (store w2). cbn in *. congruence.
Qed.

(** [ensureManufacturer] returns the id it is given, after storing a
    manufacturer of that id and the given name if there was none; a stored
    manufacturer keeps the name it has; when a request fails it throws and
    leaves the store as it was. *)
Theorem ensureManufacturer_returns_its_id
    (manufacturerId manufacturerName : option string) (w : World) :
  match ensureManufacturer manufacturerId manufacturerName w with
  | (Returned result, w') =>
      result = manufacturerId /\
      manufacturerId ∈ Manufacturer.manufacturerId <$> Store.manufacturers (store w') /\
      (manufacturerId ∈ Manufacturer.manufacturerId <$> Store.manufacturers (store w) ->
       store w' = store w) /\
      (manufacturerId ∉ Manufacturer.manufacturerId <$> Store.manufacturers (store w) ->
       store w' =
         Store.mk (Store.vendors (store w))
           (Store.manufacturers (store w) ++ [Manufacturer.mk manufacturerId manufacturerName])
           (Store.products (store w)))
  | (Thrown error, w') => store w' = store w
  end.
Proof.
  unfold ensureManufacturer, mbind, M_bind, manufacturerFindOne, request.
  destruct (faults w (length (journal w))) as [m|]; [done|]. cbv beta iota.
  destruct (List.find _ (Store.manufacturers (store w))) as [m|] eqn:Hfind.
  - pose proof Hfind as Hm. apply find_some in Hm as [Hin Heq].
    apply bool_decide_eq_true in Heq. apply list_elem_of_In in Hin.
    assert (Hid : manufacturerId ∈ Manufacturer.manufacturerId <$> Store.manufacturers (store w)).
    { rewrite <- Heq. by apply list_elem_of_fmap_2. }
    cbn. split_and!; try done.
  - apply ResolveFacts.find_manufacturer_None in Hfind. unfold manufacturerSave, request. cbn.
    rewrite length_app. cbn. rewrite Nat.add_1_r.
    destruct (faults w (S (length (journal w)))) as [m|]; [done|]. cbn. split_and!; try done.
    rewrite fmap_app, elem_of_app. right. cbn. apply elem_of_cons. by left.
Qed.

(** ** Prices, identifiers and change detection *)

Module FloatFacts.

Lemma SFeqb_sym f1 f2 : SpecFloat.SFeqb f1 f2 = SpecFloat.SFeqb f2 f1.
Proof.
  unfold SpecFloat.SFeqb, SpecFloat.SFcompare.
  destruct f1 as [s1|s1| |s1 m1 e1], f2 as [s2|s2| |s2 m2 e2];
    try destruct s1; try destruct s2; try reflexivity.
  - rewrite (Z.compare_antisym e2 e1), (ZC4 m2 m1).
    destruct (e2 ?= e1)%Z; cbn; try done. by destruct (Pos.compare_cont Eq m1 m2).
  - rewrite (Z.compare_antisym e2 e1), (ZC4 m2 m1).
    destruct (e2 ?= e1)%Z; cbn; try done. by destruct (Pos.compare_cont Eq m1 m2).
Qed.

Lemma eqb_sym (x y : float) : PrimFloat.eqb x y = PrimFloat.eqb y x.
Proof. rewrite !FloatAxioms.eqb_spec. apply SFeqb_sym. Qed.

End FloatFacts.

(** Change detection is symmetric, it reads the price, the availability
    and the description of the two variants and nothing else, and a variant
    shows a change to itself exactly when its price is NaN. *)
Theorem isVariantUpdated_compares_three_fields :
  (forall a b, isVariantUpdated a b = isVariantUpdated b a) /\
  (forall v, isVariantUpdated v v = PrimFloat.is_nan (Variant.price v)) /\
  (forall a b b',
     Variant.price b = Variant.price b' ->
     Variant.available b = Variant.available b' ->
     Variant.description b = Variant.description b' ->
     isVariantUpdated a b = isVariantUpdated a b').
Proof.
  split_and!.
  - intros a b. unfold isVariantUpdated, num_neq, bool_neq, str_neq.
    rewrite (FloatFacts.eqb_sym (Variant.price a)).
    f_equal; [f_equal|].
    + f_equal. by destruct (Variant.available a), (Variant.available b).
    + f_equal. apply bool_decide_ext. split; congruence.
  - intros v. unfold isVariantUpdated, num_neq, bool_neq, str_neq, PrimFloat.is_nan.
    rewrite Bool.eqb_reflx, bool_decide_eq_true_2 by done. cbn.
    by rewrite !orb_false_r.
  - intros a b b' Hp Ha Hd. unfold isVariantUpdated. by rewrite Hp, Ha, Hd.
Qed.

Section VariantFields.
Variable parseFloat : option string -> float.

(** The price of a built variant is the number read off the row, or zero
    when [parseFloat] yields NaN: it is never NaN, and the cost is the
    price. *)
Theorem constructVariant_price (row : Row) (w : World) :
  exists v w',
    constructVariant parseFloat row w = (Returned v, w') /\
    Variant.cost v = Variant.price v /\
    PrimFloat.is_nan (Variant.price v) = false /\
    (PrimFloat.is_nan (parseFloat (row !! "UnitPrice")) = false ->
     Variant.price v = parseFloat (row !! "UnitPrice")) /\
    (PrimFloat.is_nan (parseFloat (row !! "UnitPrice")) = true ->
     Variant.price v = 0%float).
Proof.
  eexists _, _. split.
  - cbv [constructVariant mbind M_bind nanoid mret M_ret]. reflexivity.
  - cbn. unfold parseNumber. split_and!; [done | | by intros -> | by intros ->].
    by destruct (PrimFloat.is_nan (parseFloat (row !! "UnitPrice"))) eqn:E.
Qed.

(** A variant is built without a request and without a log line, from
    three generated identifiers taken in order: its id, its options path
    and its option items path. Its sku is the text of the item id, the
    manufacturer item code and the packaging put together, a missing one
    reading [undefined]. *)
Theorem constructVariant_identifiers (row : Row) (w : World) :
  exists v w',
    constructVariant parseFloat row w = (Returned v, w') /\
    Variant.id v = entropy w (drawn w) /\
    Variant.optionsPath v = entropy w (S (drawn w)) /\
    Variant.optionItemsPath v = entropy w (S (S (drawn w))) /\
    Variant.sku v = sku_of row /\
    drawn w' = S (S (S (drawn w))) /\
    store w' = store w /\ journal w' = journal w /\ logs w' = logs w.
Proof.
  eexists _, _. split.
  - cbv [constructVariant mbind M_bind nanoid mret M_ret]. reflexivity.
  - cbn. by split_and!.
Qed.

End VariantFields.

(** ** The document of a new product *)

(** The document built for a product that is not stored defines the
    document id and then every field the update writes, in the order of the
    update; seven identifiers are generated, the first of which is the
    document id; and the description is the one of the row, or the empty
    string, whether or not the enhancement is asked for. *)
Theorem newProduct_document
    (productID : string) (row : Row) (variants : list Variant.t) (vendorId : string)
    (manufacturerId : option string) (w : World) :
  exists doc w',
    newProduct productID row variants vendorId manufacturerId w = (Returned doc, w') /\
    JsMap.keys doc = "docId" :: setFields /\
    field "docId" doc = VString (entropy w (drawn w)) /\
    field "productID" doc = VString productID /\
    field "description" doc = VString (Js.or_else (row !! "ProductDescription") "") /\
    field "variants" doc = VVariants variants /\
    drawn w' = 7 + drawn w /\
    store w' = store w /\ journal w' = journal w /\ logs w' = logs w.
Proof.
  unfold newProduct, generateOptions, mbind, M_bind, nanoid. cbn.
  destruct (bool_decide _ || Js.trim_is_empty _); cbn; eexists _, _;
    (split; [reflexivity|]); cbn; by split_and!.
Qed.

(** ** The variant merge: composition *)

Module MergeLaws.

Lemma keyed_list (m : JsMap.t Variant.t) :
  MergeFacts.keyed m -> (fun v => (Variant.sku v, v)) <$> JsMap.values m = m.
Proof.
  unfold MergeFacts.keyed. induction 1 as [|[k v] m Hk _ IH]; [done|].
  change (JsMap.values ((k, v) :: m)) with (v :: JsMap.values m).
  rewrite fmap_cons, IH. cbn in Hk. by rewrite Hk.
Qed.

(** Indexing the values of a map of variants gives the map back. *)
Lemma reindex (m : JsMap.t Variant.t) :
  MergeFacts.keyed m -> NoDup (JsMap.keys m) ->
  fold_left indexVariant (JsMap.values m) JsMap.empty = m.
Proof.
  intros Hk Hnd. rewrite NothingNew.index_distinct.
  - cbn [JsMap.empty app]. by apply keyed_list.
  - cbn [JsMap.keys JsMap.empty map app]. by rewrite MergeFacts.skus_values.
Qed.

Lemma merge_distinct (l : list Variant.t) (m : JsMap.t Variant.t) :
  NoDup (JsMap.keys m ++ (Variant.sku <$> l)) ->
  fold_left mergeVariant l m = m ++ ((fun v => (Variant.sku v, v)) <$> l).
Proof.
  revert m. induction l as [|v l IH]; intros m Hnd; cbn.
  - by rewrite app_nil_r.
  - cbn in Hnd. apply NoDup_app in Hnd as (Hm & Hdisj & Hl). apply NoDup_cons in Hl as [Hv Hl].
    assert (Hnew : Variant.sku v ∉ JsMap.keys m).
    { intros Hin. apply (Hdisj _ Hin). apply elem_of_cons. by left. }
    unfold mergeVariant at 2. rewrite (proj2 (JsMapFacts.get_None _ _) Hnew).
    rewrite NothingNew.set_new by done.
    rewrite IH, <- app_assoc; [done|]. unfold JsMap.keys. rewrite map_app. cbn.
    rewrite <- app_assoc. cbn. apply NoDup_app. split_and!; [done | | by apply NoDup_cons].
    intros x Hx. by apply Hdisj.
Qed.

(** A merge in which every incoming variant finds itself, or a variant of
    its sku that shows no change to it, leaves the list as it is. *)
Lemma mergeVariants_fixed (l vs : list Variant.t) :
  NoDup (Variant.sku <$> l) ->
  (forall v, v ∈ vs -> exists a, a ∈ l /\ Variant.sku a = Variant.sku v /\
                           (a = v \/ isVariantUpdated a v = false)) ->
  mergeVariants l vs = l.
Proof.
  intros Hnd Hvs. unfold mergeVariants.
  rewrite NothingNew.index_distinct by done. cbn [JsMap.empty app].
  set (m := (fun v => (Variant.sku v, v)) <$> l).
  assert (Hfold : fold_left mergeVariant vs m = m).
  { induction vs as [|v vs IH]; [done|]. cbn.
    assert (Hv : mergeVariant m v = m).
    { destruct (Hvs v) as (a & Ha & Hsku & Hsame); [apply elem_of_cons; by left|].
      assert (Hget : JsMap.get (Variant.sku v) m = Some a).
      { rewrite <- Hsku. subst m. by apply NothingNew.get_keyed. }
      unfold mergeVariant. rewrite Hget.
      destruct (isVariantUpdated a v) eqn:Hupd; [|done].
      destruct Hsame as [->|?]; [|congruence]. by apply JsMapFacts.set_get_id. }
    rewrite Hv. apply IH. intros v' Hv'. apply Hvs, elem_of_cons. by right. }
  rewrite Hfold. subst m. unfold JsMap.values. rewrite map_map. cbn.
  apply map_id.
Qed.

(** Every incoming variant finds in the merged list a variant of its sku:
    itself, or one that shows no change to it. *)
Lemma mergeVariants_finds (l vs : list Variant.t) v :
  NoDup (Variant.sku <$> vs) -> v ∈ vs ->
  exists a, a ∈ mergeVariants l vs /\ Variant.sku a = Variant.sku v /\
    (a = v \/ isVariantUpdated a v = false).
Proof.
  intros Hvs Hv.
  assert (Hget : exists a, lookup_sku (Variant.sku v) (mergeVariants l vs) = Some a /\
                   (a = v \/ isVariantUpdated a v = false)).
  { unfold mergeVariants.
    rewrite MergeFacts.lookup_values
      by apply MergeFacts.keyed_fold_merge, MergeFacts.keyed_index.
    rewrite MergeFacts.get_fold_merge by done.
    rewrite (MergeFacts.lookup_sku_member vs v) by done.
    destruct (JsMap.get _ _) as [p|]; [|by exists v; split; [|left]].
    destruct (isVariantUpdated p v) eqn:E; eexists; split; try reflexivity; auto. }
  destruct Hget as (a & Hget & Hsame).
  apply MergeFacts.lookup_sku_Some in Hget as [Hin Hsku]. by exists a.
Qed.

End MergeLaws.

(** Merging the variants of two chunks one after the other into a stored
    list gives what merging them all at once gives, whatever the lists. *)
Theorem mergeVariants_in_two_steps (prior first second : list Variant.t) :
  mergeVariants (mergeVariants prior first) second = mergeVariants prior (first ++ second).
Proof.
  unfold mergeVariants at 1 3. rewrite fold_left_app. f_equal. f_equal.
  unfold mergeVariants. apply MergeLaws.reindex.
  - apply MergeFacts.keyed_fold_merge, MergeFacts.keyed_index.
  - apply MergeFacts.NoDup_keys_fold_merge, MergeFacts.NoDup_keys_fold_index. constructor.
Qed.

(** Merging the same incoming variants a second time changes nothing, when
    no two of them have the same sku. *)
Theorem mergeVariants_again (prior incoming : list Variant.t) :
  NoDup (Variant.sku <$> incoming) ->
  mergeVariants (mergeVariants prior incoming) incoming = mergeVariants prior incoming.
Proof.
  intros Hnd. apply MergeLaws.mergeVariants_fixed.
  - apply MergeFacts.NoDup_mergeVariants.
  - intros v Hv. by apply MergeLaws.mergeVariants_finds.
Qed.

(** Merging nothing into a list, or a list into nothing, gives the list,
    when no two of its variants have the same sku. *)
Theorem mergeVariants_with_nothing (l : list Variant.t) :
  NoDup (Variant.sku <$> l) ->
  mergeVariants l [] = l /\ mergeVariants [] l = l.
Proof.
  intros Hnd. split.
  - apply NothingNew.mergeVariants_same; [done|]. by intros v ?%elem_of_nil.
  - unfold mergeVariants. cbn [fold_left]. rewrite MergeLaws.merge_distinct by done.
    cbn [JsMap.empty app]. unfold JsMap.values. rewrite map_map. cbn. apply map_id.
Qed.

(** ** The stream: an error before the end *)

Section StreamError.
Variable parseFloat : option string -> float.

Lemma chunked_short (buffer rows : list Row) :
  length (buffer ++ rows) < chunkSize -> chunked buffer rows = ([], buffer ++ rows).
Proof.
  revert buffer. induction rows as [|row rows IH]; intros buffer Hlen; cbn [chunked].
  - by rewrite app_nil_r.
  - rewrite !length_app in Hlen. cbn in Hlen.
    destruct (Nat.leb_spec chunkSize (length (buffer ++ [row]))) as [Hfull|_].
    + rewrite length_app in Hfull. cbn in Hfull. lia.
    + rewrite IH, <- app_assoc; [done|]. rewrite !length_app. cbn. lia.
Qed.

(** When the stream fails before a chunk is full, the rows read so far are
    never processed: the run sends no request, logs the error of the stream
    and rejects with it. *)
Theorem importProducts_stream_error (rows : list Row) (error : Exn.t) (w : World) :
  length rows < chunkSize ->
  importProducts parseFloat ((Data <$> rows) ++ [Failure error]) w =
    (Returned (Rejected error),
     logged Error ("Error reading CSV file: " +:+ Exn.message error)
       (logged Log "Starting product import" w)).
Proof.
  intros Hlen. unfold importProducts, mbind, M_bind. cbn [log].
  rewrite reduce_app, onData_chunked, chunked_short by done. reflexivity.
Qed.

End StreamError.

(** ** The steps of a run *)

(** Every effect of the service is one of six steps: a log line, a
    generated identifier, a request that leaves the collections as they
    are (a read, or a refused request), a vendor appended, a manufacturer
    appended, a bulk write on the products. A property of the world that
    these steps keep is kept by a run, whatever the events and the
    faults. *)

Section Steps.
Variable parseFloat : option string -> float.
Variable I : World -> Prop.
Hypothesis I_logged : forall w level message, I w -> I (logged level message w).
Hypothesis I_drew : forall w, I w -> I (drew w).
Hypothesis I_issued : forall w call, I w -> I (issued call (store w) w).
Hypothesis I_vendor : forall w call vendor,
  I w ->
  I (issued call
       (Store.mk (Store.vendors (store w) ++ [vendor]) (Store.manufacturers (store w))
          (Store.products (store w))) w).
Hypothesis I_manufacturer : forall w call manufacturer,
  I w ->
  I (issued call
       (Store.mk (Store.vendors (store w)) (Store.manufacturers (store w) ++ [manufacturer])
          (Store.products (store w))) w).
Hypothesis I_bulkWrite : forall w call ops,
  I w ->
  I (issued call
       (Store.mk (Store.vendors (store w)) (Store.manufacturers (store w))
          (bulkWrite ops (Store.products (store w)))) w).

Local Abbreviation keeps c := (hoare I c (fun _ => I) I).

Lemma keeps_ret {A : Type} (a : A) : keeps (mret a).
Proof. by apply Hoare.ret. Qed.

Lemma keeps_throw {A : Type} (e : Exn.t) : keeps (@throw A e).
Proof. by apply Hoare.throw_. Qed.

Lemma keeps_bind {A B : Type} (c : M A) (f : A -> M B) :
  keeps c -> (forall a, keeps (f a)) -> keeps (c ≫= f).
Proof. intros Hc Hf. by eapply Hoare.bind. Qed.

Lemma keeps_try_catch {A : Type} (body : M A) (handler : Exn.t -> M A) :
  keeps body -> (forall e, keeps (handler e)) -> keeps (try_catch body handler).
Proof. intros Hb Hh. by eapply Hoare.try_catch_. Qed.

Lemma keeps_log level message : keeps (log level message).
Proof. apply HoarePrimitives.log_. intros w. apply I_logged. Qed.

Lemma keeps_nanoid : keeps nanoid.
Proof. apply HoarePrimitives.nanoid_. intros w. apply I_drew. Qed.

Lemma keeps_forEach {A B : Type} (body : A -> M B) (l : list A) :
  (forall x, keeps (body x)) -> keeps (forEach body l).
Proof.
  intros Hbody. induction l as [|x l IH]; cbn [forEach]; [apply keeps_ret|].
  apply keeps_bind; [done|]. intros b. apply keeps_bind; [done|]. intros bs. apply keeps_ret.
Qed.

Lemma keeps_reduce {A B : Type} (body : B -> A -> M B) (l : list A) (init : B) :
  (forall acc x, keeps (body acc x)) -> keeps (reduce body l init).
Proof.
  intros Hbody. revert init. induction l as [|x l IH]; intros init; cbn [reduce];
    [apply keeps_ret|].
  apply keeps_bind; [done|]. intros acc. apply IH.
Qed.

Lemma keeps_productFind productIDs : keeps (productFind productIDs).
Proof. apply HoarePrimitives.request_; intros w Hw; by apply I_issued. Qed.

Lemma keeps_productBulkWrite ops : keeps (productBulkWrite ops).
Proof.
  apply HoarePrimitives.request_; intros w Hw; [by apply I_issued | by apply I_bulkWrite].
Qed.

Lemma keeps_vendorFindOne name : keeps (vendorFindOne name).
Proof. apply HoarePrimitives.request_; intros w Hw; by apply I_issued. Qed.

Lemma keeps_vendorSave vendor : keeps (vendorSave vendor).
Proof.
  apply HoarePrimitives.request_; intros w Hw; [by apply I_issued | by apply I_vendor].
Qed.

Lemma keeps_manufacturerFindOne key : keeps (manufacturerFindOne key).
Proof. apply HoarePrimitives.request_; intros w Hw; by apply I_issued. Qed.

Lemma keeps_manufacturerSave manufacturer : keeps (manufacturerSave manufacturer).
Proof.
  apply HoarePrimitives.request_; intros w Hw; [by apply I_issued | by apply I_manufacturer].
Qed.

Ltac keeps_step :=
  first
    [ apply keeps_ret | apply keeps_throw | apply keeps_log | apply keeps_nanoid
    | apply keeps_productFind | apply keeps_productBulkWrite
    | apply keeps_vendorFindOne | apply keeps_vendorSave
    | apply keeps_manufacturerFindOne | apply keeps_manufacturerSave
    | apply keeps_forEach; intros ?
    | apply keeps_reduce; intros ? ?
    | apply keeps_bind; [|intros ?]
    | apply keeps_try_catch; [|intros ?]
    | match goal with
      | |- hoare _ (match ?x with _ => _ end) _ _ => destruct x
      end ].

Lemma keeps_checkVendor siteSource : keeps (checkVendor siteSource).
Proof. unfold checkVendor. repeat keeps_step. Qed.

Lemma keeps_ensureManufacturer manufacturerId manufacturerName :
  keeps (ensureManufacturer manufacturerId manufacturerName).
Proof. unfold ensureManufacturer. repeat keeps_step. Qed.

Lemma keeps_newProduct productID row variants vendorId manufacturerId :
  keeps (newProduct productID row variants vendorId manufacturerId).
Proof.
  unfold newProduct, generateOptions, enhanceDescription, guardedEnhancement.
  repeat keeps_step.
Qed.

Lemma keeps_updatedProduct existingProduct row variants vendorId manufacturerId :
  keeps (updatedProduct existingProduct row variants vendorId manufacturerId).
Proof. unfold updatedProduct, storedVariants. repeat keeps_step. Qed.

Lemma keeps_processGroup groupedData existingProductsMap productID :
  keeps (processGroup groupedData existingProductsMap productID).
Proof.
  unfold processGroup.
  repeat first
    [ apply keeps_checkVendor | apply keeps_ensureManufacturer
    | apply keeps_updatedProduct | apply keeps_newProduct | keeps_step ].
Qed.

Lemma keeps_groupRow accumulator currentItem :
  keeps (groupRow parseFloat accumulator currentItem).
Proof. unfold groupRow, constructVariant. repeat keeps_step. Qed.

Lemma keeps_processChunk chunk : keeps (processChunk parseFloat chunk).
Proof.
  unfold processChunk.
  repeat first [ apply keeps_groupRow | apply keeps_processGroup | keeps_step ].
Qed.

Lemma keeps_handle run event : keeps (handle parseFloat run event).
Proof.
  destruct event as [row| |error]; cbn [handle]; unfold onData, onEnd, onError;
    repeat first [ apply keeps_processChunk | keeps_step ].
Qed.

Lemma keeps_importProducts events : keeps (importProducts parseFloat events).
Proof.
  unfold importProducts. repeat first [ apply keeps_handle | keeps_step ].
Qed.

Lemma importProducts_keeps events w : I w -> I (importProducts parseFloat events w).2.
Proof.
  intros Hw. pose proof (keeps_importProducts events w Hw) as H.
  by destruct (importProducts parseFloat events w) as [[p|e] w'].
Qed.

End Steps.

(** Whatever the events of the stream and whatever requests fail, a run
    removes, moves and changes no vendor and no manufacturer: those stored
    before it are the first ones after it, as they were. It takes its
    identifiers further along the generator, and it adds to the log. *)
Theorem importProducts_only_appends
    (parseFloat : option string -> float) (events : list StreamEvent) (w : World) :
  Store.vendors (store w) `prefix_of`
    Store.vendors (store (importProducts parseFloat events w).2) /\
  Store.manufacturers (store w) `prefix_of`
    Store.manufacturers (store (importProducts parseFloat events w).2) /\
  drawn w <= drawn (importProducts parseFloat events w).2 /\
  logs w `prefix_of` logs (importProducts parseFloat events w).2.
Proof.
  apply (importProducts_keeps parseFloat
           (fun w' =>
              Store.vendors (store w) `prefix_of` Store.vendors (store w') /\
              Store.manufacturers (store w) `prefix_of` Store.manufacturers (store w') /\
              drawn w <= drawn w' /\
              logs w `prefix_of` logs w')).
  - intros w' level message (Hv & Hm & Hd & Hl). split_and!; try done. by apply prefix_app_r.
  - intros w' (Hv & Hm & Hd & Hl). split_and!; try done. cbn. lia.
  - intros w' call (Hv & Hm & Hd & Hl). by split_and!.
  - intros w' call vendor (Hv & Hm & Hd & Hl). split_and!; try done. by apply prefix_app_r.
  - intros w' call manufacturer (Hv & Hm & Hd & Hl). split_and!; try done.
    by apply prefix_app_r.
  - intros w' call ops (Hv & Hm & Hd & Hl). by split_and!.
  - by split_and!.
Qed.

(** * The pipeline on sample files *)

(** C2 fails on the code. A file with the same line twice, for a product
    that is not stored: the new product is written with both variants, of
    the same sku, where a merge into a stored product keeps one per sku. *)
Lemma new_product_keeps_duplicate_skus :
  Sample.variants
    (Sample.after [Sample.gauze "5.50"; Sample.gauze "5.50"] (Sample.world Store.empty))
  = [[("id0", "I1C1Box10", 5.5%float); ("id3", "I1C1Box10", 5.5%float)]] /\
  Sample.variants
    (Sample.after [Sample.gauze "5.50"; Sample.gauze "5.50"]
       (Sample.after [Sample.gauze "5.50"] (Sample.world Store.empty)))
  = [[("id0", "I1C1Box10", 5.5%float)]].
Proof. split; vm_compute; reflexivity. Qed.

(** C4 fails on the code. Two products of one vendor and one manufacturer
    in a chunk: each resolution asks the store, and the caches stay empty. *)
Lemma vendor_resolved_from_the_store_each_time :
  let w := Sample.after [Sample.gauze "10"; Sample.tape] (Sample.world Store.empty) in
  omap (fun call => match call with VendorFindOne name => Some name | _ => None end)
    (journal w) = [Some "AcmeMed"; Some "AcmeMed"] /\
  omap (fun call => match call with ManufacturerFindOne i => Some i | _ => None end)
    (journal w) = [Some "M1"; Some "M1"] /\
  vendorCache w = [] /\ manufacturerCache w = [].
Proof. vm_compute. by repeat split. Qed.

(** The defensive path of C5: a stored product without document id is
    updated, the anomaly is logged, and the identifier generated for it is
    written nowhere. *)
Example missing_docId_stays_missing :
  let w := Sample.after [Sample.gauze "10"] (Sample.world Sample.without_docId) in
  (Error, "Product with ProductID P1 has null docId") ∈ logs w /\
  (fun doc => (field "docId" doc, field "name" doc)) <$> Store.products (store w)
    = [(VUndefined, VString "Gauze")] /\
  Sample.variants w = [[("id0", "I1C1Box10", 10%float)]].
Proof.
  vm_compute. split; [|by split].
  do 2 (apply elem_of_cons; right). apply elem_of_cons. by left.
Qed.

(** A stored product whose [variants] is not a list stops the chunk that
    has a row for it: the update throws before the bulk write (line 196),
    the failure is logged, and no product of the chunk is written, also not
    the one of the row before. The vendor and the manufacturer of the rows
    reached are stored, and a second run changes nothing. *)
Example unreadable_variants_stop_the_chunk :
  let rows := [Sample.gauze "10"; Sample.tape] in
  let w := Sample.after rows (Sample.world Sample.unreadable_P2) in
  (Error, "Error processing final chunk: existingVariants.forEach is not a function")
    ∈ logs w /\
  Store.products (store w) = Store.products Sample.unreadable_P2 /\
  Vendor.name <$> Store.vendors (store w) = [Some "AcmeMed"] /\
  Manufacturer.manufacturerId <$> Store.manufacturers (store w) = [Some "M1"] /\
  store (Sample.after rows w) = store w.
Proof.
  vm_compute. split; [|by split_and!].
  do 3 (apply elem_of_cons; right). apply elem_of_cons. by left.
Qed.

Lemma well_formed_empty : well_formed Store.empty.
Proof.
  split; [split_and!|]; cbn; try apply NoDup_nil_2; by intros doc ?%elem_of_nil.
Qed.

Lemma importProducts_twice_same_store_witness :
  (no_duplicates (store (Sample.world Store.empty)) ->
   no_duplicates
     (store (Sample.after [Sample.gauze "10"; Sample.tape] (Sample.world Store.empty)))) /\
  store (Sample.after [Sample.gauze "10"; Sample.tape]
           (Sample.after [Sample.gauze "10"; Sample.tape] (Sample.world Store.empty))) =
    store (Sample.after [Sample.gauze "10"; Sample.tape] (Sample.world Store.empty)).
Proof.
  apply (importProducts_twice_same_store Sample.parseFloat
           [Sample.gauze "10"; Sample.tape] (Sample.world Store.empty)).
  - intros n. reflexivity.
  - apply well_formed_distinct, well_formed_empty.
  - apply (bool_decide_unpack _). vm_compute. exact I.
  - right. vm_compute. lia.
Defined.

(** C3 as written fails in three ways.

    Two rows of a product yield the same sku. A product stored with one
    variant, by a run over a file of one line, and then a file with that
    line after a line of the same sku and another price: each run replaces
    the stored variant twice, and the variant it leaves has the identifiers
    generated in that run.

    The store holds two products of one product id. The update reads the
    second and writes the first: every run writes to the first product a
    variant with the identifiers generated in that run.

    The store fails a request. The first run loses its chunk to the failed
    request and stores nothing; the second run stores the product. *)
Lemma importProducts_twice_differs :
  (reliable (Sample.after [Sample.gauze "10"] (Sample.world Store.empty)) /\
   distinct_products (store (Sample.after [Sample.gauze "10"] (Sample.world Store.empty))) /\
   ends_between_chunks [Sample.gauze "12"; Sample.gauze "10"] /\
   Sample.variants
     (Sample.after [Sample.gauze "12"; Sample.gauze "10"]
        (Sample.after [Sample.gauze "10"] (Sample.world Store.empty)))
   = [[("id14", "I1C1Box10", 10%float)]] /\
   Sample.variants
     (Sample.after [Sample.gauze "12"; Sample.gauze "10"]
        (Sample.after [Sample.gauze "12"; Sample.gauze "10"]
           (Sample.after [Sample.gauze "10"] (Sample.world Store.empty))))
   = [[("id20", "I1C1Box10", 10%float)]] /\
   ~ store (Sample.after [Sample.gauze "12"; Sample.gauze "10"]
              (Sample.after [Sample.gauze "12"; Sample.gauze "10"]
                 (Sample.after [Sample.gauze "10"] (Sample.world Store.empty))))
     = store (Sample.after [Sample.gauze "12"; Sample.gauze "10"]
                (Sample.after [Sample.gauze "10"] (Sample.world Store.empty)))) /\
  (reliable (Sample.world Sample.two_of_P1) /\
   distinct_skus [Sample.gauze "10"] /\
   ends_between_chunks [Sample.gauze "10"] /\
   Sample.variants (Sample.after [Sample.gauze "10"] (Sample.world Sample.two_of_P1))
   = [[("id0", "I1C1Box10", 10%float)]; []] /\
   Sample.variants
     (Sample.after [Sample.gauze "10"]
        (Sample.after [Sample.gauze "10"] (Sample.world Sample.two_of_P1)))
   = [[("id4", "I1C1Box10", 10%float)]; []] /\
   ~ store (Sample.after [Sample.gauze "10"]
              (Sample.after [Sample.gauze "10"] (Sample.world Sample.two_of_P1)))
     = store (Sample.after [Sample.gauze "10"] (Sample.world Sample.two_of_P1))) /\
  (distinct_products (store (Sample.failing_once Store.empty)) /\
   distinct_skus [Sample.gauze "10"] /\
   ends_between_chunks [Sample.gauze "10"] /\
   Sample.variants (Sample.after [Sample.gauze "10"] (Sample.failing_once Store.empty))
   = [] /\
   Sample.variants
     (Sample.after [Sample.gauze "10"]
        (Sample.after [Sample.gauze "10"] (Sample.failing_once Store.empty)))
   = [[("id3", "I1C1Box10", 10%float)]] /\
   ~ store (Sample.after [Sample.gauze "10"]
              (Sample.after [Sample.gauze "10"] (Sample.failing_once Store.empty)))
     = store (Sample.after [Sample.gauze "10"] (Sample.failing_once Store.empty))).
Proof.
  assert (Hends : forall rows : list Row,
            length rows mod chunkSize <> 0 -> ends_between_chunks rows) by (by right).
  assert (Hdiffer : forall w w' : World,
            Sample.variants w <> Sample.variants w' -> store w <> store w').
  { intros w w' H Heq. apply H. unfold Sample.variants. by rewrite Heq. }
  split_and!.
  - destruct (first_run Sample.parseFloat [Sample.gauze "10"] (Sample.world Store.empty))
      as [Hw _]; [intros n; reflexivity | apply well_formed_distinct, well_formed_empty
                 | apply (bool_decide_unpack _); vm_compute; exact I | exact Hw].
  - destruct (first_run Sample.parseFloat [Sample.gauze "10"] (Sample.world Store.empty))
      as (_ & (Hpn & _) & _);
      [intros n; reflexivity | apply well_formed_distinct, well_formed_empty
      | apply (bool_decide_unpack _); vm_compute; exact I | exact Hpn].
  - apply Hends. vm_compute. lia.
  - vm_compute. reflexivity.
  - vm_compute. reflexivity.
  - apply Hdiffer. vm_compute. discriminate.
  - intros n. reflexivity.
  - apply (bool_decide_unpack _). vm_compute. exact I.
  - apply Hends. vm_compute. lia.
  - vm_compute. reflexivity.
  - vm_compute. reflexivity.
  - apply Hdiffer. vm_compute. discriminate.
  - apply well_formed_distinct, well_formed_empty.
  - apply (bool_decide_unpack _). vm_compute. exact I.
  - apply Hends. vm_compute. lia.
  - vm_compute. reflexivity.
  - vm_compute. reflexivity.
  - apply Hdiffer. vm_compute. discriminate.
Qed.

Lemma mergeVariants_union_by_sku_witness :
  union_by_sku [Sample.variantA "a0" 10] [Sample.variantA "a1" 12]
    (mergeVariants [Sample.variantA "a0" 10] [Sample.variantA "a1" 12]).
Proof.
  apply (mergeVariants_union_by_sku [Sample.variantA "a0" 10] [Sample.variantA "a1" 12]);
    simpl; apply NoDup_singleton.
Defined.

Lemma mergeVariants_order_witness :
  prior_then_new [Sample.variantOf "A" "a0" 10; Sample.variantOf "B" "b0" 10]
    [Sample.variantOf "C" "c1" 10; Sample.variantOf "A" "a1" 12]
    (mergeVariants [Sample.variantOf "A" "a0" 10; Sample.variantOf "B" "b0" 10]
       [Sample.variantOf "C" "c1" 10; Sample.variantOf "A" "a1" 12]).
Proof.
  apply (mergeVariants_order [Sample.variantOf "A" "a0" 10; Sample.variantOf "B" "b0" 10]
           [Sample.variantOf "C" "c1" 10; Sample.variantOf "A" "a1" 12]);
    apply (bool_decide_unpack _); vm_compute; reflexivity.
Defined.

(** C1 as written fails when a sku comes twice. Two rows of one chunk with
    the same sku: the second incoming variant is compared with the first,
    which has replaced the stored one, so that the stored [a0] is gone
    although [a2] differs from it in none of the three fields. A stored list
    with the same sku twice (the creation of a product stores such lists):
    the incoming [a2] is compared with the last stored variant [a1] only,
    and both stored variants are gone although [a0] and [a2] do not
    differ. *)
Lemma mergeVariants_duplicate_sku_not_union :
  ~ differs (Sample.variantA "a0" 10) (Sample.variantA "a2" 10) /\
  mergeVariants [Sample.variantA "a0" 10]
    [Sample.variantA "a1" 12; Sample.variantA "a2" 10] = [Sample.variantA "a2" 10] /\
  ~ union_by_sku [Sample.variantA "a0" 10]
      [Sample.variantA "a1" 12; Sample.variantA "a2" 10]
      (mergeVariants [Sample.variantA "a0" 10]
         [Sample.variantA "a1" 12; Sample.variantA "a2" 10]) /\
  mergeVariants [Sample.variantA "a0" 10; Sample.variantA "a1" 12]
    [Sample.variantA "a2" 10] = [Sample.variantA "a2" 10] /\
  ~ union_by_sku [Sample.variantA "a0" 10; Sample.variantA "a1" 12]
      [Sample.variantA "a2" 10]
      (mergeVariants [Sample.variantA "a0" 10; Sample.variantA "a1" 12]
         [Sample.variantA "a2" 10]).
Proof.
  assert (Hsame : ~ differs (Sample.variantA "a0" 10) (Sample.variantA "a2" 10)).
  { intros [H|[H|H]]; [by vm_compute in H | done | done]. }
  split_and!; [done | reflexivity | | reflexivity |].
  - intros (_ & _ & _ & _ & H).
    destruct (H (Sample.variantA "a0" 10) (Sample.variantA "a2" 10)) as [_ Hkeep];
      [by repeat constructor | by repeat constructor | done |].
    apply Hkeep in Hsame. change (mergeVariants _ _) with [Sample.variantA "a2" 10] in Hsame.
    by apply list_elem_of_singleton in Hsame.
  - intros (_ & _ & _ & _ & H).
    destruct (H (Sample.variantA "a0" 10) (Sample.variantA "a2" 10)) as [_ Hkeep];
      [by repeat constructor | by repeat constructor | done |].
    apply Hkeep in Hsame. change (mergeVariants _ _) with [Sample.variantA "a2" 10] in Hsame.
    by apply list_elem_of_singleton in Hsame.
Qed.

(** C6 as written fails when a sku comes twice. A stored list with the sku
    [A] at two places loses the first of the two and brings the second to
    the front, even when nothing comes in. Three rows of which the first and
    the third have the sku [A]: the variant of the third row stands before
    the variant of the second. *)
Lemma mergeVariants_duplicate_sku_out_of_order :
  mergeVariants [Sample.variantOf "A" "a0" 10; Sample.variantOf "B" "b0" 10; Sample.variantOf "A" "a1" 10] []
    = [Sample.variantOf "A" "a1" 10; Sample.variantOf "B" "b0" 10] /\
  ~ prior_then_new
      [Sample.variantOf "A" "a0" 10; Sample.variantOf "B" "b0" 10; Sample.variantOf "A" "a1" 10] []
      (mergeVariants
         [Sample.variantOf "A" "a0" 10; Sample.variantOf "B" "b0" 10; Sample.variantOf "A" "a1" 10] []) /\
  mergeVariants [Sample.variantOf "C" "c0" 10]
    [Sample.variantOf "A" "a1" 10; Sample.variantOf "B" "b2" 10; Sample.variantOf "A" "a3" 12]
    = [Sample.variantOf "C" "c0" 10; Sample.variantOf "A" "a3" 12; Sample.variantOf "B" "b2" 10] /\
  ~ prior_then_new [Sample.variantOf "C" "c0" 10]
      [Sample.variantOf "A" "a1" 10; Sample.variantOf "B" "b2" 10; Sample.variantOf "A" "a3" 12]
      (mergeVariants [Sample.variantOf "C" "c0" 10]
         [Sample.variantOf "A" "a1" 10; Sample.variantOf "B" "b2" 10; Sample.variantOf "A" "a3" 12]).
Proof.
  split_and!; [reflexivity | | reflexivity |].
  - intros H. by vm_compute in H.
  - intros H. by vm_compute in H.
Qed.

(** A quantity that is no integer can make the variant available: only the
    leading digits are read. *)
Lemma available_for_text_that_is_no_integer :
  integer_text "3.7" = false /\ Sample.availability (Sample.counted "3.7") = Some true /\
  integer_text "7 boxes" = false /\ Sample.availability (Sample.counted "7 boxes") = Some true /\
  integer_text "1e-5" = false /\ Sample.availability (Sample.counted "1e-5") = Some true /\
  integer_text "12" = true /\ Sample.availability (Sample.counted "12") = Some true /\
  integer_text "-4" = true /\ Sample.availability (Sample.counted "-4") = Some false.
Proof. by vm_compute. Qed.

(** * The further properties on sample files *)

Lemma well_formed_without_docId : well_formed Sample.without_docId.
Proof.
  split; [split_and!|]; cbn.
  - apply NoDup_nil_2.
  - apply NoDup_nil_2.
  - apply NoDup_singleton.
  - intros doc ->%list_elem_of_singleton. cbn. apply NoDup_nil_2.
  - intros doc ->%list_elem_of_singleton. split; [|done].
    apply (bool_decide_unpack _). by vm_compute.
Qed.

Lemma importProducts_stores_every_row_witness :
  exists doc l a,
    doc ∈ Store.products
            (store (Sample.after [Sample.gauze "10"; Sample.tape] (Sample.world Store.empty))) /\
    productID_in doc = Some (productID_of Sample.tape) /\
    field "variants" doc = VVariants l /\
    a ∈ l /\
    Variant.sku a = sku_of Sample.tape /\
    PrimFloat.eqb (Variant.price a)
      (parseNumber Sample.parseFloat (Sample.tape !! "UnitPrice")) = true /\
    Variant.available a = parseBoolean (Sample.tape !! "QuantityOnHand") /\
    Variant.description a = Sample.tape !! "ItemDescription".
Proof.
  apply (importProducts_stores_every_row Sample.parseFloat
           [Sample.gauze "10"; Sample.tape] (Sample.world Store.empty) Sample.tape).
  - intros n. reflexivity.
  - apply well_formed_empty.
  - apply (bool_decide_unpack _). vm_compute. exact I.
  - right. vm_compute. lia.
  - apply (bool_decide_unpack _). vm_compute. exact I.
  - apply elem_of_cons. right. apply elem_of_cons. by left.
  - vm_compute. reflexivity.
Defined.


Lemma processChunk_skips_incomplete_rows_witness :
  exists w',
    processChunk Sample.parseFloat [Edge.withoutItem] (Sample.world Store.empty)
      = (Returned tt, w') /\
    store w' = store (Sample.world Store.empty) /\
    journal w' = journal (Sample.world Store.empty) ++ [ProductFind []] /\
    logs w' = logs (Sample.world Store.empty) ++ replicate (length [Edge.withoutItem]) skipped /\
    drawn w' = drawn (Sample.world Store.empty).
Proof.
  apply (processChunk_skips_incomplete_rows Sample.parseFloat
           [Edge.withoutItem] (Sample.world Store.empty)).
  - apply Forall_cons. split; [vm_compute; reflexivity | apply Forall_nil_2].
  - reflexivity.
Defined.

Lemma processChunk_keeps_stored_products_witness :
  exists d',
    Store.products
      (store (processChunk Sample.parseFloat [Sample.gauze "10"]
                (Sample.world Sample.without_docId)).2) !! 0
      = Some d' /\
    productID_in d' = productID_in [("productID", VString "P1"); ("name", VString "Gauze")] /\
    (forall k, k ∉ rowKeys -> k ≠ "variants" ->
       field k d' = field k [("productID", VString "P1"); ("name", VString "Gauze")]) /\
    ((forall productID,
        productID_in [("productID", VString "P1"); ("name", VString "Gauze")]
          = Some productID ->
        rows_of productID [Sample.gauze "10"] = []) ->
     d' = [("productID", VString "P1"); ("name", VString "Gauze")]).
Proof.
  apply (processChunk_keeps_stored_products Sample.parseFloat [Sample.gauze "10"]
           (Sample.world Sample.without_docId) 0
           [("productID", VString "P1"); ("name", VString "Gauze")]).
  - intros n. reflexivity.
  - apply well_formed_without_docId.
  - reflexivity.
Defined.

Lemma importProducts_keeps_stored_products_witness :
  exists d',
    Store.products
      (store (Sample.after [Sample.tape] (Sample.world Sample.without_docId))) !! 0
      = Some d' /\
    productID_in d' = productID_in [("productID", VString "P1"); ("name", VString "Gauze")] /\
    (forall k, k ∉ rowKeys -> k ≠ "variants" ->
       field k d' = field k [("productID", VString "P1"); ("name", VString "Gauze")]) /\
    ((forall productID,
        productID_in [("productID", VString "P1"); ("name", VString "Gauze")]
          = Some productID ->
        rows_of productID [Sample.tape] = []) ->
     d' = [("productID", VString "P1"); ("name", VString "Gauze")]).
Proof.
  apply (importProducts_keeps_stored_products Sample.parseFloat [Sample.tape]
           (Sample.world Sample.without_docId) 0
           [("productID", VString "P1"); ("name", VString "Gauze")]).
  - intros n. reflexivity.
  - apply well_formed_without_docId.
  - apply (bool_decide_unpack _). vm_compute. exact I.
  - right. vm_compute. lia.
  - reflexivity.
Defined.

Lemma processChunk_merges_into_stored_product_witness :
  exists d' vs,
    Store.products
      (store (processChunk Sample.parseFloat [Sample.gauze "10"; Sample.gauze "12"]
                (Sample.world Sample.without_docId)).2) !! 0
      = Some d' /\
    Forall2 (built_from Sample.parseFloat) [Sample.gauze "10"; Sample.gauze "12"] vs /\
    field "variants" d' =
      VVariants
        (mergeVariants
           (variants_of [("productID", VString "P1"); ("name", VString "Gauze")]) vs) /\
    (forall k v,
       (k, v) ∈ rowFields (Sample.gauze "10")
                  (vendorId_for (Sample.gauze "10" !! "SiteSource")
                     (Store.vendors
                        (store (processChunk Sample.parseFloat
                                  [Sample.gauze "10"; Sample.gauze "12"]
                                  (Sample.world Sample.without_docId)).2))) ->
       field k d' = v) /\
    Sample.gauze "10" !! "SiteSource" ∈
      Vendor.name <$>
        Store.vendors
          (store (processChunk Sample.parseFloat [Sample.gauze "10"; Sample.gauze "12"]
                    (Sample.world Sample.without_docId)).2) /\
    Sample.gauze "10" !! "ManufacturerID" ∈
      Manufacturer.manufacturerId <$>
        Store.manufacturers
          (store (processChunk Sample.parseFloat [Sample.gauze "10"; Sample.gauze "12"]
                    (Sample.world Sample.without_docId)).2).
Proof.
  apply (processChunk_merges_into_stored_product Sample.parseFloat
           [Sample.gauze "10"; Sample.gauze "12"] (Sample.world Sample.without_docId) 0
           [("productID", VString "P1"); ("name", VString "Gauze")] "P1"
           (Sample.gauze "10") [Sample.gauze "12"]).
  - intros n. reflexivity.
  - apply well_formed_without_docId.
  - apply (bool_decide_unpack _). vm_compute. exact I.
  - reflexivity.
  - reflexivity.
  - vm_compute. reflexivity.
Defined.

Lemma processChunk_creates_missing_product_witness :
  exists i doc vs,
    length (Store.products (store (Sample.world Store.empty))) <= i /\
    Store.products
      (store (processChunk Sample.parseFloat [Sample.gauze "10"; Sample.gauze "12"]
                (Sample.world Store.empty)).2) !! i
      = Some doc /\
    productID_in doc = Some "P1" /\
    Forall2 (built_from Sample.parseFloat) [Sample.gauze "10"; Sample.gauze "12"] vs /\
    field "variants" doc = VVariants vs /\
    (forall k v,
       (k, v) ∈ rowFields (Sample.gauze "10")
                  (vendorId_for (Sample.gauze "10" !! "SiteSource")
                     (Store.vendors
                        (store (processChunk Sample.parseFloat
                                  [Sample.gauze "10"; Sample.gauze "12"]
                                  (Sample.world Store.empty)).2))) ->
       field k doc = v) /\
    Sample.gauze "10" !! "SiteSource" ∈
      Vendor.name <$>
        Store.vendors
          (store (processChunk Sample.parseFloat [Sample.gauze "10"; Sample.gauze "12"]
                    (Sample.world Store.empty)).2) /\
    Sample.gauze "10" !! "ManufacturerID" ∈
      Manufacturer.manufacturerId <$>
        Store.manufacturers
          (store (processChunk Sample.parseFloat [Sample.gauze "10"; Sample.gauze "12"]
                    (Sample.world Store.empty)).2).
Proof.
  apply (processChunk_creates_missing_product Sample.parseFloat
           [Sample.gauze "10"; Sample.gauze "12"] (Sample.world Store.empty) "P1"
           (Sample.gauze "10") [Sample.gauze "12"]).
  - intros n. reflexivity.
  - apply well_formed_empty.
  - apply (bool_decide_unpack _). vm_compute. exact I.
  - reflexivity.
  - vm_compute. reflexivity.
Defined.

Lemma checkVendor_twice_witness :
  exists vendorId w1 w2,
    checkVendor (Some "AcmeMed") (Sample.world Store.empty) = (Returned vendorId, w1) /\
    checkVendor (Some "AcmeMed") w1 = (Returned vendorId, w2) /\
    store w2 = store w1.
Proof.
  apply (checkVendor_twice (Some "AcmeMed") (Sample.world Store.empty)).
  intros n. reflexivity.
Defined.

Lemma mergeVariants_again_witness :
  mergeVariants (mergeVariants [Sample.variantA "a0" 10] [Sample.variantA "a1" 12])
    [Sample.variantA "a1" 12]
  = mergeVariants [Sample.variantA "a0" 10] [Sample.variantA "a1" 12].
Proof.
  apply (mergeVariants_again [Sample.variantA "a0" 10] [Sample.variantA "a1" 12]).
  simpl. apply NoDup_singleton.
Defined.

Lemma mergeVariants_with_nothing_witness :
  mergeVariants [Sample.variantA "a0" 10] [] = [Sample.variantA "a0" 10] /\
  mergeVariants [] [Sample.variantA "a0" 10] = [Sample.variantA "a0" 10].
Proof.
  apply (mergeVariants_with_nothing [Sample.variantA "a0" 10]).
  simpl. apply NoDup_singleton.
Defined.

Lemma importProducts_stream_error_witness :
  importProducts Sample.parseFloat
    ((Data <$> [Sample.gauze "10"]) ++ [Failure (Exn.StreamError "EIO")])
    (Sample.world Store.empty) =
    (Returned (Rejected (Exn.StreamError "EIO")),
     logged Error ("Error reading CSV file: " +:+ Exn.message (Exn.StreamError "EIO"))
       (logged Log "Starting product import" (Sample.world Store.empty))).
Proof.
  apply (importProducts_stream_error Sample.parseFloat [Sample.gauze "10"]
           (Exn.StreamError "EIO") (Sample.world Store.empty)).
  unfold chunkSize. cbn. lia.
Defined.

Lemma processChunk_lookup_refused_witness :
  exists w' productIDs,
    processChunk Sample.parseFloat [Sample.tape] Edge.refusing
      = (Thrown (Exn.StoreError "store down"), w') /\
    store w' = store Edge.refusing /\
    journal w' = journal Edge.refusing ++ [ProductFind productIDs].
Proof.
  apply (processChunk_lookup_refused Sample.parseFloat [Sample.tape] Edge.refusing "store down").
  - apply (bool_decide_unpack _). vm_compute. exact I.
  - reflexivity.
Defined.
